(** * MapLooper: the loop track of [include/MapLooper/Loop.hpp]

    A shallow embedding of [class MapLooper::Loop] together with the part of
    the signal bus (libmapper) that the class talks to, and the properties
    of the loop track stated against that embedding.

    Conventions of the embedding:
    - a [double] is a finite binary64 number, carried as the rational it
      denotes; the product of two of them is the exact product rounded to
      the nearest double, ties to even.  The [float] and [int] values held
      by signals are rationals.  Infinities and NaN are outside the model;
    - [int] is a 32-bit two's complement integer carried in [Z]; an
      operation whose C++ behaviour is undefined (dereferencing a null or
      dangling pointer, a conversion or a subtraction that leaves the [int]
      range) makes the enclosing function return [None];
    - the bus is passed explicitly.  A member function that only uses the
      data members takes the object ([this]) by value and returns the new
      one; the functions that hand out pointers into the object take its
      address, and the handlers they register find the object, and the
      characters of a name, in the memory of the program. *)

From Stdlib Require Import ZArith QArith Qround Qabs Lqa String Ascii List Bool Lia.
From Stdlib Require Import DecimalString FinFun SpecFloat.
Import ListNotations.

Local Open Scope Z_scope.

(** ** Machine arithmetic *)

Definition INT_MIN : Z := - 2 ^ 31.
Definition INT_MAX : Z := 2 ^ 31 - 1.

Definition in_int (z : Z) : bool := (INT_MIN <=? z) && (z <=? INT_MAX).

(** An [int] result: defined only inside the range of the type. *)
Definition to_int (z : Z) : option Z := if in_int z then Some z else None.

(** Truncation toward zero, the rounding of a C++ floating-to-integer
    conversion. *)
Definition Qtrunc (q : Q) : Z := Z.quot (Qnum q) (Zpos (Qden q)).

(** [int n = d;] for a [double] d. *)
Definition double_to_int (d : Q) : option Z := to_int (Qtrunc d).

(** Rounding to the nearest integer, ties to the even one. *)
Definition rne (x : Q) : Z :=
  let f := Qfloor x in
  match (x - inject_Z f ?= 1 # 2)%Q with
  | Lt => f
  | Gt => f + 1
  | Eq => if Z.even f then f else f + 1
  end.

Definition pow2 (k : Z) : Q := inject_Z (2 ^ k).

(** The smallest positive double is [2 ^ -1074]; every double is a whole
    number of these units.  Up to [2 ^ 53] units the doubles are one unit
    apart, and the spacing doubles with every further doubling of the
    value: [ulp_exp x] is the binary logarithm of the spacing at [x], for
    [x] counted in units. *)
Definition denorm_min : positive := 2 ^ 1074.

Definition units (q : Q) : Q := q * inject_Z (Zpos denorm_min).

Definition ulp_exp (x : Q) : Z := Z.max 0 (Z.log2 (Qfloor (Qabs x)) - 52).

(** The nearest double, in units, ties to the even significand. *)
Definition rnd (x : Q) : Z :=
  let k := ulp_exp x in rne (x / pow2 k) * 2 ^ k.

(** The double nearest to a real number.  (No infinities: beyond the
    largest double the result is of no use here, because whatever is
    converted to [int] from there on is out of range.) *)
Definition round_double (q : Q) : Q := Qmake (rnd (units q)) denorm_min.

Definition is_double (q : Q) : bool :=
  Qeq_bool (round_double q) q && negb (Qle_bool (pow2 1024) (Qabs q)).

(** [double]: the finite values of the type. *)
Record double : Type := { dval :> Q; dval_ok : is_double dval = true }.

Definition double_zero : double := {| dval := 0; dval_ok := eq_refl |}.

(** The double a literal denotes: the nearest one.  (Literals beyond the
    range of the type are not used.) *)
Definition dbl (q : Q) : double :=
  match is_double (round_double q) as b
        return is_double (round_double q) = b -> double with
  | true => fun H => {| dval := round_double q; dval_ok := H |}
  | false => fun _ => double_zero
  end eq_refl.

(** [a * b] on [double]. *)
Definition double_mul (a b : Q) : Q := round_double (a * b).

(** The value of a finite number of [SpecFloat], the standard library's
    specification of IEEE 754 arithmetic, against which the rounding above
    is checked on a few products. *)
Definition SF2Q (f : spec_float) : option Q :=
  match f with
  | S754_zero _ => Some 0%Q
  | S754_finite s m e =>
      Some ((if s then - inject_Z (Zpos m) else inject_Z (Zpos m))
            * (if e <? 0 then / pow2 (- e) else pow2 e))%Q
  | _ => None
  end.

Definition agrees_with_SFmul (x y : spec_float) : bool :=
  match SF2Q x, SF2Q y, SF2Q (SFmul 53 1024 x y) with
  | Some a, Some b, Some c => Qeq_bool (double_mul a b) c
  | _, _, _ => false
  end.

(** A third of a beat at 24 and at 3 pulses a beat; a fifth and minus a
    twentieth of a beat at 16; two products that fall halfway between two
    subnormal numbers, and one that falls back from above the largest
    significand. *)
Definition sample_products : list (spec_float * spec_float) :=
  [ (S754_finite false 6004799503160661 (-54), S754_finite false 3 3);
    (S754_finite false 6004799503160661 (-54), S754_finite false 3 0);
    (S754_finite false 3602879701896397 (-54), S754_finite false 1 4);
    (S754_finite true 3602879701896397 (-56), S754_finite false 1 4);
    (S754_finite false 1 (-1074), S754_finite false 1 (-1));
    (S754_finite false 3 (-1074), S754_finite false 1 (-1));
    (S754_finite false 9007199254740991 0, S754_finite false 9007199254740991 0);
    (S754_finite true 6004799503160661 (-54), S754_finite false 5 (-3)) ].

(** The doubles next to 1, counted in units: 1 itself, the double below it
    and the point halfway between the two. *)
Definition one_u : Z := 2 ^ 1074.
Definition prev_u : Z := 2 ^ 1074 - 2 ^ 1021.
Definition half_u : Z := 2 ^ 1074 - 2 ^ 1020.

(** The same halfway point as a real number: [1 - 2 ^ -54]. *)
Definition below_one : Q := 1 - (1 # 2 ^ 54).

(** Option as the error monad of the embedding. *)
Definition obind {A B : Type} (o : option A) (f : A -> option B) : option B :=
  match o with
  | Some a => f a
  | None => None
  end.

Notation "x <- c ;; k" := (obind c (fun x => k))
  (at level 61, c at next level, right associativity).
Notation "' p <- c ;; k" := (obind c (fun x => let p := x in k))
  (at level 61, p pattern, c at next level, right associativity).

(** ** Map expressions

    The text handed to [mpr_map_new_from_str]: a sequence of assignments
    separated by [;], in which every [%x] stands for the next signal of the
    argument list used as a source and [%y] for the next one used as the
    destination.  A leading underscore on a source ([_%x]) keeps updates of
    that source from triggering an evaluation. *)
Module Expr.

Local Open Scope string_scope.
Local Open Scope Z_scope.

(** Expressions as they are written in the format string. *)
Inductive fexpr : Type :=
| FNum (text : string)
| FVar (name : string)
| FSrc (muted : bool)
| FHist (off cap : fexpr)
| FNeg (e : fexpr)
| FAdd (a b : fexpr)
| FSub (a b : fexpr)
| FMul (a b : fexpr)
| FParen (e : fexpr)
| FCall (f : string) (arg : fexpr).

Inductive fstmt : Type :=
| FLet (name : string) (e : fexpr)
| FOut (e : fexpr).

Fixpoint render_expr (e : fexpr) : string :=
  match e with
  | FNum t => t
  | FVar n => n
  | FSrc false => "%x"
  | FSrc true => "_%x"
  | FHist o c => "y{" ++ render_expr o ++ "," ++ render_expr c ++ "}"
  | FNeg a => "-" ++ render_expr a
  | FAdd a b => render_expr a ++ "+" ++ render_expr b
  | FSub a b => render_expr a ++ "-" ++ render_expr b
  | FMul a b => render_expr a ++ "*" ++ render_expr b
  | FParen a => "(" ++ render_expr a ++ ")"
  | FCall f a => f ++ "(" ++ render_expr a ++ ")"
  end.

Definition render_stmt (s : fstmt) : string :=
  match s with
  | FLet n e => n ++ "=" ++ render_expr e
  | FOut e => "%y=" ++ render_expr e
  end.

Definition render (p : list fstmt) : string := String.concat ";" (map render_stmt p).

(** Binding strength of the outermost operator: 0 for sums and
    differences, 1 for products, 2 for a sign, 3 for atoms. *)
Definition level (e : fexpr) : nat :=
  match e with
  | FAdd _ _ | FSub _ _ => 0
  | FMul _ _ => 1
  | FNeg _ => 2
  | _ => 3
  end.

(** The tree is the one a left-associative reading of its text gives back:
    no operand binds more weakly than its operator allows. *)
Fixpoint unambiguous (e : fexpr) : bool :=
  match e with
  | FNum _ | FVar _ | FSrc _ => true
  | FHist o c => unambiguous o && unambiguous c
  | FNeg a => (2 <=? level a)%nat && unambiguous a
  | FAdd a b | FSub a b =>
      (1 <=? level b)%nat && unambiguous a && unambiguous b
  | FMul a b =>
      (1 <=? level a)%nat && (2 <=? level b)%nat && unambiguous a && unambiguous b
  | FParen a => unambiguous a
  | FCall _ a => unambiguous a
  end.

Definition unambiguous_stmt (s : fstmt) : bool :=
  match s with
  | FLet _ e | FOut e => unambiguous e
  end.

(** Numeric literals: decimal digits with an optional fraction. *)
Definition digit_of (c : ascii) : option Z :=
  let n := Z.of_nat (nat_of_ascii c) in
  if (48 <=? n) && (n <=? 57) then Some (n - 48) else None.

(** [digits s acc] reads [s] after the digits summed up in [acc]; the
    result is the numerator and the power of ten under it. *)
Fixpoint digits (s : string) (frac : bool) (num : Z) (den : positive)
  : option (Z * positive) :=
  match s with
  | EmptyString => Some (num, den)
  | String c rest =>
      if Ascii.eqb c "."%char then
        if frac then None else digits rest true num den
      else
        d <- digit_of c ;;
        digits rest frac (10 * num + d) (if frac then 10 * den else den)%positive
  end.

Definition parse_num (s : string) : option Q :=
  match s with
  | EmptyString => None
  | _ => '(n, d) <- digits s false 0 1%positive ;; Some (Qred (n # d))
  end.

(** Expressions after [mpr_map_new_from_str] has bound the placeholders to
    the signals of its argument list. *)
Section Bound.

Variable sig : Type.

Inductive expr : Type :=
| Num (q : Q)
| Var (name : string)
| Src (muted : bool) (s : sig)
| Hist (off cap : expr)
| Neg (e : expr)
| Add (a b : expr)
| Sub (a b : expr)
| Mul (a b : expr)
| Call (f : string) (arg : expr).

Inductive stmt : Type :=
| Let (name : string) (e : expr)
| Out (dst : sig) (e : expr).

(** One pass over the text from left to right; every placeholder takes the
    next argument ([va_arg]). *)
Fixpoint bind_expr (e : fexpr) (args : list sig) : option (expr * list sig) :=
  match e with
  | FNum t => q <- parse_num t ;; Some (Num q, args)
  | FVar n => Some (Var n, args)
  | FSrc m =>
      match args with
      | s :: rest => Some (Src m s, rest)
      | [] => None
      end
  | FHist o c =>
      '(o', args1) <- bind_expr o args ;;
      '(c', args2) <- bind_expr c args1 ;;
      Some (Hist o' c', args2)
  | FNeg a => '(a', args1) <- bind_expr a args ;; Some (Neg a', args1)
  | FAdd a b =>
      '(a', args1) <- bind_expr a args ;;
      '(b', args2) <- bind_expr b args1 ;;
      Some (Add a' b', args2)
  | FSub a b =>
      '(a', args1) <- bind_expr a args ;;
      '(b', args2) <- bind_expr b args1 ;;
      Some (Sub a' b', args2)
  | FMul a b =>
      '(a', args1) <- bind_expr a args ;;
      '(b', args2) <- bind_expr b args1 ;;
      Some (Mul a' b', args2)
  | FParen a => bind_expr a args
  | FCall f a => '(a', args1) <- bind_expr a args ;; Some (Call f a', args1)
  end.

Definition bind_stmt (s : fstmt) (args : list sig) : option (stmt * list sig) :=
  match s with
  | FLet n e => '(e', rest) <- bind_expr e args ;; Some (Let n e', rest)
  | FOut e =>
      match args with
      | d :: args1 => '(e', rest) <- bind_expr e args1 ;; Some (Out d e', rest)
      | [] => None
      end
  end.

Fixpoint bind_stmts (p : list fstmt) (args : list sig) : option (list stmt * list sig) :=
  match p with
  | [] => Some ([], args)
  | s :: p' =>
      '(s', args1) <- bind_stmt s args ;;
      '(p'', args2) <- bind_stmts p' args1 ;;
      Some (s' :: p'', args2)
  end.

(** The whole argument list is used up by the placeholders. *)
Definition bind (p : list fstmt) (args : list sig) : option (list stmt) :=
  '(p', rest) <- bind_stmts p args ;;
  match rest with
  | [] => Some p'
  | _ :: _ => None
  end.

(** The sources of an expression in the order of their placeholders, each
    with its underscore mark. *)
Fixpoint sources (e : expr) : list (bool * sig) :=
  match e with
  | Num _ | Var _ => []
  | Src m s => [(m, s)]
  | Hist a b | Add a b | Sub a b | Mul a b => (sources a ++ sources b)%list
  | Neg a | Call _ a => sources a
  end.

Definition stmt_sources (s : stmt) : list (bool * sig) :=
  match s with
  | Let _ e | Out _ e => sources e
  end.

(** The sources whose update makes the bus evaluate the relation. *)
Definition triggers (p : list stmt) : list sig :=
  List.map snd (filter (fun ms => negb (fst ms)) (flat_map stmt_sources p)).

Definition stmt_dst (s : stmt) : list sig :=
  match s with
  | Let _ _ => []
  | Out d _ => [d]
  end.

(** *** Evaluation

    One evaluation of a relation sees the current value of every source,
    the past values of the destination and one draw of the random
    generator. *)
Record env : Type := {
  sigval : sig -> Q;       (* current value of a source *)
  past : nat -> Q;         (* [past k]: the destination value k samples ago *)
  rnd : Q                  (* a draw from the unit interval *)
}.

(** Modelled from the spec: the bus's history addressing, which is not part
    of this repository.  [y{off,cap}] looks [-off] samples back, clamped to
    the [cap] samples the history holds. *)
Definition lookback (off cap : Q) : nat :=
  Z.to_nat (Z.min (Qtrunc (- off)) (Qtrunc cap)).

(** Modelled from the spec: [uniform(c)] draws from [0, c). *)
Definition uniform (c : Q) (draw : Q) : Q := (c * draw)%Q.

Definition vars : Type := list (string * Q).

Fixpoint lookup (n : string) (vs : vars) : option Q :=
  match vs with
  | [] => None
  | (m, q) :: vs' => if String.eqb n m then Some q else lookup n vs'
  end.

(** The value of an expression and the history offsets it has read. *)
Fixpoint eval_expr (E : env) (vs : vars) (e : expr) : option (Q * list nat) :=
  match e with
  | Num q => Some (q, [])
  | Var n => q <- lookup n vs ;; Some (q, [])
  | Src _ s => Some (sigval E s, [])
  | Hist o c =>
      '(vo, r1) <- eval_expr E vs o ;;
      '(vc, r2) <- eval_expr E vs c ;;
      let k := lookback vo vc in
      Some (past E k, (r1 ++ r2 ++ [k])%list)
  | Neg a => '(va, r) <- eval_expr E vs a ;; Some ((- va)%Q, r)
  | Add a b =>
      '(va, r1) <- eval_expr E vs a ;;
      '(vb, r2) <- eval_expr E vs b ;;
      Some ((va + vb)%Q, (r1 ++ r2)%list)
  | Sub a b =>
      '(va, r1) <- eval_expr E vs a ;;
      '(vb, r2) <- eval_expr E vs b ;;
      Some ((va - vb)%Q, (r1 ++ r2)%list)
  | Mul a b =>
      '(va, r1) <- eval_expr E vs a ;;
      '(vb, r2) <- eval_expr E vs b ;;
      Some ((va * vb)%Q, (r1 ++ r2)%list)
  | Call f a =>
      '(va, r) <- eval_expr E vs a ;;
      if String.eqb f "uniform" then Some (uniform va (rnd E), r) else None
  end.

(** What one evaluation of a relation leaves behind. *)
Record result : Type := {
  r_vars : vars;               (* user variables, latest first *)
  r_reads : list nat;          (* history offsets read, in order *)
  r_out : list (sig * Q)       (* values sent to the destination *)
}.

Fixpoint eval_stmts (E : env) (p : list stmt) (r : result) : option result :=
  match p with
  | [] => Some r
  | Let n e :: p' =>
      '(v, rd) <- eval_expr E (r_vars r) e ;;
      eval_stmts E p' {| r_vars := (n, v) :: r_vars r;
                         r_reads := (r_reads r ++ rd)%list;
                         r_out := r_out r |}
  | Out d e :: p' =>
      '(v, rd) <- eval_expr E (r_vars r) e ;;
      eval_stmts E p' {| r_vars := r_vars r;
                         r_reads := (r_reads r ++ rd)%list;
                         r_out := (r_out r ++ [(d, v)])%list |}
  end.

Definition eval (E : env) (p : list stmt) : option result :=
  eval_stmts E p {| r_vars := []; r_reads := []; r_out := [] |}.

End Bound.

Arguments Num {sig}. Arguments Var {sig}. Arguments Src {sig}.
Arguments Hist {sig}. Arguments Neg {sig}. Arguments Add {sig}.
Arguments Sub {sig}. Arguments Mul {sig}. Arguments Call {sig}.
Arguments Let {sig}. Arguments Out {sig}.
Arguments bind {sig}. Arguments bind_stmts {sig}. Arguments bind_stmt {sig}.
Arguments bind_expr {sig}.
Arguments sources {sig}. Arguments stmt_sources {sig}. Arguments stmt_dst {sig}.
Arguments triggers {sig}.
Arguments eval {sig}. Arguments eval_stmts {sig}. Arguments eval_expr {sig}.
Arguments sigval {sig}. Arguments past {sig}. Arguments rnd {sig}.
Arguments r_vars {sig}. Arguments r_reads {sig}. Arguments r_out {sig}.
Arguments Build_env {sig}. Arguments Build_result {sig}.

End Expr.

(** ** The signal bus

    Modelled from the spec: the publish/subscribe bus (libmapper) is an
    external collaborator whose code is not part of this repository.  The
    model keeps what the loop track relies on: named endpoints with a
    direction, a vector width, a numeric kind, a range and an optional
    current value; connections (maps) between endpoints, with or without an
    expression, that become ready some polls after they are pushed; and
    observers of the graph. *)
Module Mapper.

Inductive mpr_dir : Type := MPR_DIR_IN | MPR_DIR_OUT.

Inductive mpr_type : Type := MPR_INT32 | MPR_FLT | MPR_DBL.

Inductive mpr_graph_evt : Type := MPR_OBJ_NEW | MPR_OBJ_MOD | MPR_OBJ_REM | MPR_OBJ_EXP.

(** Handles. *)
Definition mpr_sig : Type := nat.
Definition mpr_map : Type := nat.

Bind Scope nat_scope with mpr_sig mpr_map.

Record signal : Type := {
  sig_name : string;
  sig_local : bool;                    (* owned by this device, or a peer's *)
  sig_dir : mpr_dir;
  sig_len : nat;
  sig_type : mpr_type;
  sig_unit : option string;
  sig_min : list Q;
  sig_max : list Q;
  sig_value : option (list Q)
}.

Record map : Type := {
  map_src : list mpr_sig;
  map_dst : list mpr_sig;
  map_expr : option (list (Expr.stmt mpr_sig));
  map_wait : option (option nat)
    (* [None]: not pushed; [Some (Some k)]: pushed, ready after k more
       polls; [Some None]: pushed, never established *)
}.

(** The calls a program makes on the bus, as the bus sees them. *)
Inductive call : Type :=
| call_sig_new (name : string)
| call_sig_set_value (sig : mpr_sig) (len : nat) (type : mpr_type)
    (val : option (list Q))
| call_sig_free (sig : mpr_sig)
| call_map_new (srcs dsts : list mpr_sig)
| call_map_new_from_str (args : list mpr_sig)
| call_obj_push (m : mpr_map)
| call_dev_poll (block_ms : Z)
| call_graph_add_cb.

Section Graph.

(** The observers a program registers with the graph: a handler together
    with its user data, kept as data. *)
Variable callback : Type.

Record Bus : Type := {
  next_id : nat;
  signals : list (mpr_sig * signal);
  maps : list (mpr_map * map);
  callbacks : list callback;
  handshake : option nat;
    (* how many polls the bus takes to establish a pushed map; [None] when
       it never does *)
  log : list call
    (* every call received so far, oldest first *)
}.

Definition set_signals (b : Bus) (s : list (mpr_sig * signal)) : Bus :=
  {| next_id := next_id b; signals := s; maps := maps b;
     callbacks := callbacks b; handshake := handshake b; log := log b |}.

Definition set_maps (b : Bus) (m : list (mpr_map * map)) : Bus :=
  {| next_id := next_id b; signals := signals b; maps := m;
     callbacks := callbacks b; handshake := handshake b; log := log b |}.

Definition fresh (b : Bus) : Bus :=
  {| next_id := S (next_id b); signals := signals b; maps := maps b;
     callbacks := callbacks b; handshake := handshake b; log := log b |}.

Definition logged (c : call) (b : Bus) : Bus :=
  {| next_id := next_id b; signals := signals b; maps := maps b;
     callbacks := callbacks b; handshake := handshake b; log := log b ++ [c] |}.

(** A device that has just joined: nothing declared. *)
Definition new_bus (h : option nat) : Bus :=
  {| next_id := 0; signals := []; maps := []; callbacks := []; handshake := h;
     log := [] |}.

Fixpoint assoc {A : Type} (k : nat) (l : list (nat * A)) : option A :=
  match l with
  | [] => None
  | (k', a) :: l' => if Nat.eqb k k' then Some a else assoc k l'
  end.

Fixpoint update_assoc {A : Type} (k : nat) (f : A -> A) (l : list (nat * A))
  : list (nat * A) :=
  match l with
  | [] => []
  | (k', a) :: l' =>
      if Nat.eqb k k' then (k', f a) :: l' else (k', a) :: update_assoc k f l'
  end.

Fixpoint remove_assoc {A : Type} (k : nat) (l : list (nat * A)) : list (nat * A) :=
  match l with
  | [] => []
  | (k', a) :: l' =>
      if Nat.eqb k k' then l' else (k', a) :: remove_assoc k l'
  end.

Fixpoint mpr_dev_get_sig_by_name_in (l : list (mpr_sig * signal)) (name : string)
  : option mpr_sig :=
  match l with
  | [] => None
  | (h, s) :: l' =>
      if sig_local s && String.eqb (sig_name s) name then Some h
      else mpr_dev_get_sig_by_name_in l' name
  end.

Definition mpr_dev_get_sig_by_name (dev : Bus) (name : string) : option mpr_sig :=
  mpr_dev_get_sig_by_name_in (signals dev) name.

(** [mpr_sig_new]: declares an endpoint of the device.  An endpoint is
    identified by its name: asking for a name the device already has gives
    the existing endpoint back.  A vector width of zero is refused. *)
Definition mpr_sig_new (dev : Bus) (dir : mpr_dir) (name : string) (len : nat)
    (type : mpr_type) (unit : option string) (min max : list Q)
  : option (mpr_sig * Bus) :=
  let dev := logged (call_sig_new name) dev in
  if Nat.eqb len 0 then None
  else
    match mpr_dev_get_sig_by_name dev name with
    | Some h => Some (h, dev)
    | None =>
        let h := next_id dev in
        let s := {| sig_name := name; sig_local := true; sig_dir := dir;
                    sig_len := len; sig_type := type; sig_unit := unit;
                    sig_min := min; sig_max := max; sig_value := None |} in
        Some (h, fresh (set_signals dev (signals dev ++ [(h, s)])))
    end.

Definition with_value (v : option (list Q)) (s : signal) : signal :=
  {| sig_name := sig_name s; sig_local := sig_local s; sig_dir := sig_dir s;
     sig_len := sig_len s; sig_type := sig_type s; sig_unit := sig_unit s;
     sig_min := sig_min s; sig_max := sig_max s; sig_value := v |}.

(** [mpr_sig_get_value sig 0 0]: a pointer to the current value, null when
    the endpoint has none. *)
Definition mpr_sig_get_value (b : Bus) (sig : mpr_sig) : option (list Q) :=
  s <- assoc sig (signals b) ;; sig_value s.

(** [mpr_sig_set_value sig 0 len type val]: copies [len] elements from
    [val] into the endpoint.  A null [val] or a zero [len] releases the
    value; a [len] other than the endpoint's width is ignored.  (Every
    buffer handed over in this development holds [len] elements.) *)
Definition mpr_sig_set_value (b : Bus) (sig : mpr_sig) (len : nat)
    (type : mpr_type) (val : option (list Q)) : Bus :=
  let b := logged (call_sig_set_value sig len type val) b in
  match assoc sig (signals b) with
  | None => b
  | Some s =>
      match val with
      | None => set_signals b (update_assoc sig (with_value None) (signals b))
      | Some buf =>
          if Nat.eqb len 0 then
            set_signals b (update_assoc sig (with_value None) (signals b))
          else if Nat.eqb len (sig_len s) then
            set_signals b
              (update_assoc sig (with_value (Some (firstn len buf))) (signals b))
          else b
      end
  end.

(** [mpr_sig_free]: the endpoint leaves the device. *)
Definition mpr_sig_free (b : Bus) (sig : mpr_sig) : Bus :=
  let b := logged (call_sig_free sig) b in
  set_signals b (remove_assoc sig (signals b)).

(** [mpr_obj_get_prop_as_str obj MPR_PROP_NAME 0] *)
Definition mpr_obj_get_prop_as_str_NAME (g : Bus) (obj : mpr_sig) : option string :=
  s <- assoc obj (signals g) ;; Some (sig_name s).

(** [mpr_map_new]: a connection from sources to destinations, not yet
    pushed to the bus. *)
Definition mpr_map_new (g : Bus) (srcs dsts : list mpr_sig) : mpr_map * Bus :=
  let g := logged (call_map_new srcs dsts) g in
  let h := next_id g in
  (h, fresh (set_maps g (maps g ++ [(h, {| map_src := srcs; map_dst := dsts;
                                          map_expr := None; map_wait := None |})]))).

Fixpoint dedup (l : list nat) : list nat :=
  match l with
  | [] => []
  | x :: l' => x :: filter (fun y => negb (Nat.eqb x y)) (dedup l')
  end.

(** [mpr_map_new_from_str]: a connection whose sources and destination are
    the signals bound to the placeholders of the expression. *)
Definition mpr_map_new_from_str (g : Bus) (expr : list Expr.fstmt)
    (args : list mpr_sig) : option (mpr_map * Bus) :=
  let g := logged (call_map_new_from_str args) g in
  p <- Expr.bind expr args ;;
  let srcs := dedup (List.map snd (flat_map Expr.stmt_sources p)) in
  let dsts := dedup (flat_map Expr.stmt_dst p) in
  let h := next_id g in
  Some (h, fresh (set_maps g (maps g ++ [(h, {| map_src := srcs; map_dst := dsts;
                                                map_expr := Some p;
                                                map_wait := None |})]))).

Definition with_wait (w : option (option nat)) (m : map) : map :=
  {| map_src := map_src m; map_dst := map_dst m; map_expr := map_expr m;
     map_wait := w |}.

(** [mpr_obj_push] on a map: the bus starts establishing it. *)
Definition mpr_obj_push (g : Bus) (m : mpr_map) : Bus :=
  let g := logged (call_obj_push m) g in
  set_maps g (update_assoc m (with_wait (Some (handshake g))) (maps g)).

Definition mpr_map_get_is_ready (g : Bus) (m : mpr_map) : bool :=
  match assoc m (maps g) with
  | Some r =>
      match map_wait r with
      | Some (Some O) => true
      | _ => false
      end
  | None => false
  end.

Definition poll_map (m : map) : map :=
  match map_wait m with
  | Some (Some (S k)) => with_wait (Some (Some k)) m
  | _ => m
  end.

(** [mpr_dev_poll dev block_ms]: one round of bus housekeeping; every
    pushed map gets one step closer to being established. *)
Definition mpr_dev_poll (dev : Bus) (block_ms : Z) : Bus :=
  let dev := logged (call_dev_poll block_ms) dev in
  set_maps dev (List.map (fun e => (fst e, poll_map (snd e))) (maps dev)).

(** [mpr_graph_add_cb graph handler MPR_SIG data] *)
Definition mpr_graph_add_cb (g : Bus) (cb : callback) : Bus :=
  let g := logged call_graph_add_cb g in
  {| next_id := next_id g; signals := signals g; maps := maps g;
     callbacks := callbacks g ++ [cb]; handshake := handshake g; log := log g |}.

(** A peer's endpoint becomes known to the graph. *)
Definition peer_sig (g : Bus) (name : string) (dir : mpr_dir) (len : nat)
    (type : mpr_type) : mpr_sig * Bus :=
  let h := next_id g in
  (h, fresh (set_signals g (signals g ++
       [(h, {| sig_name := name; sig_local := false; sig_dir := dir;
               sig_len := len; sig_type := type; sig_unit := None;
               sig_min := []; sig_max := []; sig_value := None |})]))).

(** Names of the endpoints the device exposes. *)
Definition local_names (b : Bus) : list string :=
  List.map (fun e => sig_name (snd e)) (filter (fun e => sig_local (snd e)) (signals b)).

End Graph.

Arguments next_id {callback}. Arguments signals {callback}.
Arguments maps {callback}. Arguments callbacks {callback}.
Arguments handshake {callback}. Arguments log {callback}.
Arguments Build_Bus {callback}. Arguments logged {callback}.
Arguments set_signals {callback}. Arguments set_maps {callback}.
Arguments fresh {callback}. Arguments new_bus {callback}.
Arguments mpr_dev_get_sig_by_name {callback}.
Arguments mpr_sig_new {callback}. Arguments mpr_sig_get_value {callback}.
Arguments mpr_sig_set_value {callback}. Arguments mpr_sig_free {callback}.
Arguments mpr_obj_get_prop_as_str_NAME {callback}.
Arguments mpr_map_new {callback}. Arguments mpr_map_new_from_str {callback}.
Arguments mpr_obj_push {callback}. Arguments mpr_map_get_is_ready {callback}.
Arguments mpr_dev_poll {callback}. Arguments mpr_graph_add_cb {callback}.
Arguments peer_sig {callback}. Arguments local_names {callback}.

End Mapper.

(** ** [namespace MapLooper] *)
Module MapLooper.

Import Mapper.

Local Open Scope string_scope.
Local Open Scope Z_scope.

(** [class Loop]: the data members. *)
Record Loop : Type := {
  _loopMap : mpr_map;
  _sigRecord : mpr_sig;
  _sigLength : mpr_sig;
  _sigModulation : mpr_sig;
  _sigDivision : mpr_sig;
  _sigIn : mpr_sig;
  _sigOut : mpr_sig;
  _sigLocalReceive : mpr_sig;
  _sigLocalSend : mpr_sig;
  _sigMute : mpr_sig;
  _lastUpdate : Z;
  _type : mpr_type;
  _vectorSize : nat
}.

Definition set_lastUpdate (this : Loop) (now : Z) : Loop :=
  {| _loopMap := _loopMap this; _sigRecord := _sigRecord this;
     _sigLength := _sigLength this; _sigModulation := _sigModulation this;
     _sigDivision := _sigDivision this; _sigIn := _sigIn this;
     _sigOut := _sigOut this; _sigLocalReceive := _sigLocalReceive this;
     _sigLocalSend := _sigLocalSend this; _sigMute := _sigMute this;
     _lastUpdate := now; _type := _type this; _vectorSize := _vectorSize this |}.

(** The memory of the program, as far as the registered handlers read it
    when the graph calls them: the NUL-terminated string that starts at an
    address, and the [Loop] object that lives at an address.  [None] where
    there is nothing to read any more: the buffer or the object is gone. *)
Definition ptr : Type := nat.

Bind Scope nat_scope with ptr.

Record Store : Type := {
  chars : ptr -> option string;
  objects : ptr -> option Loop
}.

(** A pointer to a data member of an object ([&_sigRecord], taken inside a
    member function of the object at [this]): the address of the object
    and the accessor of the member. *)
Definition member_ptr : Type := (ptr * (Loop -> mpr_sig))%type.

(** [*p] for a pointer to a data member. *)
Definition read_member (mem : Store) (p : member_ptr) : option mpr_sig :=
  match objects mem (fst p) with
  | Some this => Some (snd p this)
  | None => None
  end.

(** The observers the class registers: the lambda of [_mapFrom] and the
    lambda of [_mapTo], each with the [MapData] it was registered with: the
    pointer to the characters of the peer's name, as the caller passed it,
    and the pointer to the data member. *)
Inductive callback : Type :=
| mapFrom_handler (src : ptr) (dst : member_ptr)
| mapTo_handler (src : member_ptr) (dst : ptr).

Definition Bus : Type := Mapper.Bus callback.

(** The memory behind a local variable: [mem x t i] is the [i]-th element of
    type [t] found at the address of the local named [x].  The constructor
    hands the address of one [float] to calls that read [_vectorSize]
    elements of type [_type] from it; what they find beyond (or instead of)
    that [float] is not fixed by the program. *)
Definition memory : Type := string -> mpr_type -> nat -> Q.

Definition cells (mem : memory) (x : string) (value : Q) (t : mpr_type) (n : nat)
  : list Q :=
  List.map (fun i => match t, i with
                     | MPR_FLT, O => value
                     | _, _ => mem x t i
                     end) (seq 0 n).

(** [std::snprintf(buf, size, "%s/%s", a, b)]: at most [size - 1]
    characters are kept. *)
Definition snprintf (size : nat) (a b : string) : string :=
  substring 0 (size - 1) (a ++ "/" ++ b).

(** The expression of the loop map,
    ["del=_%x*_%x;%y=_%x*%x+(1-_%x)*y{-del,100}+_%x*(uniform(2.0)-1)"]. *)
Definition loopMap_expr : list Expr.fstmt :=
  [ Expr.FLet "del" (Expr.FMul (Expr.FSrc true) (Expr.FSrc true));
    Expr.FOut
      (Expr.FAdd
         (Expr.FAdd
            (Expr.FMul (Expr.FSrc true) (Expr.FSrc false))
            (Expr.FMul
               (Expr.FParen (Expr.FSub (Expr.FNum "1") (Expr.FSrc true)))
               (Expr.FHist (Expr.FNeg (Expr.FVar "del")) (Expr.FNum "100"))))
         (Expr.FMul
            (Expr.FSrc true)
            (Expr.FParen
               (Expr.FSub (Expr.FCall "uniform" (Expr.FNum "2.0"))
                          (Expr.FNum "1"))))) ].

(** [while (!mpr_map_get_is_ready(_loopMap)) mpr_dev_poll(dev, 10);] with
    the number of iterations bounded by [fuel]: [None] when the map is not
    ready within that many rounds. *)
Fixpoint wait_ready (fuel : nat) (dev : Bus) (m : mpr_map) : option Bus :=
  match fuel with
  | O => None
  | S fuel' =>
      if mpr_map_get_is_ready dev m then Some dev
      else wait_ready fuel' (mpr_dev_poll dev 10) m
  end.

(** [Loop::Loop(name, dev, type, vectorSize)] up to the point where the
    loop map has been pushed. *)
Definition Loop_declare (mem : memory) (name : string) (dev : Bus)
    (type : mpr_type) (vectorSize : nat) : option (Loop * Bus) :=
  let sigMin := 0%Q in
  let sigMax := 1%Q in
  let lengthMin := 0%Q in
  let lengthMax := 100%Q in
  let divisionMin := 1%Q in
  let divisionMax := 96%Q in
  let muteMin := 0%Q in
  let muteMax := 1%Q in
  let vecMin := cells mem "sigMin" sigMin type vectorSize in
  let vecMax := cells mem "sigMax" sigMax type vectorSize in
  (* Create control signals *)
  let sigName := snprintf 128 name "control/record" in
  '(sigRecord, dev) <- mpr_sig_new dev MPR_DIR_OUT sigName 1 MPR_FLT None
                         [sigMin] [sigMax] ;;
  let dev := mpr_sig_set_value dev sigRecord 1 MPR_FLT (Some [sigMin]) in
  let sigName := snprintf 128 name "control/length" in
  '(sigLength, dev) <- mpr_sig_new dev MPR_DIR_OUT sigName 1 MPR_FLT (Some "beats")
                         [lengthMin] [lengthMax] ;;
  let sigName := snprintf 128 name "control/division" in
  '(sigDivision, dev) <- mpr_sig_new dev MPR_DIR_OUT sigName 1 MPR_FLT (Some "ppqn")
                           [divisionMin] [divisionMax] ;;
  let sigName := snprintf 128 name "control/modulation" in
  '(sigModulation, dev) <- mpr_sig_new dev MPR_DIR_OUT sigName 1 MPR_FLT None
                             [sigMin] [sigMax] ;;
  let dev := mpr_sig_set_value dev sigModulation 1 MPR_FLT (Some [sigMin]) in
  let sigName := snprintf 128 name "control/mute" in
  '(sigMute, dev) <- mpr_sig_new dev MPR_DIR_OUT sigName 1 MPR_INT32 None
                       [muteMin] [muteMax] ;;
  let dev := mpr_sig_set_value dev sigMute 1 MPR_INT32 (Some [muteMin]) in
  (* Create input and output signals *)
  let sigName := snprintf 128 name "input" in
  '(sigIn, dev) <- mpr_sig_new dev MPR_DIR_IN sigName vectorSize type None
                     vecMin vecMax ;;
  let dev := mpr_sig_set_value dev sigIn vectorSize type (Some vecMin) in
  let sigName := snprintf 128 name "output" in
  '(sigOut, dev) <- mpr_sig_new dev MPR_DIR_OUT sigName vectorSize type None
                      vecMin vecMax ;;
  let dev := mpr_sig_set_value dev sigOut vectorSize type (Some vecMin) in
  (* Create local send/receive signals *)
  let sigName := snprintf 128 name "local/send" in
  '(sigLocalSend, dev) <- mpr_sig_new dev MPR_DIR_OUT sigName vectorSize type None
                            vecMin vecMax ;;
  let dev := mpr_sig_set_value dev sigLocalSend vectorSize type (Some vecMin) in
  let sigName := snprintf 128 name "local/recv" in
  '(sigLocalReceive, dev) <- mpr_sig_new dev MPR_DIR_IN sigName vectorSize type None
                               vecMin vecMax ;;
  let dev := mpr_sig_set_value dev sigLocalReceive vectorSize type (Some vecMin) in
  (* Create map *)
  '(loopMap, dev) <- mpr_map_new_from_str dev loopMap_expr
                       [sigLength; sigDivision; sigLocalReceive; sigRecord;
                        sigLocalSend; sigRecord; sigModulation] ;;
  let dev := mpr_obj_push dev loopMap in
  Some ({| _loopMap := loopMap; _sigRecord := sigRecord; _sigLength := sigLength;
           _sigModulation := sigModulation; _sigDivision := sigDivision;
           _sigIn := sigIn; _sigOut := sigOut;
           _sigLocalReceive := sigLocalReceive; _sigLocalSend := sigLocalSend;
           _sigMute := sigMute; _lastUpdate := 0; _type := type;
           _vectorSize := vectorSize |}, dev).

(** The rest of the constructor: wait for the map, then set length and
    division. *)
Definition Loop_finish (fuel : nat) (this : Loop) (dev : Bus) : option (Loop * Bus) :=
  let defaultDivision := 16%Q in
  let defaultLength := 1%Q in
  dev <- wait_ready fuel dev (_loopMap this) ;;
  (* Length and division must be set after map initialization *)
  let dev := mpr_sig_set_value dev (_sigLength this) 1 MPR_FLT (Some [defaultLength]) in
  let dev := mpr_sig_set_value dev (_sigDivision this) 1 MPR_FLT (Some [defaultDivision]) in
  Some (this, dev).

(** [Loop::Loop(name, dev, type, vectorSize)] *)
Definition Loop_new (mem : memory) (fuel : nat) (name : string) (dev : Bus)
    (type : mpr_type) (vectorSize : nat) : option (Loop * Bus) :=
  '(this, dev) <- Loop_declare mem name dev type vectorSize ;;
  Loop_finish fuel this dev.

(** [Loop::~Loop()] *)
Definition Loop_delete (this : Loop) (dev : Bus) : Bus :=
  let dev := mpr_sig_free dev (_sigRecord this) in
  let dev := mpr_sig_free dev (_sigLength this) in
  let dev := mpr_sig_free dev (_sigModulation this) in
  let dev := mpr_sig_free dev (_sigDivision this) in
  let dev := mpr_sig_free dev (_sigIn this) in
  let dev := mpr_sig_free dev (_sigOut this) in
  let dev := mpr_sig_free dev (_sigLocalReceive this) in
  let dev := mpr_sig_free dev (_sigLocalSend this) in
  dev.

(** [strcmp]: zero exactly when the two strings are equal. *)
Definition strcmp (a b : string) : Z :=
  match String.compare a b with
  | Eq => 0
  | Lt => -1
  | Gt => 1
  end.

(** [_mapFrom(src, dst)] and [_mapTo(src, dst)], called on the object at
    [this]: the two pointers go into the [MapData] as they are. *)
Definition _mapFrom (this : ptr) (g : Bus) (src : ptr) (dst : member_ptr) : Bus :=
  mpr_graph_add_cb g (mapFrom_handler src dst).

Definition _mapTo (this : ptr) (g : Bus) (src : member_ptr) (dst : ptr) : Bus :=
  mpr_graph_add_cb g (mapTo_handler src dst).

Definition mapRecord (this : ptr) (g : Bus) (src : ptr) : Bus :=
  _mapFrom this g src (this, _sigRecord).

Definition mapLength (this : ptr) (g : Bus) (src : ptr) : Bus :=
  _mapFrom this g src (this, _sigLength).

Definition mapModulation (this : ptr) (g : Bus) (src : ptr) : Bus :=
  _mapFrom this g src (this, _sigModulation).

Definition mapInput (this : ptr) (g : Bus) (src : ptr) : Bus :=
  _mapFrom this g src (this, _sigIn).

Definition mapOutput (this : ptr) (g : Bus) (dst : ptr) : Bus :=
  _mapTo this g (this, _sigOut) dst.

(** The body of a registered handler, called by the graph with the object
    an event is about, in the memory [mem] of the moment of the call. *)
Definition run_callback (mem : Store) (g : Bus) (obj : mpr_sig)
    (evt : mpr_graph_evt) (cb : callback) : option Bus :=
  match cb with
  | mapFrom_handler src dst =>
      found <- mpr_obj_get_prop_as_str_NAME g obj ;;
      wanted <- chars mem src ;;
      if strcmp wanted found =? 0 then
        target <- read_member mem dst ;;
        let '(m, g1) := mpr_map_new g [obj] [target] in
        Some (mpr_obj_push g1 m)
      else Some g
  | mapTo_handler src dst =>
      found <- mpr_obj_get_prop_as_str_NAME g obj ;;
      wanted <- chars mem dst ;;
      if strcmp wanted found =? 0 then
        source <- read_member mem src ;;
        let '(m, g1) := mpr_map_new g [source] [obj] in
        Some (mpr_obj_push g1 m)
      else Some g
  end.

Fixpoint run_callbacks (mem : Store) (g : Bus) (obj : mpr_sig)
    (evt : mpr_graph_evt) (cbs : list callback) : option Bus :=
  match cbs with
  | [] => Some g
  | cb :: cbs' =>
      g1 <- run_callback mem g obj evt cb ;;
      run_callbacks mem g1 obj evt cbs'
  end.

(** The graph reports an event about the signal [obj]: every observer
    registered for signals is called, in the order of registration. *)
Definition graph_event (mem : Store) (g : Bus) (obj : mpr_sig) (evt : mpr_graph_evt)
  : option Bus :=
  run_callbacks mem g obj evt (callbacks g).

Fixpoint graph_events (mem : Store) (g : Bus) (evs : list (mpr_sig * mpr_graph_evt))
  : option Bus :=
  match evs with
  | [] => Some g
  | (obj, evt) :: evs' =>
      g1 <- graph_event mem g obj evt ;;
      graph_events mem g1 evs'
  end.

(** [printf("Missed %d ticks!\n", n)] *)
Definition string_of_int (n : Z) : string := NilZero.string_of_int (Z.to_int n).

Definition newline : string := String (ascii_of_nat 10) EmptyString.

Definition printf_Missed (n : Z) : string :=
  "Missed " ++ string_of_int n ++ " ticks!" ++ newline.

(** [a - b] on [int]. *)
Definition int_sub (a b : Z) : option Z := to_int (a - b).

(** [*((float* )p)], [*((int* )p)]: the first element behind a pointer. *)
Definition deref (p : option (list Q)) : option Q :=
  v <- p ;; hd_error v.

(** An [int] read as [bool]. *)
Definition int_to_bool (q : Q) : bool := negb (Qeq_bool q 0).

(** The tick index [update] derives: [int now = beats * division], with
    the [float] division converted to [double] for the product. *)
Definition tick_of (this : Loop) (beats : double) (dev : Bus) : option Z :=
  division <- deref (mpr_sig_get_value dev (_sigDivision this)) ;;
  double_to_int (double_mul beats division).

(** [Loop::update(beats)]: the new object, the new bus and the lines
    printed. *)
Definition update (this : Loop) (beats : double) (dev : Bus)
  : option (Loop * Bus * list string) :=
  division <- deref (mpr_sig_get_value dev (_sigDivision this)) ;;
  now <- double_to_int (double_mul beats division) ;;
  '(this, dev, out) <-
    (if negb (now =? _lastUpdate this) then
       (* Check if ticks were missed *)
       d <- int_sub now (_lastUpdate this) ;;
       out <- (if 1 <? d then
                 n <- int_sub d 1 ;; Some [printf_Missed n]
               else Some []) ;;
       (* Update local out *)
       let inputValue := mpr_sig_get_value dev (_sigIn this) in
       let dev := mpr_sig_set_value dev (_sigLocalSend this) (_vectorSize this)
                    (_type this) inputValue in
       Some (set_lastUpdate this now, dev, out)
     else Some (this, dev, [])) ;;
  (* Check if muted *)
  m <- deref (mpr_sig_get_value dev (_sigMute this)) ;;
  let muted := int_to_bool m in
  if negb muted then
    let outputValue := mpr_sig_get_value dev (_sigLocalReceive this) in
    let dev := mpr_sig_set_value dev (_sigOut this) (_vectorSize this)
                 (_type this) outputValue in
    Some (this, dev, out)
  else Some (this, dev, out).

Definition getInputSignal (this : Loop) : mpr_sig := _sigIn this.
Definition getOutputSignal (this : Loop) : mpr_sig := _sigOut this.
Definition getModulationSignal (this : Loop) : mpr_sig := _sigModulation this.
Definition getDivisionSignal (this : Loop) : mpr_sig := _sigDivision this.
Definition getLengthSignal (this : Loop) : mpr_sig := _sigLength this.
Definition getRecordSignal (this : Loop) : mpr_sig := _sigRecord this.
Definition getMuteSignal (this : Loop) : mpr_sig := _sigMute this.

End MapLooper.

(** ** Observations used in the statements *)
Module Obs.

Import Mapper MapLooper.

Local Open Scope string_scope.
Local Open Scope Z_scope.

(** The expression of the loop map as the bus holds it. *)
Definition installed_relation (this : Loop) (dev : Bus)
  : option (list (Expr.stmt mpr_sig)) :=
  r <- assoc (_loopMap this) (maps dev) ;; map_expr r.

(** The signals the constructor hands to [mpr_map_new_from_str], in the
    order of the call. *)
Definition loopMap_args (this : Loop) : list mpr_sig :=
  [ _sigLength this; _sigDivision this; _sigLocalReceive this; _sigRecord this;
    _sigLocalSend this; _sigRecord this; _sigModulation this ].

(** The name leaves room for the longest suffix in the 128-byte buffer of
    the constructor. *)
Definition name_fits (name : string) : Prop := (String.length name <= 108)%nat.

(** The nine endpoint names of a track. *)
Definition suffixes : list string :=
  [ "control/record"; "control/length"; "control/division"; "control/modulation";
    "control/mute"; "input"; "output"; "local/send"; "local/recv" ].

Definition endpoint_names (name : string) : list string :=
  List.map (snprintf 128 name) suffixes.

(** The bus after [k] rounds of [mpr_dev_poll(dev, 10)]. *)
Fixpoint polled (k : nat) (dev : Bus) : Bus :=
  match k with
  | O => dev
  | S k' => polled k' (mpr_dev_poll dev 10)
  end.

(** The two writes [update] can make: the capture of the input into
    local/send and the copy of local/recv to the output. *)
Definition capture (this : Loop) (dev : Bus) : call :=
  call_sig_set_value (_sigLocalSend this) (_vectorSize this) (_type this)
    (mpr_sig_get_value dev (_sigIn this)).

Definition copy_out (this : Loop) (dev : Bus) : call :=
  call_sig_set_value (_sigOut this) (_vectorSize this) (_type this)
    (mpr_sig_get_value dev (_sigLocalReceive this)).

Definition writes_to (s : mpr_sig) (c : call) : bool :=
  match c with
  | call_sig_set_value s' _ _ _ => Nat.eqb s' s
  | _ => false
  end.

(** The calls the bus has received between two of its states. *)
Definition calls_since (before after : Bus) : list call :=
  skipn (List.length (log before)) (log after).

(** The bus after each of the two writes. *)
Definition captured (this : Loop) (dev : Bus) : Bus :=
  mpr_sig_set_value dev (_sigLocalSend this) (_vectorSize this) (_type this)
    (mpr_sig_get_value dev (_sigIn this)).

Definition copied (this : Loop) (dev : Bus) : Bus :=
  mpr_sig_set_value dev (_sigOut this) (_vectorSize this) (_type this)
    (mpr_sig_get_value dev (_sigLocalReceive this)).

(** The value of the mute endpoint read as [update] reads it. *)
Definition muted_of (this : Loop) (dev : Bus) : option bool :=
  m <- deref (mpr_sig_get_value dev (_sigMute this)) ;; Some (int_to_bool m).

(** The second half of [update]: the mute gate in front of the output. *)
Definition gate (this : Loop) (dev : Bus) (out : list string)
  : option (Loop * Bus * list string) :=
  m <- muted_of this dev ;;
  Some (this, if m then dev else copied this dev, out).

(** A run of [update] calls, one per beat position, with nothing else
    touching the bus in between. *)
Fixpoint updates (this : Loop) (dev : Bus) (beats : list double)
  : option (Loop * Bus * list string) :=
  match beats with
  | [] => Some (this, dev, [])
  | b :: beats' =>
      '(this1, dev1, out1) <- update this b dev ;;
      '(this2, dev2, out2) <- updates this1 dev1 beats' ;;
      Some (this2, dev2, (out1 ++ out2)%list)
  end.

(** The tick indices a run of [update] calls derives. *)
Fixpoint ticks (this : Loop) (dev : Bus) (beats : list double) : option (list Z) :=
  match beats with
  | [] => Some []
  | b :: beats' =>
      t <- tick_of this b dev ;;
      '(this1, dev1, _) <- update this b dev ;;
      ts <- ticks this1 dev1 beats' ;;
      Some (t :: ts)
  end.

(** What happens around a track between two of its [update] calls: a peer
    or the bus itself writes one of the endpoints. *)
Inductive step : Type :=
| call_update (beats : double)
| bus_writes (sig : mpr_sig) (v : option (list Q)).

Definition write (dev : Bus) (sig : mpr_sig) (v : option (list Q)) : Bus :=
  set_signals dev (update_assoc sig (with_value v) (signals dev)).

Fixpoint run (this : Loop) (dev : Bus) (steps : list step) : option (Loop * Bus) :=
  match steps with
  | [] => Some (this, dev)
  | call_update b :: steps' =>
      '(this1, dev1, _) <- update this b dev ;;
      run this1 dev1 steps'
  | bus_writes s v :: steps' => run this (write dev s v) steps'
  end.

(** No step of the environment writes the endpoint [s]. *)
Fixpoint leaves (s : mpr_sig) (steps : list step) : bool :=
  match steps with
  | [] => true
  | call_update _ :: steps' => leaves s steps'
  | bus_writes s' _ :: steps' => negb (Nat.eqb s' s) && leaves s steps'
  end.

(** The endpoints of a bus with their values left out. *)
Definition declared (dev : Bus) : list (mpr_sig * signal) :=
  List.map (fun e => (fst e, with_value None (snd e))) (signals dev).

(** What the mute endpoint holds: [mute_is this dev m] when its value
    starts with [m]. *)
Definition mute_is (this : Loop) (dev : Bus) (m : Q) : Prop :=
  deref (mpr_sig_get_value dev (_sigMute this)) = Some m.

Definition mute_nonzero (this : Loop) (dev : Bus) : bool :=
  match deref (mpr_sig_get_value dev (_sigMute this)) with
  | Some m => negb (Qeq_bool m 0)
  | None => false
  end.

(** Every [update] of a run finds a value other than zero in the mute
    endpoint (and returns). *)
Fixpoint muted_throughout (this : Loop) (dev : Bus) (steps : list step) : bool :=
  match steps with
  | [] => true
  | call_update b :: steps' =>
      match update this b dev with
      | Some (this1, dev1, _) =>
          mute_nonzero this dev && muted_throughout this1 dev1 steps'
      | None => false
      end
  | bus_writes s v :: steps' => muted_throughout this (write dev s v) steps'
  end.

(** The binding requests for a peer that feeds the track, each with the
    data member the peer is to be connected to. *)
Definition inbound : list ((ptr -> Bus -> ptr -> Bus) * (Loop -> mpr_sig)) :=
  [ (mapRecord, _sigRecord); (mapLength, _sigLength);
    (mapModulation, _sigModulation); (mapInput, _sigIn) ].

(** A pushed connection from one signal to another, without expression. *)
Definition link (g : Bus) (src dst : mpr_sig) : map :=
  {| map_src := [src]; map_dst := [dst]; map_expr := None;
     map_wait := Some (handshake g) |}.

(** What a handler does on a match: a new connection, pushed at once. *)
Definition connected (g : Bus) (src dst : mpr_sig) : Bus :=
  let '(m, g1) := mpr_map_new g [src] [dst] in mpr_obj_push g1 m.

(** The connections the bus has gained between two of its states. *)
Definition maps_since (before after : Bus) : list map :=
  List.map snd (skipn (List.length (maps before)) (maps after)).

(** The name an observer waits for and the connection it installs for an
    object, as the memory of the moment gives them. *)
Definition cb_name (mem : Store) (cb : callback) : option string :=
  match cb with
  | mapFrom_handler src _ => chars mem src
  | mapTo_handler _ dst => chars mem dst
  end.

Definition cb_link (mem : Store) (g : Bus) (obj : mpr_sig) (cb : callback)
  : option map :=
  match cb with
  | mapFrom_handler _ dst => option_map (link g obj) (read_member mem dst)
  | mapTo_handler src _ =>
      option_map (fun s => link g s obj) (read_member mem src)
  end.

Definition cb_waits_for (mem : Store) (found : string) (cb : callback) : bool :=
  match cb_name mem cb with
  | Some wanted => String.eqb wanted found
  | None => false
  end.

(** The name of an observer can be read and its object is alive. *)
Definition cb_live (mem : Store) (cb : callback) : Prop :=
  cb_name mem cb <> None /\
  match cb with
  | mapFrom_handler _ dst => read_member mem dst <> None
  | mapTo_handler src _ => read_member mem src <> None
  end.

(** A memory with the given strings and objects, and nothing else. *)
Definition store_of (names : list (ptr * string)) (objs : list (ptr * Loop)) : Store :=
  {| chars := fun p => assoc p names; objects := fun a => assoc a objs |}.

(** Handles of maps are below the next free handle. *)
Definition well_numbered (g : Bus) : bool :=
  forallb (fun e => Nat.ltb (fst e) (next_id g)) (maps g).

(** The name under which the graph knows an object. *)
Definition named (g : Bus) (obj : mpr_sig) (name : string) : Prop :=
  mpr_obj_get_prop_as_str_NAME g obj = Some name.

(** Two peers appear next to the demo track, both with an endpoint called
    ["knob"]; a third one is called ["fader"]. *)
Definition peers : option (Loop * Bus) :=
  '(this, g) <- Loop_new (fun _ _ _ => 0%Q) 1 "loop" (new_bus (Some O)) MPR_FLT 1 ;;
  let '(_, g) := peer_sig g "knob" MPR_DIR_OUT 1 MPR_FLT in
  let '(_, g) := peer_sig g "knob" MPR_DIR_OUT 1 MPR_FLT in
  let '(_, g) := peer_sig g "fader" MPR_DIR_OUT 1 MPR_FLT in
  Some (this, g).

(** A track on a device of its own: name ["loop"], one [float] per sample,
    a bus that establishes maps after two polls. *)
Definition quiet : memory := fun _ _ _ => 0%Q.

Definition demo : option (Loop * Bus) :=
  Loop_new quiet 3 "loop" (new_bus (Some 2%nat)) MPR_FLT 1.

(** Two tracks on one device, ["a"] and ["b"], and a peer endpoint called
    ["knob"]. *)
Definition duo : option (Loop * Loop * Bus) :=
  '(a, g) <- Loop_new quiet 1 "a" (new_bus (Some O)) MPR_FLT 1 ;;
  '(b, g) <- Loop_new quiet 1 "b" g MPR_FLT 1 ;;
  let '(_, g) := peer_sig g "knob" MPR_DIR_OUT 1 MPR_FLT in
  Some (a, b, g).

(** A track name of 118 characters: the buffer of the constructor keeps
    the first 8 characters of a suffix. *)
Fixpoint letters (n : nat) : string :=
  match n with
  | O => EmptyString
  | S k => String "x" (letters k)
  end.

Definition long_name : string := letters 118.

Definition no_loop : Loop :=
  {| _loopMap := O; _sigRecord := O; _sigLength := O; _sigModulation := O;
     _sigDivision := O; _sigIn := O; _sigOut := O; _sigLocalReceive := O;
     _sigLocalSend := O; _sigMute := O; _lastUpdate := 0; _type := MPR_FLT;
     _vectorSize := O |}.

Definition demo_loop : Loop :=
  match demo with
  | Some (this, _) => this
  | None => no_loop
  end.

Definition demo_bus : Bus :=
  match demo with
  | Some (_, dev) => dev
  | None => new_bus None
  end.

(** The first track declared on a device that has just joined: the
    handles follow the order of the declarations. *)
Definition first_track (type : mpr_type) (vectorSize : nat) : Loop :=
  {| _loopMap := 9%nat; _sigRecord := 0%nat; _sigLength := 1%nat;
     _sigModulation := 3%nat; _sigDivision := 2%nat; _sigIn := 5%nat;
     _sigOut := 6%nat; _sigLocalReceive := 8%nat; _sigLocalSend := 7%nat;
     _sigMute := 4%nat; _lastUpdate := 0; _type := type;
     _vectorSize := vectorSize |}.

Definition endpoint (name sfx : string) (dir : mpr_dir) (len : nat)
    (type : mpr_type) (unit : option string) (min max : list Q)
    (value : option (list Q)) : signal :=
  {| sig_name := snprintf 128 name sfx; sig_local := true; sig_dir := dir;
     sig_len := len; sig_type := type; sig_unit := unit; sig_min := min;
     sig_max := max; sig_value := value |}.

(** The endpoints of that track, with the values [length] and [division]
    hold at the moment. *)
Definition first_signals (mem : memory) (name : string) (type : mpr_type)
    (vs : nat) (length division : option (list Q)) : list (mpr_sig * signal) :=
  let lo := cells mem "sigMin" 0 type vs in
  let hi := cells mem "sigMax" 1 type vs in
  [ (0%nat, endpoint name "control/record" MPR_DIR_OUT 1 MPR_FLT None
              [0%Q] [1%Q] (Some [0%Q]));
    (1%nat, endpoint name "control/length" MPR_DIR_OUT 1 MPR_FLT (Some "beats")
              [0%Q] [100%Q] length);
    (2%nat, endpoint name "control/division" MPR_DIR_OUT 1 MPR_FLT (Some "ppqn")
              [1%Q] [96%Q] division);
    (3%nat, endpoint name "control/modulation" MPR_DIR_OUT 1 MPR_FLT None
              [0%Q] [1%Q] (Some [0%Q]));
    (4%nat, endpoint name "control/mute" MPR_DIR_OUT 1 MPR_INT32 None
              [0%Q] [1%Q] (Some [0%Q]));
    (5%nat, endpoint name "input" MPR_DIR_IN vs type None lo hi (Some lo));
    (6%nat, endpoint name "output" MPR_DIR_OUT vs type None lo hi (Some lo));
    (7%nat, endpoint name "local/send" MPR_DIR_OUT vs type None lo hi (Some lo));
    (8%nat, endpoint name "local/recv" MPR_DIR_IN vs type None lo hi (Some lo)) ].

(** The calls of the constructor up to the push of the loop map. *)
Definition first_calls (mem : memory) (name : string) (type : mpr_type) (vs : nat)
  : list call :=
  let lo := cells mem "sigMin" 0 type vs in
  [ call_sig_new (snprintf 128 name "control/record");
    call_sig_set_value 0 1 MPR_FLT (Some [0%Q]);
    call_sig_new (snprintf 128 name "control/length");
    call_sig_new (snprintf 128 name "control/division");
    call_sig_new (snprintf 128 name "control/modulation");
    call_sig_set_value 3 1 MPR_FLT (Some [0%Q]);
    call_sig_new (snprintf 128 name "control/mute");
    call_sig_set_value 4 1 MPR_INT32 (Some [0%Q]);
    call_sig_new (snprintf 128 name "input");
    call_sig_set_value 5 vs type (Some lo);
    call_sig_new (snprintf 128 name "output");
    call_sig_set_value 6 vs type (Some lo);
    call_sig_new (snprintf 128 name "local/send");
    call_sig_set_value 7 vs type (Some lo);
    call_sig_new (snprintf 128 name "local/recv");
    call_sig_set_value 8 vs type (Some lo);
    call_map_new_from_str (loopMap_args (first_track type vs));
    call_obj_push 9 ].

Definition first_map (w : option (option nat)) : map :=
  {| map_src := [1; 2; 0; 7; 3]%nat; map_dst := [8%nat];
     map_expr := Expr.bind loopMap_expr (loopMap_args (first_track MPR_FLT 1));
     map_wait := w |}.

(** The calls of the constructor after the push: [n] polls, then the two
    defaults. *)
Definition last_calls (n : nat) : list call :=
  (repeat (call_dev_poll 10) n ++
   [ call_sig_set_value 1 1 MPR_FLT (Some [1%Q]);
     call_sig_set_value 2 1 MPR_FLT (Some [16%Q]) ])%list.

(** A peer mutes the track; two calls of [update] follow, with a new input
    value arriving in between. *)
Definition muted_bus : Bus := write demo_bus (_sigMute demo_loop) (Some [1%Q]).

Definition muted_steps : list step :=
  [ call_update (dbl (1 # 5));
    bus_writes (_sigIn demo_loop) (Some [1 # 2]);
    call_update (dbl (2 # 5)) ].

Definition peers_loop : Loop :=
  match peers with
  | Some (this, _) => this
  | None => no_loop
  end.

Definition peers_bus : Bus :=
  match peers with
  | Some (_, g) => g
  | None => new_bus None
  end.

(** The memory of the program around that track: the track lives at
    address 100 and the caller keeps the name of the peer it asks for,
    ["knob"], in a buffer at address 200.  Later the caller may put another
    name into the buffer, or destroy the track. *)
Definition knob_memory : Store :=
  store_of [(200%nat, "knob")] [(100%nat, peers_loop)].

Definition reused_memory : Store :=
  store_of [(200%nat, "fader")] [(100%nat, peers_loop)].

Definition gone_memory : Store :=
  store_of [(200%nat, "knob")] [].

Definition duo_a : Loop :=
  match duo with
  | Some (a, _, _) => a
  | None => no_loop
  end.

Definition duo_b : Loop :=
  match duo with
  | Some (_, b, _) => b
  | None => no_loop
  end.

Definition duo_bus : Bus :=
  match duo with
  | Some (_, _, g) => g
  | None => new_bus None
  end.

(** Track ["a"] lives at address 100 and track ["b"] at address 300; the
    buffers at 200 and 201 hold the names ["knob"] and ["fader"].  Both
    tracks ask for ["knob"] as their input, and ["a"] asks for ["fader"] as
    its length. *)
Definition duo_memory : Store :=
  store_of [(200%nat, "knob"); (201%nat, "fader")]
           [(100%nat, duo_a); (300%nat, duo_b)].

Definition duo_requests : Bus :=
  mapInput 300 (mapLength 100 (mapInput 100 duo_bus 200) 201) 200.

(** The same track after an [update] at a fifth of a beat: at tick 3. *)
Definition demo_later : option (Loop * Bus * list string) :=
  update demo_loop (dbl (1 # 5)) demo_bus.

Definition later_loop : Loop :=
  match demo_later with
  | Some (this, _, _) => this
  | None => no_loop
  end.

Definition later_bus : Bus :=
  match demo_later with
  | Some (_, dev, _) => dev
  | None => new_bus None
  end.

(** What the device shows of an endpoint. *)
Definition described (s : signal)
  : string * mpr_dir * nat * mpr_type * option string * list Q * list Q :=
  (sig_name s, sig_dir s, sig_len s, sig_type s, sig_unit s, sig_min s, sig_max s).

(** The values of the control endpoints and of local/send seen by one
    evaluation of the relation of [this]. *)
Definition settings (this : Loop) (record length division modulation send : Q)
  : mpr_sig -> Q :=
  fun s =>
    if Nat.eqb s (_sigRecord this) then record
    else if Nat.eqb s (_sigLength this) then length
    else if Nat.eqb s (_sigDivision this) then division
    else if Nat.eqb s (_sigModulation this) then modulation
    else if Nat.eqb s (_sigLocalSend this) then send
    else 0%Q.

(** A beat position a little over a third: [0x1.5555555555555p-2]. *)
Definition third : Q := 6004799503160661 # 2 ^ 54.

(** Playback: record off, length one beat, sixteen pulses a beat, full
    modulation, silence in the loop, the random draw at the low end. *)
Definition playback : Expr.env mpr_sig :=
  {| Expr.sigval := settings demo_loop 0 1 16 1 0;
     Expr.past := fun _ => 0%Q;
     Expr.rnd := 0%Q |}.

(** Playback without modulation: record off, length one beat, sixteen
    pulses a beat, an empty history. *)
Definition still : Expr.env mpr_sig :=
  {| Expr.sigval := settings demo_loop 0 1 16 0 0;
     Expr.past := fun _ => 0%Q;
     Expr.rnd := 0%Q |}.

End Obs.

(** * Properties *)

Import Mapper MapLooper Obs.

Local Open Scope Z_scope.

(** ** Rounding to the nearest double *)







Lemma rne_spec x :
  (inject_Z (rne x) - (1 # 2) <= x <= inject_Z (rne x) + (1 # 2))%Q /\
  ((x == inject_Z (rne x) + (1 # 2))%Q \/ (x == inject_Z (rne x) - (1 # 2))%Q ->
   Z.even (rne x) = true).
Proof.
  unfold rne. pose proof (Qfloor_le x) as L. pose proof (Qlt_floor x) as U.
  rewrite inject_Z_plus in U. change (inject_Z 1) with 1%Q in U.
  destruct (x - inject_Z (Qfloor x) ?= 1 # 2)%Q eqn:C.
  - apply Qeq_alt in C.
    destruct (Z.even (Qfloor x)) eqn:E.
    + split; [lra|]. intros _. exact E.
    + rewrite inject_Z_plus. change (inject_Z 1) with 1%Q. split; [lra|]. intros _.
      rewrite Z.even_add, E. reflexivity.
  - apply Qlt_alt in C. split; [lra|]. intros [H|H]; lra.
  - apply Qgt_alt in C. rewrite inject_Z_plus. change (inject_Z 1) with 1%Q. split; [lra|]. intros [H|H]; lra.
Qed.

Lemma inject_Z_le_add1 a b : (inject_Z a <= inject_Z b + 1)%Q -> a <= b + 1.
Proof.
  change 1%Q with (inject_Z 1). rewrite <- inject_Z_plus, <- Zle_Qle. trivial.
Qed.

Lemma rne_unique x z :
  (inject_Z z - (1 # 2) <= x <= inject_Z z + (1 # 2))%Q ->
  ((x == inject_Z z + (1 # 2))%Q \/ (x == inject_Z z - (1 # 2))%Q ->
   Z.even z = true) ->
  rne x = z.
Proof.
  intros B T. destruct (rne_spec x) as [B' T'].
  assert (L1 : z <= rne x + 1) by (apply inject_Z_le_add1; lra).
  assert (L2 : rne x <= z + 1) by (apply inject_Z_le_add1; lra).
  destruct (Z.eq_dec (rne x) z) as [E|N]; [exact E|exfalso].
  assert (C : z = rne x + 1 \/ rne x = z + 1) by lia.
  destruct C as [C|C].
  - assert (E1 : Z.even z = true).
    { apply T. right. rewrite C, inject_Z_plus in *.
      change (inject_Z 1) with 1%Q in *. lra. }
    assert (E2 : Z.even (rne x) = true).
    { apply T'. left. rewrite C, inject_Z_plus in *.
      change (inject_Z 1) with 1%Q in *. lra. }
    rewrite C, Z.even_add, E2 in E1. discriminate.
  - assert (E1 : Z.even z = true).
    { apply T. left. rewrite C, inject_Z_plus in *.
      change (inject_Z 1) with 1%Q in *. lra. }
    assert (E2 : Z.even (rne x) = true).
    { apply T'. right. rewrite C, inject_Z_plus in *.
      change (inject_Z 1) with 1%Q in *. lra. }
    rewrite C, Z.even_add, E1 in E2. discriminate.
Qed.

Lemma rne_comp x y : (x == y)%Q -> rne x = rne y.
Proof.
  intros E. destruct (rne_spec y) as [B T].
  apply rne_unique.
  - lra.
  - intros H. apply T. destruct H; [left|right]; lra.
Qed.

Lemma rne_Z n : rne (inject_Z n) = n.
Proof.
  apply rne_unique.
  - lra.
  - intros [H|H]; lra.
Qed.

Lemma rne_opp x : rne (- x) = - rne x.
Proof.
  destruct (rne_spec x) as [B T].
  apply rne_unique.
  - rewrite inject_Z_opp. lra.
  - rewrite Z.even_opp, inject_Z_opp. intros H. apply T.
    destruct H; [right|left]; lra.
Qed.

Lemma rne_mono x y : (x <= y)%Q -> rne x <= rne y.
Proof.
  intros L. destruct (rne_spec x) as [Bx Tx]. destruct (rne_spec y) as [By Ty].
  destruct (Z_le_gt_dec (rne x) (rne y)) as [H|H]; [exact H|exfalso].
  assert (L1 : rne x <= rne y + 1) by (apply inject_Z_le_add1; lra).
  assert (C : rne x = rne y + 1) by lia.
  assert (E1 : Z.even (rne x) = true).
  { apply Tx. right. rewrite C, inject_Z_plus in *.
    change (inject_Z 1) with 1%Q in *. lra. }
  assert (E2 : Z.even (rne y) = true).
  { apply Ty. left. rewrite C, inject_Z_plus in *.
    change (inject_Z 1) with 1%Q in *. lra. }
  rewrite C, Z.even_add, E2 in E1. discriminate.
Qed.

Lemma pow2_pos k : 0 <= k -> (0 < pow2 k)%Q.
Proof.
  intros H. unfold pow2. change 0%Q with (inject_Z 0). rewrite <- Zlt_Qlt.
  now apply Z.pow_pos_nonneg.
Qed.

Lemma pow2_add a b : 0 <= a -> 0 <= b -> (pow2 (a + b) == pow2 a * pow2 b)%Q.
Proof.
  intros A B. unfold pow2. now rewrite Z.pow_add_r, inject_Z_mult.
Qed.

Lemma pow2_le a b : 0 <= a <= b -> (pow2 a <= pow2 b)%Q.
Proof.
  intros H. unfold pow2. rewrite <- Zle_Qle. apply Z.pow_le_mono_r; lia.
Qed.

Lemma ulp_nonneg x : 0 <= ulp_exp x.
Proof. unfold ulp_exp. lia. Qed.

Lemma floor_abs_nonneg x : 0 <= Qfloor (Qabs x).
Proof.
  change 0 with (Qfloor 0). apply Qfloor_resp_le, Qabs_nonneg.
Qed.

Lemma ulp_comp x y : (Qabs x == Qabs y)%Q -> ulp_exp x = ulp_exp y.
Proof. intros E. unfold ulp_exp. now rewrite (Qfloor_comp _ _ E). Qed.

Lemma ulp_mono x y : (Qabs x <= Qabs y)%Q -> ulp_exp x <= ulp_exp y.
Proof.
  intros L. unfold ulp_exp.
  apply Qfloor_resp_le, Z.log2_le_mono in L. lia.
Qed.

Lemma ulp_upper x : (Qabs x < pow2 (ulp_exp x + 53))%Q.
Proof.
  pose proof (floor_abs_nonneg x) as N.
  apply Qlt_le_trans with (inject_Z (Qfloor (Qabs x) + 1)); [apply Qlt_floor|].
  unfold pow2. rewrite <- Zle_Qle.
  unfold ulp_exp.
  destruct (Z.eq_dec (Qfloor (Qabs x)) 0) as [E|D].
  - rewrite E. cbn [Z.log2 Z.add].
    assert (0 < 2 ^ (Z.max 0 (0 - 52) + 53)) by (apply Z.pow_pos_nonneg; lia).
    lia.
  - destruct (Z.log2_spec (Qfloor (Qabs x))) as [_ U]; [lia|].
    assert (2 ^ Z.succ (Z.log2 (Qfloor (Qabs x))) <=
            2 ^ (Z.max 0 (Z.log2 (Qfloor (Qabs x)) - 52) + 53))
      by (apply Z.pow_le_mono_r; lia).
    lia.
Qed.

Lemma ulp_lower x : 0 < ulp_exp x -> (pow2 (ulp_exp x + 52) <= Qabs x)%Q.
Proof.
  intros P.
  apply Qle_trans with (inject_Z (Qfloor (Qabs x))); [|apply Qfloor_le].
  unfold pow2. rewrite <- Zle_Qle. unfold ulp_exp in *.
  assert (E : Z.max 0 (Z.log2 (Qfloor (Qabs x)) - 52) + 52 = Z.log2 (Qfloor (Qabs x)))
    by lia.
  rewrite E.
  assert (0 < Qfloor (Qabs x)).
  { destruct (Z_lt_le_dec 0 (Qfloor (Qabs x))) as [H|H]; [exact H|].
    rewrite (Z.log2_nonpos _ H) in P. lia. }
  now apply Z.log2_spec.
Qed.

Lemma rnd_comp x y : (x == y)%Q -> rnd x = rnd y.
Proof.
  intros E. unfold rnd.
  rewrite (ulp_comp x y) by now rewrite E.
  f_equal. apply rne_comp. now rewrite E.
Qed.

Lemma rnd_opp x : rnd (- x) = - rnd x.
Proof.
  unfold rnd. rewrite (ulp_comp (- x) x) by apply Qabs_opp.
  rewrite <- Z.mul_opp_l, <- rne_opp. f_equal. apply rne_comp.
  unfold Qdiv. ring.
Qed.

Lemma rnd_upper x : (0 <= x)%Q -> rnd x <= 2 ^ (ulp_exp x + 53).
Proof.
  intros P. pose proof (ulp_nonneg x) as K. pose proof (ulp_upper x) as U.
  rewrite (Qabs_pos x P), Z.add_comm, pow2_add in U by lia.
  unfold rnd. rewrite Z.add_comm, Z.pow_add_r by lia.
  apply Z.mul_le_mono_nonneg_r; [apply Z.pow_nonneg; lia|].
  rewrite <- (rne_Z (2 ^ 53)). apply rne_mono.
  apply Qle_shift_div_r; [now apply pow2_pos|].
  apply Qlt_le_weak. exact U.
Qed.

Lemma rnd_lower x :
  (0 <= x)%Q -> 0 < ulp_exp x -> 2 ^ (ulp_exp x + 52) <= rnd x.
Proof.
  intros P K. pose proof (ulp_lower x K) as L.
  rewrite (Qabs_pos x P), Z.add_comm, pow2_add in L by lia.
  unfold rnd. rewrite Z.add_comm, Z.pow_add_r by lia.
  apply Z.mul_le_mono_nonneg_r; [apply Z.pow_nonneg; lia|].
  rewrite <- (rne_Z (2 ^ 52)). apply rne_mono.
  apply Qle_shift_div_l; [apply pow2_pos; lia|exact L].
Qed.

Lemma rnd_nonneg x : (0 <= x)%Q -> 0 <= rnd x.
Proof.
  intros P. pose proof (ulp_nonneg x) as K. unfold rnd.
  apply Z.mul_nonneg_nonneg; [|apply Z.pow_nonneg; lia].
  rewrite <- (rne_Z 0). apply rne_mono.
  apply Qle_shift_div_l; [now apply pow2_pos|].
  change (inject_Z 0) with 0%Q. lra.
Qed.

Lemma rnd_mono_nonneg x y : (0 <= x)%Q -> (x <= y)%Q -> rnd x <= rnd y.
Proof.
  intros P L.
  assert (Py : (0 <= y)%Q) by lra.
  assert (M : ulp_exp x <= ulp_exp y).
  { apply ulp_mono. now rewrite !Qabs_pos. }
  pose proof (ulp_nonneg x) as K.
  destruct (Z.eq_dec (ulp_exp x) (ulp_exp y)) as [E|D].
  - unfold rnd. rewrite E.
    apply Z.mul_le_mono_nonneg_r; [apply Z.pow_nonneg; lia|].
    apply rne_mono.
    apply Qmult_le_compat_r; [exact L|].
    apply Qlt_le_weak, Qinv_lt_0_compat, pow2_pos. lia.
  - apply Z.le_trans with (2 ^ (ulp_exp x + 53)); [now apply rnd_upper|].
    apply Z.le_trans with (2 ^ (ulp_exp y + 52)); [|apply rnd_lower; [exact Py|lia]].
    apply Z.pow_le_mono_r; lia.
Qed.

Lemma rnd_mono x y : (x <= y)%Q -> rnd x <= rnd y.
Proof.
  intros L.
  destruct (Qlt_le_dec x 0) as [Nx|Px].
  - destruct (Qlt_le_dec y 0) as [Ny|Py].
    + assert (H : rnd (- y) <= rnd (- x)) by (apply rnd_mono_nonneg; lra).
      rewrite !rnd_opp in H. lia.
    + assert (H : 0 <= rnd (- x)) by (apply rnd_nonneg; lra).
      rewrite rnd_opp in H.
      pose proof (rnd_nonneg y Py). lia.
  - now apply rnd_mono_nonneg.
Qed.

(** A multiple of the spacing is left as it is. *)
Lemma rnd_exact n : (2 ^ ulp_exp (inject_Z n) | n) -> rnd (inject_Z n) = n.
Proof.
  intros [m E]. unfold rnd.
  pose proof (ulp_nonneg (inject_Z n)) as K.
  rewrite (rne_comp _ (inject_Z m)); [now rewrite rne_Z|].
  rewrite E at 1. rewrite inject_Z_mult. unfold pow2.
  field. change 0%Q with (inject_Z 0). rewrite inject_Z_injective.
  apply Z.pow_nonzero; lia.
Qed.




Lemma round_double_units q : round_double q = rnd (units q) # denorm_min.
Proof. reflexivity. Qed.

Lemma Qmake_le a b d : a <= b -> (a # d <= b # d)%Q.
Proof. intros H. unfold Qle. cbn. now apply Z.mul_le_mono_nonneg_r. Qed.

Lemma Qmake_units n d q :
  (n # d == q)%Q <-> (inject_Z n == q * inject_Z (Zpos d))%Q.
Proof.
  rewrite (Qmake_Qdiv n d).
  assert (P : ~ (inject_Z (Zpos d) == 0)%Q).
  { change 0%Q with (inject_Z 0). rewrite inject_Z_injective. discriminate. }
  split; intros H.
  - rewrite <- H. field. exact P.
  - rewrite H. field. exact P.
Qed.

Lemma units_mono p q : (p <= q)%Q -> (units p <= units q)%Q.
Proof.
  intros H. unfold units. apply Qmult_le_compat_r; [exact H|].
  change 0%Q with (inject_Z 0). now rewrite <- Zle_Qle.
Qed.

Lemma round_double_mono p q : (p <= q)%Q -> (round_double p <= round_double q)%Q.
Proof. intros H. apply Qmake_le, rnd_mono, units_mono, H. Qed.

Lemma round_double_comp p q : (p == q)%Q -> round_double p = round_double q.
Proof.
  intros H. unfold round_double. f_equal. apply rnd_comp. unfold units.
  now rewrite H.
Qed.

Lemma round_double_opp q : (round_double (- q) == - round_double q)%Q.
Proof.
  unfold round_double, units.
  rewrite (rnd_comp _ (- (q * inject_Z (Zpos denorm_min)))) by ring.
  rewrite rnd_opp. reflexivity.
Qed.

Lemma ulp_Z n : ulp_exp (inject_Z n) = Z.max 0 (Z.log2 (Z.abs n) - 52).
Proof. unfold ulp_exp. change (Qabs (inject_Z n)) with (inject_Z (Z.abs n)). now rewrite Qfloor_Z. Qed.

Lemma pow2_divide a b : 0 <= a <= b -> (2 ^ a | 2 ^ b).
Proof.
  intros H. exists (2 ^ (b - a)). rewrite <- Z.pow_add_r by lia. f_equal. lia.
Qed.

(** Doubling keeps a double a double: the spacing grows no faster than the
    value. *)
Lemma rnd_scale n j :
  rnd (inject_Z n) = n -> 0 <= j -> rnd (inject_Z (n * 2 ^ j)) = n * 2 ^ j.
Proof.
  intros F J. apply rnd_exact.
  destruct (Z.eq_dec n 0) as [->|N]; [rewrite Z.mul_0_l; apply Z.divide_0_r|].
  assert (D : (2 ^ ulp_exp (inject_Z n) | n)).
  { rewrite <- F at 2. unfold rnd. apply Z.divide_factor_r. }
  rewrite ulp_Z in *.
  rewrite Z.abs_mul, (Z.abs_eq (2 ^ j)) by (apply Z.pow_nonneg; lia).
  rewrite Z.log2_mul_pow2 by lia.
  apply Z.divide_trans with (2 ^ (Z.max 0 (Z.log2 (Z.abs n) - 52) + j)).
  - apply pow2_divide. lia.
  - rewrite Z.pow_add_r by lia. now apply Z.mul_divide_mono_r.
Qed.

Lemma rnd_idem_nonneg x : (0 <= x)%Q -> rnd (inject_Z (rnd x)) = rnd x.
Proof.
  intros P. apply rnd_exact.
  pose proof (rnd_upper x P) as U. pose proof (rnd_nonneg x P) as N.
  pose proof (ulp_nonneg x) as K.
  rewrite ulp_Z, Z.abs_eq by exact N.
  destruct (Z.eq_dec (rnd x) (2 ^ (ulp_exp x + 53))) as [E|D].
  - rewrite E. rewrite Z.log2_pow2 by lia. apply pow2_divide. lia.
  - apply Z.divide_trans with (2 ^ ulp_exp x); [|unfold rnd; apply Z.divide_factor_r].
    apply pow2_divide. split; [lia|].
    destruct (Z.eq_dec (rnd x) 0) as [Z0|NZ]; [rewrite Z0; cbn; lia|].
    assert (L : Z.log2 (rnd x) < ulp_exp x + 53)
      by (apply Z.log2_lt_pow2; lia).
    lia.
Qed.

Lemma rnd_idem x : rnd (inject_Z (rnd x)) = rnd x.
Proof.
  destruct (Qlt_le_dec x 0) as [N|P]; [|now apply rnd_idem_nonneg].
  assert (H : rnd (inject_Z (rnd (- x))) = rnd (- x))
    by (apply rnd_idem_nonneg; lra).
  rewrite rnd_opp, inject_Z_opp, rnd_opp in H. lia.
Qed.

Lemma round_double_idem q : (round_double (round_double q) == round_double q)%Q.
Proof.
  rewrite (round_double_units (round_double q)).
  apply Qmake_units.
  rewrite (rnd_comp _ (inject_Z (rnd (units q)))).
  - rewrite rnd_idem. apply (proj1 (Qmake_units _ denorm_min _)). reflexivity.
  - unfold units at 1. symmetry.
    apply (proj1 (Qmake_units _ denorm_min _)). reflexivity.
Qed.

(** Multiplying a double by a power of two is exact. *)
Lemma round_double_scale b j :
  (round_double b == b)%Q -> 0 <= j ->
  (round_double (b * pow2 j) == b * pow2 j)%Q.
Proof.
  intros F J. rewrite round_double_units in *. apply Qmake_units in F.
  apply Qmake_units.
  assert (E : (units (b * pow2 j) == inject_Z (rnd (units b) * 2 ^ j))%Q).
  { rewrite inject_Z_mult, F. unfold units, pow2. ring. }
  rewrite (rnd_comp _ _ E), rnd_scale.
  - rewrite <- E. reflexivity.
  - apply rnd_idem.
  - exact J.
Qed.

(** ** Next to 1 *)

Lemma rnd_half_u : rnd (inject_Z half_u) = one_u.
Proof. vm_compute. reflexivity. Qed.

Lemma rnd_prev_u : rnd (inject_Z prev_u) = prev_u.
Proof. vm_compute. reflexivity. Qed.

Lemma rnd_between x :
  (inject_Z prev_u <= x)%Q -> (x < inject_Z half_u)%Q -> rnd x = prev_u.
Proof.
  intros L U.
  assert (P : (0 <= x)%Q).
  { apply Qle_trans with (inject_Z prev_u); [|exact L]. vm_compute. discriminate. }
  assert (K : ulp_exp x = 1021).
  { unfold ulp_exp. rewrite (Qfloor_comp _ _ (Qabs_pos x P)).
    assert (F1 : prev_u <= Qfloor x).
    { rewrite <- (Qfloor_Z prev_u). now apply Qfloor_resp_le. }
    assert (F2 : Qfloor x < half_u).
    { rewrite Zlt_Qlt. apply Qle_lt_trans with x; [apply Qfloor_le|exact U]. }
    rewrite (Z.log2_unique (Qfloor x) 1073); [reflexivity|lia|].
    split.
    - apply Z.le_trans with prev_u; [|exact F1]. vm_compute. discriminate.
    - apply Z.lt_trans with half_u; [exact F2|]. vm_compute. reflexivity. }
  unfold rnd. rewrite K.
  rewrite (rne_unique _ (2 ^ 53 - 1)); [vm_compute; reflexivity| |].
  - assert (A : (inject_Z (2 ^ 53 - 1) <= x / pow2 1021)%Q).
    { apply Qle_shift_div_l; [apply pow2_pos; lia|].
      apply Qle_trans with (inject_Z prev_u); [|exact L].
      vm_compute. discriminate. }
    assert (B : (x / pow2 1021 < inject_Z (2 ^ 53 - 1) + (1 # 2))%Q).
    { apply Qlt_shift_div_r; [apply pow2_pos; lia|].
      apply Qlt_le_trans with (inject_Z half_u); [exact U|].
      vm_compute. discriminate. }
    lra.
  - assert (A : (inject_Z (2 ^ 53 - 1) <= x / pow2 1021)%Q).
    { apply Qle_shift_div_l; [apply pow2_pos; lia|].
      apply Qle_trans with (inject_Z prev_u); [|exact L].
      vm_compute. discriminate. }
    assert (B : (x / pow2 1021 < inject_Z (2 ^ 53 - 1) + (1 # 2))%Q).
    { apply Qlt_shift_div_r; [apply pow2_pos; lia|].
      apply Qlt_le_trans with (inject_Z half_u); [exact U|].
      vm_compute. discriminate. }
    intros [H|H]; [lra|].
    exfalso.
    (* x / 2^1021 = 2^53 - 3/2 is below prev *)
    lra.
Qed.

Lemma rnd_lt_one x : rnd x < one_u <-> (x < inject_Z half_u)%Q.
Proof.
  split.
  - intros H. destruct (Qlt_le_dec x (inject_Z half_u)) as [L|G]; [exact L|].
    apply rnd_mono in G. rewrite rnd_half_u in G. lia.
  - intros H. destruct (Qlt_le_dec x (inject_Z prev_u)) as [L|G].
    + apply Qlt_le_weak, rnd_mono in L. rewrite rnd_prev_u in L.
      apply Z.le_lt_trans with prev_u; [exact L|]. vm_compute. reflexivity.
    + rewrite (rnd_between x G H). vm_compute. reflexivity.
Qed.

(** ** The bus: what each call leaves alone *)
Section BusFrames.

Variable dev : Bus.

Lemma sig_new_maps dir name len type unit min max h dev' :
  mpr_sig_new dev dir name len type unit min max = Some (h, dev') ->
  maps dev' = maps dev.
Proof.
  unfold mpr_sig_new. destruct (Nat.eqb len 0); [discriminate|].
  destruct (mpr_dev_get_sig_by_name _ _); intros H; inversion H; reflexivity.
Qed.

Lemma set_value_maps sig len type val :
  maps (mpr_sig_set_value dev sig len type val) = maps dev.
Proof.
  unfold mpr_sig_set_value. cbn.
  destruct (assoc sig (signals dev)); [|reflexivity].
  destruct val; [|reflexivity].
  destruct (Nat.eqb len 0); [reflexivity|].
  destruct (Nat.eqb len _); reflexivity.
Qed.

End BusFrames.

Lemma assoc_last {A} (k : nat) (a : A) l :
  assoc k l = None -> assoc k (l ++ [(k, a)]) = Some a.
Proof.
  induction l as [|[k' b] l IH]; simpl.
  - now rewrite Nat.eqb_refl.
  - destruct (Nat.eqb k k'); [discriminate|exact IH].
Qed.

Lemma assoc_update {A} (k k' : nat) (f : A -> A) l :
  assoc k (update_assoc k' f l) =
  if Nat.eqb k k' then option_map f (assoc k l) else assoc k l.
Proof.
  induction l as [|[j b] l IH]; simpl.
  - now destruct (Nat.eqb k k').
  - destruct (Nat.eqb k' j) eqn:E1; simpl.
    + apply Nat.eqb_eq in E1; subst j.
      destruct (Nat.eqb k k') eqn:E2; [reflexivity|reflexivity].
    + destruct (Nat.eqb k j) eqn:E2.
      * apply Nat.eqb_eq in E2; subst j.
        rewrite Nat.eqb_sym, E1. reflexivity.
      * exact IH.
Qed.

Lemma assoc_map {A} (k : nat) (f : A -> A) (l : list (nat * A)) :
  assoc k (List.map (fun e => (fst e, f (snd e))) l) = option_map f (assoc k l).
Proof.
  induction l as [|[j b] l IH]; simpl; [reflexivity|].
  destruct (Nat.eqb k j); [reflexivity|exact IH].
Qed.

Lemma relation_set_value this dev sig len type val :
  installed_relation this (mpr_sig_set_value dev sig len type val) =
  installed_relation this dev.
Proof. unfold installed_relation. now rewrite set_value_maps. Qed.

Lemma relation_poll this dev ms :
  installed_relation this (mpr_dev_poll dev ms) = installed_relation this dev.
Proof.
  unfold installed_relation, mpr_dev_poll. cbn.
  rewrite (assoc_map _ poll_map).
  destruct (assoc _ _) as [r|]; [|reflexivity]. cbn.
  unfold poll_map. destruct (map_wait r) as [[[|k]|]|]; reflexivity.
Qed.

Lemma relation_wait_ready this fuel : forall dev dev',
  wait_ready fuel dev (_loopMap this) = Some dev' ->
  installed_relation this dev' = installed_relation this dev.
Proof.
  induction fuel as [|fuel IH]; intros dev dev'; simpl; [discriminate|].
  destruct (mpr_map_get_is_ready _ _).
  - now intros [= ->].
  - intros H. apply IH in H. now rewrite H, relation_poll.
Qed.

Ltac some_or_none H :=
  match type of H with
  | obind ?c _ = Some _ =>
      let e := fresh "E" in
      destruct c as [[? ?]|] eqn:e; [cbn [obind] in H|discriminate H]
  end.

Lemma bind_loopMap (a b c d e f g : mpr_sig) :
  Expr.bind loopMap_expr [a; b; c; d; e; f; g] =
  Some [ Expr.Let "del" (Expr.Mul (Expr.Src true a) (Expr.Src true b));
         Expr.Out c
           (Expr.Add
              (Expr.Add
                 (Expr.Mul (Expr.Src true d) (Expr.Src false e))
                 (Expr.Mul (Expr.Sub (Expr.Num 1) (Expr.Src true f))
                    (Expr.Hist (Expr.Neg (Expr.Var "del")) (Expr.Num 100))))
              (Expr.Mul (Expr.Src true g)
                 (Expr.Sub (Expr.Call "uniform" (Expr.Num 2)) (Expr.Num 1)))) ].
Proof. reflexivity. Qed.

Lemma relation_push this dev m :
  installed_relation this (mpr_obj_push dev m) = installed_relation this dev.
Proof.
  unfold installed_relation, mpr_obj_push. cbn.
  rewrite assoc_update.
  destruct (Nat.eqb _ m); [|reflexivity].
  now destruct (assoc _ _).
Qed.

Lemma declare_relation mem name h type vs this dev :
  Loop_declare mem name (new_bus h) type vs = Some (this, dev) ->
  installed_relation this dev = Expr.bind loopMap_expr (loopMap_args this).
Proof.
  unfold Loop_declare. intros H.
  repeat some_or_none H.
  repeat match goal with
  | E : mpr_sig_new _ _ _ _ _ _ _ _ = Some _ |- _ =>
      apply sig_new_maps in E; rewrite ?set_value_maps in E
  end.
  injection H as <- <-. rewrite relation_push.
  unfold mpr_map_new_from_str in E8. rewrite bind_loopMap in E8.
  cbn [obind] in E8. injection E8 as <- <-.
  unfold installed_relation, loopMap_args. cbn.
  rewrite set_value_maps, E7, E6, E5, E4, E3, E2, E1, E0, E. cbn.
  rewrite Nat.eqb_refl. cbn. now rewrite bind_loopMap.
Qed.

Lemma new_relation mem fuel name h type vs this dev :
  Loop_new mem fuel name (new_bus h) type vs = Some (this, dev) ->
  installed_relation this dev = Expr.bind loopMap_expr (loopMap_args this).
Proof.
  unfold Loop_new. intros H. some_or_none H.
  unfold Loop_finish in H.
  destruct (wait_ready _ _ _) as [d|] eqn:W; [cbn [obind] in H|discriminate].
  injection H as <- <-.
  rewrite !relation_set_value, (relation_wait_ready _ _ _ _ W).
  eapply declare_relation; eassumption.
Qed.

Lemma Qtrunc_opp_opp (q : Q) : Qtrunc (- - q) = Qtrunc q.
Proof. destruct q as [n d]. unfold Qtrunc. cbn. now rewrite Z.opp_involutive. Qed.

Lemma lookback_neg (q : Q) :
  Expr.lookback (- q) 100 = Z.to_nat (Z.min (Qtrunc q) 100).
Proof. unfold Expr.lookback. now rewrite Qtrunc_opp_opp. Qed.

Lemma lookback_le (off cap : Q) : (Expr.lookback off cap <= Z.to_nat (Qtrunc cap))%nat.
Proof. unfold Expr.lookback. lia. Qed.

Lemma demo_built : demo = Some (demo_loop, demo_bus).
Proof. vm_compute. reflexivity. Qed.

(** C1, as amended: in the relation the constructor installs the delay is
    [length * division]: at every evaluation the variable [del] holds the
    product of the length and the division endpoint, and the one history
    read of the evaluation looks that many samples back, clamped to the 100
    samples of the history. *)
Theorem delay_is_length_times_division mem fuel name h type vs this dev :
  Loop_new mem fuel name (new_bus h) type vs = Some (this, dev) ->
  exists p,
    installed_relation this dev = Some p /\
    forall E : Expr.env mpr_sig,
      let length := Expr.sigval E (_sigLength this) in
      let division := Expr.sigval E (_sigDivision this) in
      exists r,
        Expr.eval E p = Some r /\
        Expr.lookup "del" (Expr.r_vars r) = Some (length * division)%Q /\
        Expr.r_reads r = [Z.to_nat (Z.min (Qtrunc (length * division)) 100)] /\
        Forall (fun k => (k <= 100)%nat) (Expr.r_reads r).
Proof.
  intros H. apply new_relation in H.
  unfold loopMap_args in H. rewrite bind_loopMap in H.
  eexists. split; [exact H|]. intros E length division.
  eexists. split; [reflexivity|]. cbn.
  fold length division. rewrite lookback_neg.
  repeat split.
  constructor; [|constructor].
  change 100%nat with (Z.to_nat 100). lia.
Qed.

Lemma delay_is_length_times_division_witness :
  exists p,
    installed_relation demo_loop demo_bus = Some p /\
    forall E : Expr.env mpr_sig,
      let length := Expr.sigval E (_sigLength demo_loop) in
      let division := Expr.sigval E (_sigDivision demo_loop) in
      exists r,
        Expr.eval E p = Some r /\
        Expr.lookup "del" (Expr.r_vars r) = Some (length * division)%Q /\
        Expr.r_reads r = [Z.to_nat (Z.min (Qtrunc (length * division)) 100)] /\
        Forall (fun k => (k <= 100)%nat) (Expr.r_reads r).
Proof.
  apply (delay_is_length_times_division quiet 3 "loop" (Some 2%nat) MPR_FLT 1
           demo_loop demo_bus).
  vm_compute. reflexivity.
Defined.

(** C1 as stated fails: with record off, a length of one beat and a
    division of sixteen the relation looks sixteen samples back, while
    [record * division] is zero. *)
Lemma delay_is_not_record_times_division :
  exists p r d,
    installed_relation demo_loop demo_bus = Some p /\
    Expr.eval playback p = Some r /\
    Expr.lookup "del" (Expr.r_vars r) = Some d /\
    let record := Expr.sigval playback (_sigRecord demo_loop) in
    let division := Expr.sigval playback (_sigDivision demo_loop) in
    ~ (d == record * division)%Q /\
    Expr.r_reads r <> [Z.to_nat (Z.min (Qtrunc (record * division)) 100)].
Proof.
  do 3 eexists. split; [vm_compute; reflexivity|].
  split; [vm_compute; reflexivity|].
  split; [vm_compute; reflexivity|].
  split; vm_compute; discriminate.
Qed.

(** C2, as amended: the noise term of the feedback relation is scaled by
    the modulation amount only.  Every evaluation sends to local/recv
    [record * send + (1 - record) * history + modulation * (uniform(2.0) - 1)];
    with record at zero the output is the history plus the full noise
    term. *)
Theorem noise_is_scaled_by_modulation mem fuel name h type vs this dev :
  Loop_new mem fuel name (new_bus h) type vs = Some (this, dev) ->
  exists p,
    installed_relation this dev = Some p /\
    forall E : Expr.env mpr_sig,
      let record := Expr.sigval E (_sigRecord this) in
      let modulation := Expr.sigval E (_sigModulation this) in
      let send := Expr.sigval E (_sigLocalSend this) in
      let noise := (Expr.uniform 2 (Expr.rnd E) - 1)%Q in
      exists r k y,
        Expr.eval E p = Some r /\
        Expr.r_reads r = [k] /\
        Expr.r_out r = [(_sigLocalReceive this, y)] /\
        y = (record * send + (1 - record) * Expr.past E k + modulation * noise)%Q /\
        ((record == 0)%Q -> (y == Expr.past E k + modulation * noise)%Q).
Proof.
  intros H. apply new_relation in H.
  unfold loopMap_args in H. rewrite bind_loopMap in H.
  eexists. split; [exact H|]. intros E record modulation send noise.
  do 3 eexists. split; [reflexivity|]. cbn.
  fold record modulation send.
  split; [reflexivity|]. split; [reflexivity|]. split; [reflexivity|].
  intros R. unfold noise. rewrite R. ring.
Qed.

Lemma noise_is_scaled_by_modulation_witness :
  exists p,
    installed_relation demo_loop demo_bus = Some p /\
    forall E : Expr.env mpr_sig,
      let record := Expr.sigval E (_sigRecord demo_loop) in
      let modulation := Expr.sigval E (_sigModulation demo_loop) in
      let send := Expr.sigval E (_sigLocalSend demo_loop) in
      let noise := (Expr.uniform 2 (Expr.rnd E) - 1)%Q in
      exists r k y,
        Expr.eval E p = Some r /\
        Expr.r_reads r = [k] /\
        Expr.r_out r = [(_sigLocalReceive demo_loop, y)] /\
        y = (record * send + (1 - record) * Expr.past E k + modulation * noise)%Q /\
        ((record == 0)%Q -> (y == Expr.past E k + modulation * noise)%Q).
Proof.
  apply (noise_is_scaled_by_modulation quiet 3 "loop" (Some 2%nat) MPR_FLT 1
           demo_loop demo_bus).
  vm_compute. reflexivity.
Defined.

(** C2 as stated fails: with record at zero and full modulation the
    relation still adds noise; the value it sends is [-1] where
    [record * send + (1 - record) * history + record * noise * modulation]
    is zero. *)
Lemma noise_is_not_gated_by_record :
  exists p r k y,
    installed_relation demo_loop demo_bus = Some p /\
    Expr.eval playback p = Some r /\
    Expr.r_reads r = [k] /\
    Expr.r_out r = [(_sigLocalReceive demo_loop, y)] /\
    let record := Expr.sigval playback (_sigRecord demo_loop) in
    let modulation := Expr.sigval playback (_sigModulation demo_loop) in
    let send := Expr.sigval playback (_sigLocalSend demo_loop) in
    let noise := (Expr.uniform 2 (Expr.rnd playback) - 1)%Q in
    (record == 0)%Q /\
    ~ (y == record * send + (1 - record) * Expr.past playback k
            + record * noise * modulation)%Q /\
    ~ (y == Expr.past playback k)%Q.
Proof.
  do 4 eexists. split; [vm_compute; reflexivity|].
  split; [vm_compute; reflexivity|].
  split; [vm_compute; reflexivity|].
  split; [vm_compute; reflexivity|].
  split; [vm_compute; reflexivity|].
  split; vm_compute; discriminate.
Qed.

Lemma substring_all (s : string) : forall n,
  (String.length s <= n)%nat -> substring 0 n s = s.
Proof.
  induction s as [|c s IH]; intros [|n] L; cbn in *; try reflexivity; [lia|].
  f_equal. apply IH. lia.
Qed.

Lemma length_append (a b : string) :
  String.length (a ++ b) = (String.length a + String.length b)%nat.
Proof. induction a as [|c a IH]; cbn; [reflexivity|now rewrite IH]. Qed.

Lemma eqb_append (p a b : string) :
  String.eqb (p ++ a) (p ++ b) = String.eqb a b.
Proof.
  induction p as [|c p IH]; cbn; [reflexivity|].
  now rewrite Ascii.eqb_refl.
Qed.

Lemma snprintf_fits name sfx :
  name_fits name -> (String.length sfx <= 18)%nat ->
  snprintf 128 name sfx = (name ++ "/" ++ sfx)%string.
Proof.
  intros F L. unfold snprintf. apply substring_all.
  rewrite !length_append. unfold name_fits in F. cbn. lia.
Qed.

Lemma snprintf_eqb name a b :
  name_fits name -> (String.length a <= 18)%nat -> (String.length b <= 18)%nat ->
  String.eqb (snprintf 128 name a) (snprintf 128 name b) = String.eqb a b.
Proof.
  intros F La Lb. rewrite !snprintf_fits by assumption.
  now rewrite !eqb_append.
Qed.

Lemma length_cells mem x q t n : List.length (cells mem x q t n) = n.
Proof. unfold cells. now rewrite length_map, length_seq. Qed.

Lemma firstn_cells mem x q t n : firstn n (cells mem x q t n) = cells mem x q t n.
Proof. apply firstn_all2. now rewrite length_cells. Qed.

Lemma snprintf_neq name a b :
  name_fits name -> (String.length a <= 18)%nat -> (String.length b <= 18)%nat ->
  String.eqb a b = false ->
  String.eqb (snprintf 128 name a) (snprintf 128 name b) = false.
Proof. intros F La Lb N. now rewrite snprintf_eqb. Qed.

Lemma sig_new_step n sigs ms (cbs : list callback) h lg dir name len type unit min max :
  len <> 0%nat ->
  mpr_dev_get_sig_by_name_in sigs name = None ->
  mpr_sig_new (Build_Bus n sigs ms cbs h lg) dir name len type unit min max =
  Some (n, Build_Bus (S n)
             (sigs ++ [(n, {| sig_name := name; sig_local := true; sig_dir := dir;
                              sig_len := len; sig_type := type; sig_unit := unit;
                              sig_min := min; sig_max := max; sig_value := None |})])
             ms cbs h (lg ++ [call_sig_new name])).
Proof.
  intros L N. unfold mpr_sig_new, mpr_dev_get_sig_by_name. cbn.
  apply Nat.eqb_neq in L. rewrite L, N. reflexivity.
Qed.

Lemma set_value_step n sigs ms (cbs : list callback) h lg sig len type buf s :
  assoc sig sigs = Some s -> len <> 0%nat -> sig_len s = len ->
  List.length buf = len ->
  mpr_sig_set_value (Build_Bus n sigs ms cbs h lg) sig len type (Some buf) =
  Build_Bus n (update_assoc sig (with_value (Some buf)) sigs) ms cbs h
    (lg ++ [call_sig_set_value sig len type (Some buf)]).
Proof.
  intros A L W B. unfold mpr_sig_set_value. cbn. rewrite A.
  apply Nat.eqb_neq in L. rewrite L, W, Nat.eqb_refl.
  rewrite firstn_all2 by lia. reflexivity.
Qed.

Ltac new_endpoint F :=
  rewrite sig_new_step;
  [ cbn [obind app]
  | discriminate
  | cbn [mpr_dev_get_sig_by_name_in sig_local sig_name andb];
    rewrite ?(snprintf_neq _ _ _ F) by first [reflexivity | (cbn; lia)];
    reflexivity ].

Ltac set_endpoint :=
  erewrite set_value_step;
  [ cbn [update_assoc Nat.eqb]; unfold with_value;
    cbn [sig_name sig_local sig_dir sig_len sig_type sig_unit sig_min sig_max
         sig_value]
  | cbn [assoc Nat.eqb]; reflexivity
  | discriminate
  | reflexivity
  | first [reflexivity | apply length_cells] ].

Lemma declare_fresh mem name h type vs :
  name_fits name -> (1 <= vs)%nat ->
  Loop_declare mem name (new_bus h) type vs = Some
    (first_track type vs,
     {| next_id := 10; signals := first_signals mem name type vs None None;
        maps := [(9%nat, first_map (Some h))]; callbacks := [];
        handshake := h; log := first_calls mem name type vs |}).
Proof.
  intros F V. destruct vs as [|v]; [lia|].
  unfold Loop_declare, new_bus.
  new_endpoint F. set_endpoint.
  new_endpoint F. new_endpoint F. new_endpoint F. set_endpoint.
  new_endpoint F. set_endpoint.
  new_endpoint F. set_endpoint.
  new_endpoint F. set_endpoint.
  new_endpoint F. set_endpoint.
  new_endpoint F. set_endpoint.
  unfold mpr_map_new_from_str. rewrite bind_loopMap. cbn [obind].
  reflexivity.
Qed.

(** ** Waiting for the loop map *)

Lemma polled_signals k : forall dev : Bus, signals (polled k dev) = signals dev.
Proof. induction k as [|k IH]; intros dev; cbn; [reflexivity|now rewrite IH]. Qed.

Lemma polled_log k : forall dev : Bus,
  log (polled k dev) = (log dev ++ repeat (call_dev_poll 10) k)%list.
Proof.
  induction k as [|k IH]; intros dev; cbn.
  - now rewrite app_nil_r.
  - rewrite IH. cbn. now rewrite <- app_assoc.
Qed.

Lemma polled_value k (dev : Bus) sig :
  mpr_sig_get_value (polled k dev) sig = mpr_sig_get_value dev sig.
Proof. unfold mpr_sig_get_value. now rewrite polled_signals. Qed.

Lemma polled_one k n sigs m r (cbs : list callback) h lg : forall w,
  polled k (Build_Bus n sigs [(m, with_wait (Some (Some w)) r)] cbs h lg) =
  Build_Bus n sigs [(m, with_wait (Some (Some (w - k)%nat)) r)] cbs h
    (lg ++ repeat (call_dev_poll 10) k).
Proof.
  revert lg. induction k as [|k IH]; intros lg w.
  - cbn. now rewrite Nat.sub_0_r, app_nil_r.
  - cbn [polled]. unfold mpr_dev_poll, logged, set_maps. cbn.
    destruct w as [|w]; unfold poll_map; cbn.
    + rewrite (IH _ 0%nat). cbn. now rewrite <- app_assoc.
    + unfold with_wait at 1. cbn.
      rewrite (IH _ w). now rewrite <- app_assoc.
Qed.

Lemma polled_never k n sigs m r (cbs : list callback) h lg :
  polled k (Build_Bus n sigs [(m, with_wait (Some None) r)] cbs h lg) =
  Build_Bus n sigs [(m, with_wait (Some None) r)] cbs h
    (lg ++ repeat (call_dev_poll 10) k).
Proof.
  revert lg. induction k as [|k IH]; intros lg.
  - cbn. now rewrite app_nil_r.
  - cbn [polled]. unfold mpr_dev_poll, logged, set_maps. cbn.
    unfold poll_map. cbn. rewrite IH. now rewrite <- app_assoc.
Qed.

Lemma ready_one n sigs m r (cbs : list callback) h lg :
  mpr_map_get_is_ready (Build_Bus n sigs [(m, r)] cbs h lg) m =
  match map_wait r with
  | Some (Some O) => true
  | _ => false
  end.
Proof. unfold mpr_map_get_is_ready. cbn. now rewrite Nat.eqb_refl. Qed.

Lemma poll_one n sigs m r (cbs : list callback) h lg ms :
  mpr_dev_poll (Build_Bus n sigs [(m, r)] cbs h lg) ms =
  Build_Bus n sigs [(m, poll_map r)] cbs h (lg ++ [call_dev_poll ms]).
Proof. reflexivity. Qed.

Lemma wait_ready_one fuel n sigs m (cbs : list callback) h : forall r w lg,
  map_wait r = Some (Some w) ->
  wait_ready fuel (Build_Bus n sigs [(m, r)] cbs h lg) m =
  if (w <? fuel)%nat
  then Some (polled w (Build_Bus n sigs [(m, r)] cbs h lg))
  else None.
Proof.
  induction fuel as [|fuel IH]; intros r w lg W; [reflexivity|].
  cbn [wait_ready]. rewrite ready_one, W.
  destruct w as [|w]; [reflexivity|].
  rewrite poll_one.
  rewrite (IH _ w) by (unfold poll_map; now rewrite W).
  change (S w <? S fuel)%nat with (w <? fuel)%nat.
  destruct (w <? fuel)%nat; [|reflexivity].
  cbn [polled]. now rewrite poll_one.
Qed.

Lemma wait_ready_never fuel n sigs m (cbs : list callback) h : forall r lg,
  map_wait r = Some None ->
  wait_ready fuel (Build_Bus n sigs [(m, r)] cbs h lg) m = None.
Proof.
  induction fuel as [|fuel IH]; intros r lg W; [reflexivity|].
  cbn [wait_ready]. rewrite ready_one, W, poll_one.
  apply IH. unfold poll_map. now rewrite W.
Qed.

(** The constructor on a device that has just joined. *)
Lemma finish_first mem name type vs h n fuel :
  (n < fuel)%nat ->
  Loop_finish fuel (first_track type vs)
    (Build_Bus 10 (first_signals mem name type vs None None)
       [(9%nat, first_map (Some (Some n)))] [] h
       (first_calls mem name type vs)) =
  Some (first_track type vs,
        Build_Bus 10 (first_signals mem name type vs (Some [1%Q]) (Some [16%Q]))
          [(9%nat, first_map (Some (Some O)))] [] h
          (first_calls mem name type vs ++ last_calls n)).
Proof.
  intros L. unfold Loop_finish. cbn [_loopMap first_track].
  rewrite (wait_ready_one _ _ _ _ _ _ _ n) by reflexivity.
  apply Nat.ltb_lt in L. rewrite L. cbn [obind].
  rewrite (polled_one n _ _ _ (first_map None) _ _ _ n).
  rewrite Nat.sub_diag.
  cbn [_sigLength _sigDivision first_track].
  unfold first_signals.
  erewrite set_value_step; [|reflexivity|discriminate|reflexivity|reflexivity].
  cbn [update_assoc Nat.eqb]. unfold with_value at 1.
  erewrite set_value_step; [|reflexivity|discriminate|reflexivity|reflexivity].
  cbn [update_assoc Nat.eqb]. unfold with_value at 1.
  unfold last_calls. rewrite <- !app_assoc. reflexivity.
Qed.

Lemma new_fresh mem name type vs n fuel :
  name_fits name -> (1 <= vs)%nat -> (n < fuel)%nat ->
  Loop_new mem fuel name (new_bus (Some n)) type vs =
  Some (first_track type vs,
        Build_Bus 10 (first_signals mem name type vs (Some [1%Q]) (Some [16%Q]))
          [(9%nat, first_map (Some (Some O)))] [] (Some n)
          (first_calls mem name type vs ++ last_calls n)).
Proof.
  intros F V L. unfold Loop_new. rewrite declare_fresh by assumption.
  cbn [obind]. now apply finish_first.
Qed.

Lemma new_blocked mem name type vs h fuel :
  name_fits name -> (1 <= vs)%nat ->
  match h with
  | Some n => (fuel <= n)%nat
  | None => True
  end ->
  Loop_new mem fuel name (new_bus h) type vs = None.
Proof.
  intros F V L. unfold Loop_new. rewrite declare_fresh by assumption.
  cbn [obind]. unfold Loop_finish. cbn [_loopMap first_track].
  destruct h as [n|].
  - rewrite (wait_ready_one _ _ _ _ _ _ _ n) by reflexivity.
    apply Nat.ltb_ge in L. now rewrite L.
  - now rewrite wait_ready_never.
Qed.

Lemma ready_first k n sigs (cbs : list callback) h lg w :
  mpr_map_get_is_ready
    (polled k (Build_Bus n sigs [(9%nat, first_map (Some (Some w)))] cbs h lg)) 9 =
  (w <=? k)%nat.
Proof.
  rewrite (polled_one k _ _ _ (first_map None) _ _ _ w), ready_one. cbn [map_wait with_wait].
  destruct (w - k)%nat eqn:E.
  - symmetry. apply Nat.leb_le. lia.
  - symmetry. apply Nat.leb_gt. lia.
Qed.



(** C7 as stated fails for a long name: with 118 characters the buffer cuts
    the names of the five control endpoints down to one and the same
    string, so that record, length, division, modulation and mute are one
    endpoint; the constructor writes it three times before the loop map is
    pushed, and length and division hold 0 while the map is not ready.  It
    also fails, as far as the values go, on a device that has the endpoints
    already: a second track of the same name finds length and division set
    by the first. *)
Lemma defaults_collide_for_long_names :
  (String.length long_name = 118%nat /\
   exists this dev1,
     Loop_declare quiet long_name (new_bus (Some 2%nat)) MPR_FLT 1 = Some (this, dev1) /\
     _sigLength this = _sigRecord this /\
     _sigDivision this = _sigRecord this /\
     mpr_map_get_is_ready dev1 (_loopMap this) = false /\
     List.length (filter (writes_to (_sigLength this)) (log dev1)) = 3%nat /\
     mpr_sig_get_value dev1 (_sigLength this) = Some [0%Q] /\
     mpr_sig_get_value dev1 (_sigDivision this) = Some [0%Q]) /\
  (exists this dev1,
     demo = Some (demo_loop, demo_bus) /\
     Loop_declare quiet "loop" demo_bus MPR_FLT 1 = Some (this, dev1) /\
     mpr_map_get_is_ready dev1 (_loopMap this) = false /\
     mpr_sig_get_value dev1 (_sigLength this) = Some [1%Q] /\
     mpr_sig_get_value dev1 (_sigDivision this) = Some [16%Q]).
Proof.
  split.
  - split; [reflexivity|]. do 2 eexists.
    split; [vm_compute; reflexivity|].
    repeat split; vm_compute; reflexivity.
  - do 2 eexists. split; [exact demo_built|].
    split; [vm_compute; reflexivity|].
    repeat split; vm_compute; reflexivity.
Qed.

(** ** Machine arithmetic *)

Lemma to_int_some z r : to_int z = Some r -> r = z /\ in_int z = true.
Proof. unfold to_int. destruct (in_int z); [now intros [= <-]|discriminate]. Qed.

Lemma in_int_range z : in_int z = true <-> INT_MIN <= z <= INT_MAX.
Proof. unfold in_int. rewrite andb_true_iff, !Z.leb_le. reflexivity. Qed.

Lemma to_int_in z : in_int z = true -> to_int z = Some z.
Proof. unfold to_int. now intros ->. Qed.

Lemma Qtrunc_nonneg q : (0 <= q)%Q -> Qtrunc q = Qfloor q.
Proof.
  destruct q as [n d]. unfold Qle, Qtrunc, Qfloor. cbn. intros H.
  rewrite Z.mul_1_r in H. apply Z.quot_div_nonneg; lia.
Qed.

Lemma Qtrunc_mono p q : (p <= q)%Q -> Qtrunc p <= Qtrunc q.
Proof.
  destruct p as [pn pd], q as [qn qd]. unfold Qle, Qtrunc. cbn. intros H.
  rewrite <- (Z.quot_mul_cancel_r pn (Zpos pd) (Zpos qd)) by lia.
  rewrite <- (Z.quot_mul_cancel_r qn (Zpos qd) (Zpos pd)) by lia.
  rewrite (Z.mul_comm (Zpos qd) (Zpos pd)).
  apply Z.quot_le_mono; lia.
Qed.

(** ** The bus: writes and the log *)

Lemma set_value_log (dev : Bus) sig len type val :
  log (mpr_sig_set_value dev sig len type val) =
  (log dev ++ [call_sig_set_value sig len type val])%list.
Proof.
  unfold mpr_sig_set_value. cbn.
  destruct (assoc sig (signals dev)); [|reflexivity].
  destruct val; [|reflexivity].
  destruct (Nat.eqb len 0); [reflexivity|].
  destruct (Nat.eqb len _); reflexivity.
Qed.

Lemma set_value_other (dev : Bus) sig len type val sig' :
  sig' <> sig ->
  mpr_sig_get_value (mpr_sig_set_value dev sig len type val) sig' =
  mpr_sig_get_value dev sig'.
Proof.
  intros N. apply Nat.eqb_neq in N.
  unfold mpr_sig_get_value, mpr_sig_set_value. cbn.
  destruct (assoc sig (signals dev)); [|reflexivity].
  destruct val; cbn; [destruct (Nat.eqb len 0); cbn;
                      [|destruct (Nat.eqb len _); cbn]|];
    rewrite ?assoc_update, ?N; reflexivity.
Qed.

Lemma calls_since_app (a b : Bus) l :
  log b = (log a ++ l)%list -> calls_since a b = l.
Proof.
  intros E. unfold calls_since. rewrite E, skipn_app, Nat.sub_diag, skipn_all.
  reflexivity.
Qed.

Lemma captured_log this dev : log (captured this dev) = (log dev ++ [capture this dev])%list.
Proof. apply set_value_log. Qed.

Lemma copied_log this dev : log (copied this dev) = (log dev ++ [copy_out this dev])%list.
Proof. apply set_value_log. Qed.

Lemma muted_captured this dev :
  _sigMute this <> _sigLocalSend this ->
  muted_of this (captured this dev) = muted_of this dev.
Proof. intros N. unfold muted_of, captured. now rewrite set_value_other. Qed.

(** ** [update], restated *)

Lemma update_unfold this beats dev :
  update this beats dev =
  (t <- tick_of this beats dev ;;
   if t =? _lastUpdate this then gate this dev []
   else
     d <- int_sub t (_lastUpdate this) ;;
     gate (set_lastUpdate this t) (captured this dev)
       (if 1 <? d then [printf_Missed (d - 1)] else [])).
Proof.
  unfold update, tick_of.
  destruct (deref _) as [division|]; [|reflexivity]. cbn [obind].
  destruct (double_to_int _) as [t|]; [|reflexivity]. cbn [obind].
  destruct (t =? _lastUpdate this) eqn:E; cbn [negb obind].
  - unfold gate, muted_of. destruct (deref _) as [m|]; [|reflexivity].
    cbn [obind]. unfold copied. now destruct (int_to_bool m).
  - destruct (int_sub t (_lastUpdate this)) as [d|] eqn:D; [|reflexivity].
    cbn [obind].
    assert (O : (if 1 <? d then n <- int_sub d 1;; Some [printf_Missed n] else Some [])
                = Some (if 1 <? d then [printf_Missed (d - 1)] else [])).
    { destruct (1 <? d) eqn:L; [|reflexivity].
      apply to_int_some in D. destruct D as [-> D].
      apply in_int_range in D. apply Z.ltb_lt in L.
      unfold int_sub. rewrite to_int_in; [reflexivity|].
      apply in_int_range.
      change INT_MIN with (-2147483648) in *.
      change INT_MAX with 2147483647 in *. lia. }
    rewrite O. cbn [obind].
    unfold gate, muted_of, captured, copied. cbn [_sigMute set_lastUpdate].
    destruct (deref _) as [m|]; [|reflexivity].
    cbn [obind]. now destruct (int_to_bool m).
Qed.

(** A call that finds the tick where it was. *)
Lemma update_same this beats dev m :
  tick_of this beats dev = Some (_lastUpdate this) ->
  muted_of this dev = Some m ->
  update this beats dev = Some (this, if m then dev else copied this dev, []).
Proof.
  intros T M. rewrite update_unfold, T. cbn [obind].
  rewrite Z.eqb_refl. unfold gate. now rewrite M.
Qed.

(** A call that finds the tick changed. *)
Lemma update_moved this beats dev t m :
  tick_of this beats dev = Some t ->
  t <> _lastUpdate this ->
  in_int (t - _lastUpdate this) = true ->
  muted_of this dev = Some m ->
  _sigMute this <> _sigLocalSend this ->
  update this beats dev =
  Some (set_lastUpdate this t,
        (if m then captured this dev else copied this (captured this dev)),
        if 1 <? t - _lastUpdate this
        then [printf_Missed (t - _lastUpdate this - 1)] else []).
Proof.
  intros T N R M A. rewrite update_unfold, T. cbn [obind].
  apply Z.eqb_neq in N. rewrite N.
  unfold int_sub. rewrite to_int_in by assumption. cbn [obind].
  unfold gate.
  change (muted_of (set_lastUpdate this t)) with (muted_of this).
  rewrite muted_captured, M by assumption. reflexivity.
Qed.

Lemma tick_of_division this beats dev t :
  tick_of this beats dev = Some t ->
  exists division,
    deref (mpr_sig_get_value dev (_sigDivision this)) = Some division /\
    t = Qtrunc (double_mul beats division) /\ in_int t = true.
Proof.
  unfold tick_of. destruct (deref _) as [division|]; [|discriminate].
  cbn [obind]. unfold double_to_int. intros H. apply to_int_some in H.
  destruct H as [-> H]. now exists division.
Qed.

(** ** Products of doubles *)

Lemma Qtrunc_comp p q : (p == q)%Q -> Qtrunc p = Qtrunc q.
Proof.
  intros E. apply Z.le_antisymm; apply Qtrunc_mono; rewrite E; apply Qle_refl.
Qed.

Lemma double_exact (b : double) : (round_double b == b)%Q.
Proof.
  pose proof (dval_ok b) as H. unfold is_double in H.
  apply andb_true_iff in H. destruct H as [H _]. now apply Qeq_bool_iff in H.
Qed.

Lemma double_mul_pow2 (b : double) j :
  0 <= j -> (double_mul b (pow2 j) == b * pow2 j)%Q.
Proof. intros J. apply round_double_scale; [apply double_exact|exact J]. Qed.

(** At sixteen pulses a beat the product is exact. *)
Lemma double_mul_16 (b : double) : (double_mul b 16 == b * 16)%Q.
Proof. apply (double_mul_pow2 b 4). lia. Qed.

Lemma tick_16 (b : double) : double_to_int (double_mul b 16) = double_to_int (b * 16).
Proof. unfold double_to_int. now rewrite (Qtrunc_comp _ _ (double_mul_16 b)). Qed.

Lemma double_mul_mono (a b d : Q) :
  (a <= b)%Q -> (0 <= d)%Q -> (double_mul a d <= double_mul b d)%Q.
Proof.
  intros L P. apply round_double_mono. now apply Qmult_le_compat_r.
Qed.

Lemma dbl_val q :
  is_double (round_double q) = true -> dval (dbl q) = round_double q.
Proof.
  intros H. unfold dbl.
  generalize (@eq_refl bool (is_double (round_double q))).
  generalize (is_double (round_double q)) at 2 3.
  intros b. destruct b; [reflexivity|]. intros E. congruence.
Qed.

(** On the sample products the rounding of the embedding is that of
    [SFmul] at binary64. *)
Lemma double_mul_as_SFmul :
  forallb (fun p => agrees_with_SFmul (fst p) (snd p)) sample_products = true.
Proof. vm_compute. reflexivity. Qed.

Lemma later_built : demo_later = Some (later_loop, later_bus, [printf_Missed 2]).
Proof. vm_compute. reflexivity. Qed.

(** C3, as amended: a call of [update] whose tick index (the product
    [beats * division] truncated toward zero) is not above the stored one
    prints no diagnostic and leaves the stored index at the derived tick,
    never past it.  When the two are equal nothing is captured; when the
    derived tick is below the stored one the input is captured into
    local/send all the same and the stored index moves back to the derived
    tick. *)
Theorem rewind_captures_without_diagnostic this beats dev t m :
  tick_of this beats dev = Some t ->
  t <= _lastUpdate this ->
  in_int (t - _lastUpdate this) = true ->
  muted_of this dev = Some m ->
  _sigMute this <> _sigLocalSend this ->
  exists this' dev',
    update this beats dev = Some (this', dev', []) /\
    _lastUpdate this' = t /\
    (t = _lastUpdate this ->
       this' = this /\
       calls_since dev dev' = if m then [] else [copy_out this dev]) /\
    (t < _lastUpdate this ->
       calls_since dev dev' =
         capture this dev ::
         (if m then [] else [copy_out this (captured this dev)])).
Proof.
  intros T L R M A.
  destruct (Z.eq_dec t (_lastUpdate this)) as [E|N].
  - subst t. rewrite (update_same _ _ _ m) by assumption.
    do 2 eexists. split; [reflexivity|]. split; [reflexivity|].
    split; [|lia]. intros _. split; [reflexivity|].
    apply calls_since_app.
    destruct m; [now rewrite app_nil_r|apply copied_log].
  - rewrite (update_moved _ _ _ t m) by assumption.
    assert (G : (1 <? t - _lastUpdate this) = false) by (apply Z.ltb_ge; lia).
    rewrite G. do 2 eexists. split; [reflexivity|]. split; [reflexivity|].
    split; [intros E; contradiction|]. intros _.
    apply calls_since_app.
    destruct m.
    + apply captured_log.
    + rewrite copied_log, captured_log, <- app_assoc. reflexivity.
Qed.

Lemma rewind_captures_without_diagnostic_witness :
  exists this' dev',
    update later_loop (dbl 0) later_bus = Some (this', dev', []) /\
    _lastUpdate this' = 0 /\
    (0 = _lastUpdate later_loop ->
       this' = later_loop /\
       calls_since later_bus dev' = [copy_out later_loop later_bus]) /\
    (0 < _lastUpdate later_loop ->
       calls_since later_bus dev' =
         [capture later_loop later_bus;
          copy_out later_loop (captured later_loop later_bus)]).
Proof.
  apply (rewind_captures_without_diagnostic later_loop (dbl 0) later_bus 0 false).
  - vm_compute. reflexivity.
  - vm_compute. discriminate.
  - vm_compute. reflexivity.
  - vm_compute. reflexivity.
  - vm_compute. discriminate.
Defined.

(** C3 as stated fails: after the track has reached tick 3, a call at beat
    0 derives tick 0 (its floor is 0 as well), which is below 3, and the
    input is captured into local/send. *)
Lemma rewind_does_capture :
  exists division this' dev' out,
    demo_later = Some (later_loop, later_bus, [printf_Missed 2]) /\
    deref (mpr_sig_get_value later_bus (_sigDivision later_loop)) = Some division /\
    Qfloor (dbl 0 * division) <= _lastUpdate later_loop /\
    update later_loop (dbl 0) later_bus = Some (this', dev', out) /\
    existsb (writes_to (_sigLocalSend later_loop)) (calls_since later_bus dev') = true /\
    hd_error (calls_since later_bus dev') = Some (capture later_loop later_bus).
Proof.
  do 4 eexists. split; [exact later_built|].
  split; [vm_compute; reflexivity|].
  split; [vm_compute; discriminate|].
  split; [vm_compute; reflexivity|].
  split; vm_compute; reflexivity.
Qed.

Lemma round_double_nonneg q : (0 <= q)%Q -> (0 <= round_double q)%Q.
Proof.
  intros P. unfold round_double, Qle. cbn [Qnum Qden].
  rewrite Z.mul_1_r. apply rnd_nonneg.
  unfold units. apply Qmult_le_0_compat; [exact P|].
  change 0%Q with (inject_Z 0). now rewrite <- Zle_Qle.
Qed.

(** C4, as amended: [update] derives the tick index as the [double]
    product of the beat position and the division read from the division
    endpoint at that call (the exact product rounded to the nearest
    double), truncated toward zero; this is the floor of the rounded
    product when the product is not negative.  For a division that is not
    negative a later beat position never gives a smaller index.  A call
    whose index is k above the stored one prints exactly one diagnostic,
    with count k - 1, when k exceeds 1, and none otherwise; whenever the
    index differs from the stored one the current input value is captured
    into local/send and the index is stored.  With division 16 the beats 0,
    0.05, 0.20 give the ticks 0, 0, 3 and the single line
    "Missed 2 ticks!". *)
Theorem tick_is_the_truncated_product this beats dev t m :
  tick_of this beats dev = Some t ->
  in_int (t - _lastUpdate this) = true ->
  muted_of this dev = Some m ->
  _sigMute this <> _sigLocalSend this ->
  (exists division,
     deref (mpr_sig_get_value dev (_sigDivision this)) = Some division /\
     t = Qtrunc (round_double (beats * division)) /\
     ((0 <= beats * division)%Q -> t = Qfloor (round_double (beats * division))) /\
     (forall later : double, (beats < later)%Q -> (0 <= division)%Q ->
        t <= Qtrunc (round_double (later * division)))) /\
  (exists this' dev' out,
     update this beats dev = Some (this', dev', out) /\
     out = (if 1 <? t - _lastUpdate this
            then [printf_Missed (t - _lastUpdate this - 1)] else []) /\
     (t <> _lastUpdate this ->
        _lastUpdate this' = t /\
        hd_error (calls_since dev dev') = Some (capture this dev))) /\
  (ticks demo_loop demo_bus [dbl 0; dbl (1 # 20); dbl (1 # 5)] = Some [0; 0; 3] /\
   exists this' dev',
     updates demo_loop demo_bus [dbl 0; dbl (1 # 20); dbl (1 # 5)] =
     Some (this', dev', ["Missed 2 ticks!" ++ newline]%string)).
Proof.
  intros T R M A. split; [|split].
  - destruct (tick_of_division _ _ _ _ T) as [division [D [E _]]].
    exists division. split; [exact D|]. split; [exact E|]. split.
    + intros P. rewrite E. now apply Qtrunc_nonneg, round_double_nonneg.
    + intros later L P. rewrite E. apply Qtrunc_mono.
      apply double_mul_mono; [now apply Qlt_le_weak|exact P].
  - destruct (Z.eq_dec t (_lastUpdate this)) as [E|N].
    + subst t. rewrite (update_same _ _ _ m) by assumption.
      do 3 eexists. split; [reflexivity|].
      rewrite Z.sub_diag. split; [reflexivity|]. intros N. now elim N.
    + rewrite (update_moved _ _ _ t m) by assumption.
      do 3 eexists. split; [reflexivity|]. split; [reflexivity|].
      intros _. split; [reflexivity|].
      destruct m.
      * now rewrite (calls_since_app _ _ [capture this dev]) by apply captured_log.
      * rewrite (calls_since_app _ _
                   [capture this dev; copy_out this (captured this dev)]);
          [reflexivity|].
        rewrite copied_log, captured_log, <- app_assoc. reflexivity.
  - split; [vm_compute; reflexivity|].
    do 2 eexists. vm_compute. reflexivity.
Qed.

Lemma tick_is_the_truncated_product_witness :
  (exists division,
     deref (mpr_sig_get_value demo_bus (_sigDivision demo_loop)) = Some division /\
     3 = Qtrunc (round_double (dbl (1 # 5) * division)) /\
     ((0 <= dbl (1 # 5) * division)%Q ->
      3 = Qfloor (round_double (dbl (1 # 5) * division))) /\
     (forall later : double, (dbl (1 # 5) < later)%Q -> (0 <= division)%Q ->
        3 <= Qtrunc (round_double (later * division)))) /\
  (exists this' dev' out,
     update demo_loop (dbl (1 # 5)) demo_bus = Some (this', dev', out) /\
     out = (if 1 <? 3 - _lastUpdate demo_loop
            then [printf_Missed (3 - _lastUpdate demo_loop - 1)] else []) /\
     (3 <> _lastUpdate demo_loop ->
        _lastUpdate this' = 3 /\
        hd_error (calls_since demo_bus dev') = Some (capture demo_loop demo_bus))) /\
  (ticks demo_loop demo_bus [dbl 0; dbl (1 # 20); dbl (1 # 5)] = Some [0; 0; 3] /\
   exists this' dev',
     updates demo_loop demo_bus [dbl 0; dbl (1 # 20); dbl (1 # 5)] =
     Some (this', dev', ["Missed 2 ticks!" ++ newline]%string)).
Proof.
  apply (tick_is_the_truncated_product demo_loop (dbl (1 # 5)) demo_bus 3 false).
  - vm_compute. reflexivity.
  - vm_compute. reflexivity.
  - vm_compute. reflexivity.
  - vm_compute. discriminate.
Defined.

(** C4 as stated fails three times over.  On the floor: at beat -0.05 with
    division 16 the product is about -0.8, whose floor is -1, while
    [update] derives tick 0.  On the product: with division 24 the beat
    position [third] has a product whose floor is 7, but the product rounds
    to the double 8 and [update] derives tick 8 ("Missed 7 ticks!").  On
    the order: with the division at -16 the later beat position gives the
    smaller tick. *)
Lemma tick_is_not_the_floor :
  (exists division,
     deref (mpr_sig_get_value demo_bus (_sigDivision demo_loop)) = Some division /\
     tick_of demo_loop (dbl (-1 # 20)) demo_bus = Some 0 /\
     Qfloor (dbl (-1 # 20) * division) = -1) /\
  (let dev := write demo_bus (_sigDivision demo_loop) (Some [24%Q]) in
   is_double third = true /\
   Qfloor (dbl third * 24) = 7 /\
   tick_of demo_loop (dbl third) dev = Some 8 /\
   exists this' dev',
     update demo_loop (dbl third) dev =
     Some (this', dev', ["Missed 7 ticks!" ++ newline]%string)) /\
  (let dev := write demo_bus (_sigDivision demo_loop) (Some [(-16)%Q]) in
   (dbl 0 < dbl 1)%Q /\
   ticks demo_loop dev [dbl 0; dbl 1] = Some [0; -16]).
Proof.
  split; [|split].
  - eexists. split; [vm_compute; reflexivity|].
    split; vm_compute; reflexivity.
  - split; [vm_compute; reflexivity|].
    split; [vm_compute; reflexivity|].
    split; [vm_compute; reflexivity|].
    do 2 eexists. vm_compute. reflexivity.
  - split; vm_compute; reflexivity.
Qed.

(** ** Runs of [update] *)

Lemma write_other (dev : Bus) s v s' :
  s' <> s -> mpr_sig_get_value (write dev s v) s' = mpr_sig_get_value dev s'.
Proof.
  intros N. apply Nat.eqb_neq in N. unfold mpr_sig_get_value, write. cbn.
  now rewrite assoc_update, N.
Qed.

Lemma captured_other this dev s :
  s <> _sigLocalSend this ->
  mpr_sig_get_value (captured this dev) s = mpr_sig_get_value dev s.
Proof. intros N. unfold captured. now rewrite set_value_other. Qed.

Lemma copied_other this dev s :
  s <> _sigOut this ->
  mpr_sig_get_value (copied this dev) s = mpr_sig_get_value dev s.
Proof. intros N. unfold copied. now rewrite set_value_other. Qed.

(** ** The mute endpoint *)

Lemma muted_nonzero this dev :
  mute_nonzero this dev = true -> muted_of this dev = Some true.
Proof.
  unfold mute_nonzero, muted_of.
  destruct (deref _) as [m|]; [|discriminate].
  cbn [obind]. unfold int_to_bool. now intros ->.
Qed.

Lemma muted_value this dev m :
  mute_is this dev m -> muted_of this dev = Some (negb (Qeq_bool m 0)).
Proof. unfold mute_is, muted_of. now intros ->. Qed.

Lemma muted_set this dev m :
  mute_is this dev m -> ~ (m == 0)%Q -> muted_of this dev = Some true.
Proof.
  intros M N. rewrite (muted_value _ _ _ M).
  destruct (Qeq_bool m 0) eqn:E; [|reflexivity].
  apply Qeq_bool_iff in E. contradiction.
Qed.

Lemma muted_clear this dev m :
  mute_is this dev m -> (m == 0)%Q -> muted_of this dev = Some false.
Proof.
  intros M Z. rewrite (muted_value _ _ _ M).
  apply Qeq_bool_iff in Z. now rewrite Z.
Qed.

(** What a muted call does, whatever the tick. *)
Lemma update_muted this beats dev this1 dev1 out :
  muted_of this dev = Some true ->
  update this beats dev = Some (this1, dev1, out) ->
  _sigMute this <> _sigLocalSend this ->
  (this1 = this /\ dev1 = dev) \/
  (exists t, this1 = set_lastUpdate this t /\ dev1 = captured this dev).
Proof.
  intros M U A. rewrite update_unfold in U.
  destruct (tick_of this beats dev) as [t|]; [cbn [obind] in U|discriminate].
  destruct (t =? _lastUpdate this).
  - unfold gate in U. rewrite M in U. cbn in U. left. now inversion U.
  - destruct (int_sub _ _) as [d|]; [cbn [obind] in U|discriminate].
    unfold gate in U.
    change (muted_of (set_lastUpdate this t)) with (muted_of this) in U.
    rewrite muted_captured, M in U by assumption. cbn in U.
    right. exists t. now inversion U.
Qed.

Lemma muted_run steps o s mu : forall this dev,
  _sigOut this = o -> _sigLocalSend this = s -> _sigMute this = mu ->
  o <> s -> mu <> s ->
  muted_throughout this dev steps = true ->
  leaves o steps = true ->
  exists this' dev' l,
    run this dev steps = Some (this', dev') /\
    mpr_sig_get_value dev' o = mpr_sig_get_value dev o /\
    log dev' = (log dev ++ l)%list /\
    existsb (writes_to o) l = false.
Proof.
  induction steps as [|[b|w v] steps IH]; intros this dev Ho Hs Hm N1 N2 M L.
  - exists this, dev, []. cbn. now rewrite app_nil_r.
  - cbn [muted_throughout] in M. cbn [run leaves] in *.
    destruct (update this b dev) as [[[this1 dev1] out]|] eqn:U; [|discriminate].
    apply andb_true_iff in M. destruct M as [E M].
    apply muted_nonzero in E.
    cbn [obind].
    assert (A : _sigMute this <> _sigLocalSend this) by congruence.
    destruct (update_muted _ _ _ _ _ _ E U A) as [[-> ->]|[t [-> ->]]].
    + now apply IH.
    + destruct (IH (set_lastUpdate this t) (captured this dev))
        as [this' [dev' [l [R [V [G W]]]]]]; try assumption.
      exists this', dev', (capture this dev :: l).
      split; [exact R|]. split; [|split].
      * rewrite V. apply captured_other. congruence.
      * rewrite G, captured_log, <- app_assoc. reflexivity.
      * cbn. rewrite W, Hs. apply Nat.eqb_neq in N1.
        now rewrite Nat.eqb_sym, N1.
  - cbn [muted_throughout run leaves] in *.
    apply andb_true_iff in L. destruct L as [L1 L2].
    apply negb_true_iff, Nat.eqb_neq in L1.
    destruct (IH this (write dev w v)) as [this' [dev' [l [R [V [G W]]]]]];
      try assumption.
    exists this', dev', l. split; [exact R|]. split; [|split].
    + rewrite V. apply write_other. congruence.
    + exact G.
    + exact W.
Qed.

(** ** What a run leaves as it is: the members but the stored tick, and the
    endpoints but their values *)

Lemma set_lastUpdate_same this : set_lastUpdate this (_lastUpdate this) = this.
Proof. now destruct this. Qed.

Lemma declared_update_assoc k v (l : list (mpr_sig * signal)) :
  List.map (fun e => (fst e, with_value None (snd e)))
    (update_assoc k (with_value v) l) =
  List.map (fun e => (fst e, with_value None (snd e))) l.
Proof.
  induction l as [|[k' a] l IH]; [reflexivity|].
  cbn [update_assoc]. destruct (Nat.eqb k k'); cbn [List.map fst snd].
  - reflexivity.
  - now rewrite IH.
Qed.

Lemma declared_write dev s v : declared (write dev s v) = declared dev.
Proof. apply declared_update_assoc. Qed.

Lemma declared_set_value (dev : Bus) sig len type val :
  declared (mpr_sig_set_value dev sig len type val) = declared dev.
Proof.
  unfold declared, mpr_sig_set_value. cbn.
  destruct (assoc sig (signals dev)); [|reflexivity].
  destruct val; cbn; [destruct (Nat.eqb len 0); cbn;
                      [|destruct (Nat.eqb len _); cbn]|];
    rewrite ?declared_update_assoc; reflexivity.
Qed.

Lemma declared_assoc (dev : Bus) k :
  assoc k (declared dev) = option_map (with_value None) (assoc k (signals dev)).
Proof. unfold declared. apply assoc_map. Qed.

Lemma update_keeps this beats dev this' dev' out :
  update this beats dev = Some (this', dev', out) ->
  (exists t, this' = set_lastUpdate this t) /\ declared dev' = declared dev.
Proof.
  intros U. rewrite update_unfold in U.
  destruct (tick_of this beats dev) as [t|]; [cbn [obind] in U|discriminate].
  destruct (t =? _lastUpdate this).
  - unfold gate in U. destruct (muted_of this dev) as [m|]; [|discriminate].
    cbn [obind] in U. injection U as <- <- _.
    split; [exists (_lastUpdate this); now rewrite set_lastUpdate_same|].
    destruct m; [reflexivity|apply declared_set_value].
  - destruct (int_sub _ _) as [d|]; [cbn [obind] in U|discriminate].
    unfold gate in U. destruct (muted_of _ _) as [m|]; [|discriminate].
    cbn [obind] in U. injection U as <- <- _.
    split; [now exists t|].
    destruct m; unfold copied, captured; now rewrite ?declared_set_value.
Qed.

Lemma run_keeps steps : forall this dev this' dev',
  run this dev steps = Some (this', dev') ->
  (exists t, this' = set_lastUpdate this t) /\ declared dev' = declared dev.
Proof.
  induction steps as [|[b|w v] steps IH]; intros this dev this' dev' R.
  - injection R as <- <-.
    split; [exists (_lastUpdate this); now rewrite set_lastUpdate_same|reflexivity].
  - cbn [run] in R.
    destruct (update this b dev) as [[[this1 dev1] out]|] eqn:U; [|discriminate].
    cbn [obind] in R. apply update_keeps in U. destruct U as [[t ->] D].
    apply IH in R. destruct R as [[t' ->] D'].
    split; [now exists t'|congruence].
  - cbn [run] in R. apply IH in R. destruct R as [E D].
    split; [exact E|]. now rewrite D, declared_write.
Qed.

(** ** A track that has just been constructed *)

Lemma declare_needs_width mem name h type :
  name_fits name -> Loop_declare mem name (new_bus h) type 0 = None.
Proof.
  intros F. unfold Loop_declare, new_bus.
  new_endpoint F. set_endpoint.
  new_endpoint F. new_endpoint F. new_endpoint F. set_endpoint.
  new_endpoint F. set_endpoint.
  reflexivity.
Qed.

Lemma new_inv mem fuel name h type vs this dev :
  name_fits name ->
  Loop_new mem fuel name (new_bus h) type vs = Some (this, dev) ->
  exists n,
    h = Some n /\ (n < fuel)%nat /\ (1 <= vs)%nat /\
    this = first_track type vs /\
    dev = Build_Bus 10 (first_signals mem name type vs (Some [1%Q]) (Some [16%Q]))
            [(9%nat, first_map (Some (Some O)))] [] (Some n)
            (first_calls mem name type vs ++ last_calls n).
Proof.
  intros F H.
  destruct vs as [|v].
  { unfold Loop_new in H. now rewrite declare_needs_width in H. }
  destruct h as [n|].
  - destruct (Nat.lt_ge_cases n fuel) as [L|L].
    + rewrite new_fresh in H by (assumption || lia).
      injection H as <- <-. exists n. repeat split; try assumption; lia.
    + rewrite new_blocked in H by (assumption || lia). discriminate.
  - rewrite new_blocked in H by (trivial || lia). discriminate.
Qed.

Lemma new_lastUpdate mem fuel name dev0 type vs this dev :
  Loop_new mem fuel name dev0 type vs = Some (this, dev) -> _lastUpdate this = 0.
Proof.
  unfold Loop_new. intros H. some_or_none H.
  unfold Loop_finish in H.
  destruct (wait_ready _ _ _); [cbn [obind] in H|discriminate].
  injection H as <- _.
  unfold Loop_declare in E. repeat some_or_none E.
  now injection E as <- _.
Qed.

(** ** The mute gate *)

Lemma copied_value this (d : Bus) s :
  assoc (_sigOut this) (signals d) = Some s ->
  sig_len s = _vectorSize this ->
  _vectorSize this <> 0%nat ->
  mpr_sig_get_value (copied this d) (_sigOut this) =
  option_map (firstn (_vectorSize this))
    (mpr_sig_get_value d (_sigLocalReceive this)).
Proof.
  intros As W Z. apply Nat.eqb_neq in Z.
  unfold copied, mpr_sig_set_value, mpr_sig_get_value. cbn. rewrite As.
  destruct (obind (assoc (_sigLocalReceive this) (signals d)) _) as [buf|];
    cbn; [rewrite Z, W, Nat.eqb_refl; cbn|];
    rewrite assoc_update, Nat.eqb_refl, As; reflexivity.
Qed.

(** C5: on a track that has been constructed, at any later moment: as
    long as every call of [update] finds a value other than zero in the
    mute endpoint, no call writes the output endpoint, whatever else
    happens to the other endpoints in between, and the output keeps its
    value; such a call still captures the input into local/send when it
    finds the tick changed.  A call that finds zero in the mute endpoint
    ends by copying the current value of local/recv to the output. *)
Theorem mute_gates_the_output mem fuel name h type vs this0 dev0 :
  Loop_new mem fuel name (new_bus h) type vs = Some (this0, dev0) ->
  name_fits name ->
  forall before this dev,
    run this0 dev0 before = Some (this, dev) ->
    (forall steps,
       muted_throughout this dev steps = true ->
       leaves (_sigOut this) steps = true ->
       exists this' dev',
         run this dev steps = Some (this', dev') /\
         mpr_sig_get_value dev' (_sigOut this) = mpr_sig_get_value dev (_sigOut this) /\
         existsb (writes_to (_sigOut this)) (calls_since dev dev') = false) /\
    (forall beats t m,
       tick_of this beats dev = Some t ->
       t <> _lastUpdate this ->
       in_int (t - _lastUpdate this) = true ->
       mute_is this dev m -> ~ (m == 0)%Q ->
       exists this' dev' out,
         update this beats dev = Some (this', dev', out) /\
         calls_since dev dev' = [capture this dev] /\
         mpr_sig_get_value dev' (_sigOut this) = mpr_sig_get_value dev (_sigOut this)) /\
    (forall beats t m,
       tick_of this beats dev = Some t ->
       in_int (t - _lastUpdate this) = true ->
       mute_is this dev m -> (m == 0)%Q ->
       exists this' dev' out dev1,
         update this beats dev = Some (this', dev', out) /\
         dev1 = (if t =? _lastUpdate this then dev else captured this dev) /\
         last (calls_since dev dev') call_graph_add_cb = copy_out this dev1 /\
         mpr_sig_get_value dev' (_sigOut this) =
           option_map (firstn (_vectorSize this))
             (mpr_sig_get_value dev1 (_sigLocalReceive this))).
Proof.
  intros H F before this dev R.
  destruct (new_inv _ _ _ _ _ _ _ _ F H) as [n [-> [L [V [-> ->]]]]].
  apply run_keeps in R. destruct R as [[t0 ->] D].
  set (this := set_lastUpdate (first_track type vs) t0).
  assert (N : _sigOut this <> _sigLocalSend this) by (cbn; discriminate).
  assert (A : _sigMute this <> _sigLocalSend this) by (cbn; discriminate).
  assert (O : forall d : Bus, declared d = declared dev ->
    exists s, assoc (_sigOut this) (signals d) = Some s /\
              sig_len s = _vectorSize this).
  { intros d E. rewrite D in E.
    apply (f_equal (assoc (_sigOut this))) in E.
    rewrite declared_assoc in E.
    destruct (assoc (_sigOut this) (signals d)) as [s|]; [|discriminate].
    exists s. split; [reflexivity|].
    apply (f_equal (option_map sig_len)) in E. cbn in E.
    now injection E. }
  assert (Vs : _vectorSize this <> 0%nat) by (cbn; lia).
  split; [|split].
  - intros steps M Lv.
    destruct (muted_run steps _ _ _ this dev eq_refl eq_refl eq_refl N A M Lv)
      as [this' [dev' [l [R [Vl [G W]]]]]].
    exists this', dev'. split; [exact R|]. split; [exact Vl|].
    now rewrite (calls_since_app _ _ l).
  - intros beats t m T Dn Rg Mu Nz.
    rewrite (update_moved _ _ _ t true);
      [|assumption|assumption|assumption|now apply (muted_set _ _ m)|assumption].
    do 3 eexists. split; [reflexivity|].
    split; [apply calls_since_app, captured_log|].
    now apply captured_other.
  - intros beats t m T Rg Mu Z.
    pose proof (muted_clear _ _ _ Mu Z) as Mf.
    destruct (Z.eq_dec t (_lastUpdate this)) as [E|Dn].
    + subst t. rewrite (update_same _ _ _ false) by assumption.
      rewrite Z.eqb_refl.
      do 4 eexists. split; [reflexivity|]. split; [reflexivity|]. split.
      * now rewrite (calls_since_app _ _ [copy_out this dev]) by apply copied_log.
      * destruct (O dev eq_refl) as [s [As W]]. now apply (copied_value _ _ s).
    + rewrite (update_moved _ _ _ t false) by assumption.
      apply Z.eqb_neq in Dn. rewrite Dn.
      do 4 eexists. split; [reflexivity|]. split; [reflexivity|]. split.
      * rewrite (calls_since_app _ _
                   [capture this dev; copy_out this (captured this dev)]);
          [reflexivity|].
        rewrite copied_log, captured_log, <- app_assoc. reflexivity.
      * destruct (O (captured this dev)) as [s [As W]];
          [apply declared_set_value|].
        now apply (copied_value _ _ s).
Qed.

Lemma mute_gates_the_output_witness :
  (mute_is demo_loop muted_bus 1 /\
   (exists this' dev',
      run demo_loop muted_bus muted_steps = Some (this', dev') /\
      mpr_sig_get_value dev' (_sigOut demo_loop) =
        mpr_sig_get_value muted_bus (_sigOut demo_loop) /\
      existsb (writes_to (_sigOut demo_loop)) (calls_since muted_bus dev') = false) /\
   (exists this' dev' out,
      update demo_loop (dbl (1 # 5)) muted_bus = Some (this', dev', out) /\
      calls_since muted_bus dev' = [capture demo_loop muted_bus] /\
      mpr_sig_get_value dev' (_sigOut demo_loop) =
        mpr_sig_get_value muted_bus (_sigOut demo_loop))) /\
  (mute_is demo_loop demo_bus 0 /\
   exists this' dev' out dev1,
     update demo_loop (dbl (1 # 5)) demo_bus = Some (this', dev', out) /\
     dev1 = (if 3 =? _lastUpdate demo_loop then demo_bus
             else captured demo_loop demo_bus) /\
     last (calls_since demo_bus dev') call_graph_add_cb = copy_out demo_loop dev1 /\
     mpr_sig_get_value dev' (_sigOut demo_loop) =
       option_map (firstn (_vectorSize demo_loop))
         (mpr_sig_get_value dev1 (_sigLocalReceive demo_loop))).
Proof.
  assert (F : name_fits "loop") by (unfold name_fits; simpl; lia).
  assert (B : Loop_new quiet 3 "loop" (new_bus (Some 2%nat)) MPR_FLT 1 =
              Some (demo_loop, demo_bus)) by (vm_compute; reflexivity).
  pose proof (mute_gates_the_output quiet 3 "loop" (Some 2%nat) MPR_FLT 1
                demo_loop demo_bus B F) as G.
  split.
  - destruct (G [bus_writes (_sigMute demo_loop) (Some [1%Q])] demo_loop muted_bus
                eq_refl) as [G1 [G2 _]].
    split; [vm_compute; reflexivity|]. split.
    + apply G1; vm_compute; reflexivity.
    + apply (G2 (dbl (1 # 5)) 3 1%Q).
      * vm_compute. reflexivity.
      * vm_compute. discriminate.
      * vm_compute. reflexivity.
      * vm_compute. reflexivity.
      * vm_compute. discriminate.
  - destruct (G [] demo_loop demo_bus eq_refl) as [_ [_ G3]].
    split; [vm_compute; reflexivity|].
    apply (G3 (dbl (1 # 5)) 3 0%Q).
    + vm_compute. reflexivity.
    + vm_compute. reflexivity.
    + vm_compute. reflexivity.
    + reflexivity.
Defined.

(** Calls that find the tick where it was only copy to the output. *)
Lemma still_run this m bs : forall dev,
  _sigDivision this <> _sigOut this ->
  _sigMute this <> _sigOut this ->
  muted_of this dev = Some m ->
  Forall (fun b => tick_of this b dev = Some (_lastUpdate this)) bs ->
  exists dev' l,
    updates this dev bs = Some (this, dev', []) /\
    log dev' = (log dev ++ l)%list /\
    Forall (fun c => exists d, c = copy_out this d) l /\
    muted_of this dev' = Some m /\
    (forall b, tick_of this b dev' = tick_of this b dev) /\
    (forall s, s <> _sigOut this ->
       mpr_sig_get_value dev' s = mpr_sig_get_value dev s).
Proof.
  induction bs as [|b bs IH]; intros dev N1 N2 M T.
  - exists dev, []. cbn. rewrite app_nil_r. repeat split; auto.
  - inversion T as [|? ? Tb Tbs]; subst.
    cbn [updates]. rewrite (update_same _ _ _ m) by assumption. cbn [obind].
    destruct m.
    + destruct (IH dev N1 N2 M Tbs) as [dev' [l [U R]]].
      exists dev', l. rewrite U. cbn. split; [reflexivity|exact R].
    + assert (M' : muted_of this (copied this dev) = Some false).
      { unfold muted_of. now rewrite copied_other. }
      assert (T' : forall b, tick_of this b (copied this dev) = tick_of this b dev).
      { intros b'. unfold tick_of. now rewrite copied_other. }
      destruct (IH (copied this dev) N1 N2 M') as [dev' [l [U [G [C [M2 [T2 V]]]]]]].
      { eapply Forall_impl; [|exact Tbs]. intros b' H. now rewrite T'. }
      exists dev', (copy_out this dev :: l). rewrite U. cbn.
      split; [reflexivity|]. split; [|split; [|split; [|split]]].
      * rewrite G, copied_log, <- app_assoc. reflexivity.
      * constructor; [now exists dev|exact C].
      * exact M2.
      * intros b'. now rewrite T2, T'.
      * intros s Ns. rewrite V by assumption. now apply copied_other.
Qed.

(** C10, as amended: a track that has just been constructed stores 0 as
    its last tick index.  As long as the calls of [update] derive the tick
    index 0 (the product of the beat position and the division, 16,
    truncated toward zero) they print nothing and capture nothing: all they
    do is copy local/recv to the output.  The first call that derives
    another index captures the input into local/send and stores the
    index. *)
Theorem first_capture_waits_for_a_tick mem fuel name h type vs this dev :
  Loop_new mem fuel name (new_bus h) type vs = Some (this, dev) ->
  name_fits name ->
  _lastUpdate this = 0 /\
  forall bs,
    Forall (fun b : double => Qtrunc (b * 16) = 0) bs ->
    exists dev' calls,
      updates this dev bs = Some (this, dev', []) /\
      calls_since dev dev' = calls /\
      existsb (writes_to (_sigLocalSend this)) calls = false /\
      Forall (fun c => exists d, c = copy_out this d) calls /\
      forall (b : double) t,
        double_to_int (b * 16) = Some t ->
        t <> 0 ->
        exists dev'' out,
          update this b dev' = Some (set_lastUpdate this t, dev'', out) /\
          hd_error (calls_since dev' dev'') = Some (capture this dev').
Proof.
  intros H F. split; [eapply new_lastUpdate; eassumption|].
  destruct (new_inv _ _ _ _ _ _ _ _ F H) as [n [-> [L [V [-> ->]]]]].
  intros bs Z.
  set (dev := Build_Bus 10 _ _ _ _ _).
  assert (M : muted_of (first_track type vs) dev = Some false) by reflexivity.
  assert (T : forall b : double,
             tick_of (first_track type vs) b dev = double_to_int (b * 16)).
  { intros b. unfold tick_of. change (deref _) with (Some 16%Q). cbn [obind].
    apply tick_16. }
  destruct (still_run (first_track type vs) false bs dev) as
    [dev' [l [U [G [C [M2 [T2 V2]]]]]]]; try assumption.
  { cbn. discriminate. }
  { cbn. discriminate. }
  { eapply Forall_impl; [|exact Z]. intros b E. rewrite T.
    unfold double_to_int. rewrite E. reflexivity. }
  exists dev', l. split; [exact U|].
  split; [now apply calls_since_app|].
  split; [|split; [exact C|]].
  - clear - C. induction C as [|c l [d ->] _ IH]; [reflexivity|].
    cbn. exact IH.
  - intros b t D N.
    rewrite (update_moved _ _ _ t false); try assumption.
    + do 2 eexists. split; [reflexivity|].
      rewrite (calls_since_app _ _
                 [capture (first_track type vs) dev';
                  copy_out (first_track type vs) (captured (first_track type vs) dev')]);
        [reflexivity|].
      rewrite copied_log, captured_log, <- app_assoc. reflexivity.
    + now rewrite T2, T.
    + cbn [_lastUpdate first_track]. rewrite Z.sub_0_r.
      unfold double_to_int in D. apply to_int_some in D. destruct D as [-> D]. exact D.
    + cbn. discriminate.
Qed.

Lemma first_capture_waits_for_a_tick_witness :
  _lastUpdate demo_loop = 0 /\
  forall bs,
    Forall (fun b : double => Qtrunc (b * 16) = 0) bs ->
    exists dev' calls,
      updates demo_loop demo_bus bs = Some (demo_loop, dev', []) /\
      calls_since demo_bus dev' = calls /\
      existsb (writes_to (_sigLocalSend demo_loop)) calls = false /\
      Forall (fun c => exists d, c = copy_out demo_loop d) calls /\
      forall (b : double) t,
        double_to_int (b * 16) = Some t ->
        t <> 0 ->
        exists dev'' out,
          update demo_loop b dev' = Some (set_lastUpdate demo_loop t, dev'', out) /\
          hd_error (calls_since dev' dev'') = Some (capture demo_loop dev').
Proof.
  apply (first_capture_waits_for_a_tick quiet 3 "loop" (Some 2%nat) MPR_FLT 1
           demo_loop demo_bus).
  - vm_compute. reflexivity.
  - unfold name_fits. simpl. lia.
Defined.

(** C10 as stated fails on the floor: on a new track a call at beat -0.05
    has a product whose floor is -1, not 0, and yet captures nothing. *)
Lemma first_call_below_zero_captures_nothing :
  exists this' dev' out,
    demo = Some (demo_loop, demo_bus) /\
    Qfloor (dbl (-1 # 20) * 16) = -1 /\
    update demo_loop (dbl (-1 # 20)) demo_bus = Some (this', dev', out) /\
    existsb (writes_to (_sigLocalSend demo_loop)) (calls_since demo_bus dev') = false /\
    _lastUpdate this' = 0.
Proof.
  do 3 eexists. split; [exact demo_built|].
  split; [vm_compute; reflexivity|].
  split; [vm_compute; reflexivity|].
  split; vm_compute; reflexivity.
Qed.

(** ** Destruction *)

Lemma prefix_append (a b : string) : String.prefix a (a ++ b) = true.
Proof.
  induction a as [|c a IH]; cbn; [now destruct b|].
  destruct (ascii_dec c c) as [_|N]; [exact IH|now elim N].
Qed.

(** C6 fails on the code: the destructor frees eight of the nine endpoints.
    After a track has been constructed on a device of its own and destroyed
    again, the device still exposes the mute endpoint of the track, under a
    name that starts with the name of the track. *)
Theorem destructor_leaves_mute mem name type vs n fuel :
  name_fits name -> (1 <= vs)%nat -> (n < fuel)%nat ->
  exists this dev,
    Loop_new mem fuel name (new_bus (Some n)) type vs = Some (this, dev) /\
    local_names dev = endpoint_names name /\
    calls_since dev (Loop_delete this dev) =
      List.map call_sig_free
        [ _sigRecord this; _sigLength this; _sigModulation this;
          _sigDivision this; _sigIn this; _sigOut this;
          _sigLocalReceive this; _sigLocalSend this ] /\
    local_names (Loop_delete this dev) = [snprintf 128 name "control/mute"] /\
    String.prefix name (snprintf 128 name "control/mute") = true /\
    mpr_sig_get_value (Loop_delete this dev) (_sigMute this) = Some [0%Q].
Proof.
  intros F V L. do 2 eexists.
  split; [now apply new_fresh|].
  split; [reflexivity|].
  split; [apply calls_since_app; cbn; rewrite <- !app_assoc; reflexivity|].
  split; [reflexivity|].
  split; [|reflexivity].
  rewrite snprintf_fits by (assumption || (cbn; lia)).
  apply prefix_append.
Qed.

Lemma destructor_leaves_mute_witness :
  exists this dev,
    Loop_new quiet 3 "loop" (new_bus (Some 2%nat)) MPR_FLT 1 = Some (this, dev) /\
    local_names dev = endpoint_names "loop" /\
    calls_since dev (Loop_delete this dev) =
      List.map call_sig_free
        [ _sigRecord this; _sigLength this; _sigModulation this;
          _sigDivision this; _sigIn this; _sigOut this;
          _sigLocalReceive this; _sigLocalSend this ] /\
    local_names (Loop_delete this dev) = [snprintf 128 "loop" "control/mute"] /\
    String.prefix "loop" (snprintf 128 "loop" "control/mute") = true /\
    mpr_sig_get_value (Loop_delete this dev) (_sigMute this) = Some [0%Q].
Proof.
  apply (destructor_leaves_mute quiet "loop" MPR_FLT 1 2 3).
  - unfold name_fits. simpl. lia.
  - lia.
  - lia.
Defined.

(** ** Late binding *)

Lemma compare_refl (s : string) : String.compare s s = Eq.
Proof.
  pose proof (String.compare_antisym s s) as H.
  destruct (String.compare s s); cbn in H; congruence.
Qed.

Lemma strcmp_zero (a b : string) : (strcmp a b =? 0) = String.eqb a b.
Proof.
  unfold strcmp. destruct (String.eqb_spec a b) as [->|N].
  - now rewrite compare_refl.
  - destruct (String.compare a b) eqn:C; try reflexivity.
    apply String.compare_eq_iff in C. contradiction.
Qed.

Lemma update_assoc_last {A} (k : nat) (f : A -> A) (a : A) l :
  forallb (fun e => Nat.ltb (fst e) k) l = true ->
  update_assoc k f (l ++ [(k, a)]) = (l ++ [(k, f a)])%list.
Proof.
  induction l as [|[j b] l IH]; cbn; intros H.
  - now rewrite Nat.eqb_refl.
  - apply andb_true_iff in H. destruct H as [H1 H2].
    apply Nat.ltb_lt in H1.
    destruct (Nat.eqb k j) eqn:E; [apply Nat.eqb_eq in E; lia|].
    now rewrite IH.
Qed.

(** A new connection, pushed. *)
Lemma push_new (g : Bus) src dst :
  well_numbered g = true ->
  (let '(m, g1) := mpr_map_new g [src] [dst] in mpr_obj_push g1 m) =
  Build_Bus (S (next_id g)) (signals g)
    (maps g ++ [(next_id g, link g src dst)]) (callbacks g) (handshake g)
    (log g ++ [call_map_new [src] [dst]; call_obj_push (next_id g)]).
Proof.
  intros W. unfold mpr_map_new, mpr_obj_push, logged, set_maps, fresh. cbn.
  rewrite update_assoc_last by exact W.
  rewrite <- app_assoc. reflexivity.
Qed.

Lemma connected_eq (g : Bus) src dst :
  well_numbered g = true ->
  connected g src dst =
  Build_Bus (S (next_id g)) (signals g)
    (maps g ++ [(next_id g, link g src dst)]) (callbacks g) (handshake g)
    (log g ++ [call_map_new [src] [dst]; call_obj_push (next_id g)]).
Proof. apply push_new. Qed.

Lemma connected_numbered (g : Bus) src dst :
  well_numbered g = true -> well_numbered (connected g src dst) = true.
Proof.
  intros W. rewrite connected_eq by exact W. unfold well_numbered in *. cbn.
  rewrite forallb_app. cbn.
  rewrite andb_true_iff. split.
  - rewrite forallb_forall in *. intros e I. apply W in I.
    apply Nat.ltb_lt in I. first [apply Nat.ltb_lt|apply Nat.leb_le]; lia.
  - rewrite andb_true_r. first [apply Nat.ltb_lt|apply Nat.leb_le]; lia.
Qed.

Lemma connected_maps (g : Bus) src dst :
  well_numbered g = true ->
  maps_since g (connected g src dst) = [link g src dst].
Proof.
  intros W. rewrite connected_eq by exact W. unfold maps_since. cbn.
  now rewrite skipn_app, Nat.sub_diag, skipn_all.
Qed.

Lemma from_event mem (g : Bus) p dst obj evt found wanted target :
  named g obj found ->
  chars mem p = Some wanted ->
  read_member mem dst = Some target ->
  run_callback mem g obj evt (mapFrom_handler p dst) =
  Some (if String.eqb wanted found then connected g obj target else g).
Proof.
  unfold named. intros N C R. cbn [run_callback]. rewrite N, C. cbn [obind].
  rewrite strcmp_zero. destruct (String.eqb wanted found); [|reflexivity].
  now rewrite R.
Qed.

Lemma to_event mem (g : Bus) p src obj evt found wanted source :
  named g obj found ->
  chars mem p = Some wanted ->
  read_member mem src = Some source ->
  run_callback mem g obj evt (mapTo_handler src p) =
  Some (if String.eqb wanted found then connected g source obj else g).
Proof.
  unfold named. intros N C R. cbn [run_callback]. rewrite N, C. cbn [obind].
  rewrite strcmp_zero. destruct (String.eqb wanted found); [|reflexivity].
  now rewrite R.
Qed.

Lemma read_member_alive mem self this field :
  objects mem self = Some this -> read_member mem (self, field) = Some (field this).
Proof. intros O. unfold read_member. cbn [fst snd]. now rewrite O. Qed.

Section OneRequest.

Variables (mem : Store) (g : Bus) (P : string).
Hypothesis alone : callbacks g = [].
Hypothesis numbered : well_numbered g = true.

(** [cb] is the observer of the request,
    [src] and [dst] the ends of the connection for an object. *)
Variables (cb : callback) (src dst : mpr_sig -> mpr_sig).

Hypothesis fires : forall (b : Bus) obj evt found,
  named b obj found ->
  run_callback mem b obj evt cb =
  Some (if String.eqb P found then connected b (src obj) (dst obj) else b).

Lemma request_registers :
  callbacks (mpr_graph_add_cb g cb) = [cb] /\ signals (mpr_graph_add_cb g cb) = signals g /\ maps (mpr_graph_add_cb g cb) = maps g.
Proof. unfold mpr_graph_add_cb. cbn. now rewrite alone. Qed.

Lemma request_ignores evs :
  Forall (fun e => exists n, named g (fst e) n /\ n <> P) evs ->
  graph_events mem (mpr_graph_add_cb g cb) evs = Some (mpr_graph_add_cb g cb).
Proof.
  induction 1 as [|[obj evt] evs [n [N D]] _ IH]; [reflexivity|].
  cbn [graph_events]. unfold graph_event.
  replace (callbacks (mpr_graph_add_cb g cb)) with [cb] by (symmetry; apply request_registers).
  cbn [run_callbacks]. rewrite (fires _ _ _ n) by exact N.
  apply not_eq_sym, String.eqb_neq in D. rewrite D. cbn [obind]. exact IH.
Qed.

Lemma request_fires obj evt found :
  named g obj found ->
  exists g2,
    graph_event mem (mpr_graph_add_cb g cb) obj evt = Some g2 /\
    (found = P -> maps_since (mpr_graph_add_cb g cb) g2 = [link g (src obj) (dst obj)]) /\
    (found <> P -> g2 = (mpr_graph_add_cb g cb)).
Proof.
  intros N. unfold graph_event.
  replace (callbacks (mpr_graph_add_cb g cb)) with [cb] by (symmetry; apply request_registers).
  cbn [run_callbacks]. rewrite (fires _ _ _ found) by exact N. cbn [obind].
  eexists. split; [reflexivity|]. split.
  - intros ->. rewrite String.eqb_refl. now apply (connected_maps (mpr_graph_add_cb g cb)).
  - intros D. apply not_eq_sym, String.eqb_neq in D. now rewrite D.
Qed.

Lemma request_fires_again obj1 evt1 obj2 evt2 :
  named g obj1 P -> named g obj2 P ->
  exists g2 g3,
    graph_event mem (mpr_graph_add_cb g cb) obj1 evt1 = Some g2 /\
    callbacks g2 = callbacks (mpr_graph_add_cb g cb) /\
    graph_event mem g2 obj2 evt2 = Some g3 /\
    callbacks g3 = callbacks (mpr_graph_add_cb g cb) /\
    maps_since (mpr_graph_add_cb g cb) g3 =
      [link g (src obj1) (dst obj1); link g (src obj2) (dst obj2)].
Proof.
  intros N1 N2.
  assert (W1 : well_numbered (mpr_graph_add_cb g cb) = true) by exact numbered.
  exists (connected (mpr_graph_add_cb g cb) (src obj1) (dst obj1)).
  exists (connected (connected (mpr_graph_add_cb g cb) (src obj1) (dst obj1)) (src obj2) (dst obj2)).
  assert (C : callbacks (connected (mpr_graph_add_cb g cb) (src obj1) (dst obj1)) = callbacks (mpr_graph_add_cb g cb))
    by now rewrite connected_eq.
  split; [|split; [exact C|split; [|split]]].
  - unfold graph_event.
    replace (callbacks (mpr_graph_add_cb g cb)) with [cb] by (symmetry; apply request_registers).
    cbn [run_callbacks]. rewrite (fires _ _ _ P) by exact N1.
    now rewrite String.eqb_refl.
  - unfold graph_event. rewrite C.
    replace (callbacks (mpr_graph_add_cb g cb)) with [cb] by (symmetry; apply request_registers).
    cbn [run_callbacks]. rewrite (fires _ _ _ P).
    + now rewrite String.eqb_refl.
    + unfold named in *. now rewrite connected_eq.
  - rewrite connected_eq by now apply connected_numbered.
    cbn [callbacks]. exact C.
  - rewrite (connected_eq (connected _ _ _)) by now apply connected_numbered.
    rewrite connected_eq by exact W1.
    unfold maps_since. cbn.
    rewrite <- app_assoc, skipn_app, Nat.sub_diag, skipn_all. reflexivity.
Qed.

End OneRequest.

Ltac one_of_inbound I :=
  cbn [inbound In] in I;
  repeat (destruct I as [I|I]; [injection I as <- <-|]); [..|contradiction].




(** C8 as stated fails: the request keeps the caller's pointer.  After the
    caller has put another name into the buffer, the event about the
    endpoint called "knob", the name asked for, installs nothing, and the
    event about the endpoint called "fader" installs a connection.  After
    the track object is gone the handler reads a dangling pointer. *)
Lemma binding_follows_the_buffer :
  let g1 := mapInput 100 peers_bus 200 in
  chars knob_memory 200 = Some "knob"%string /\
  chars reused_memory 200 = Some "fader"%string /\
  named g1 10 "knob" /\ named g1 12 "fader" /\
  graph_event reused_memory g1 10 MPR_OBJ_NEW = Some g1 /\
  (exists g2,
     graph_event reused_memory g1 12 MPR_OBJ_NEW = Some g2 /\
     maps_since g1 g2 = [link peers_bus 12 (_sigIn peers_loop)]) /\
  objects gone_memory 100 = None /\
  graph_event gone_memory g1 10 MPR_OBJ_NEW = None.
Proof.
  cbv zeta.
  split; [reflexivity|]. split; [reflexivity|].
  split; [vm_compute; reflexivity|]. split; [vm_compute; reflexivity|].
  split; [vm_compute; reflexivity|].
  split; [eexists; split; vm_compute; reflexivity|].
  split; [reflexivity|]. vm_compute. reflexivity.
Qed.


(** C9 as stated fails: once the caller has put another name into the
    buffer, a second event about an endpoint of the name asked for installs
    nothing, although the observer is still registered. *)
Lemma second_event_misses_after_reuse :
  let g1 := mapInput 100 peers_bus 200 in
  named g1 10 "knob" /\ named g1 11 "knob" /\
  exists g2,
    graph_event knob_memory g1 10 MPR_OBJ_NEW = Some g2 /\
    maps_since g1 g2 = [link peers_bus 10 (_sigIn peers_loop)] /\
    callbacks g2 = callbacks g1 /\
    graph_event reused_memory g2 11 MPR_OBJ_NEW = Some g2.
Proof.
  cbv zeta.
  split; [vm_compute; reflexivity|]. split; [vm_compute; reflexivity|].
  eexists. split; [vm_compute; reflexivity|].
  split; [vm_compute; reflexivity|].
  split; vm_compute; reflexivity.
Qed.

(** * Further properties of the class *)

(** ** Endpoint names *)

Lemma append_cancel (p a b : string) : (p ++ a = p ++ b)%string -> a = b.
Proof.
  induction p as [|c p IH]; cbn; [trivial|]. intros H. injection H as H. auto.
Qed.

Lemma substring_prefix (s t : string) n :
  (n <= String.length s)%nat -> substring 0 n (s ++ t) = substring 0 n s.
Proof.
  revert n. induction s as [|c s IH]; intros [|n] L; cbn in *;
    try reflexivity; try lia.
  - now destruct t.
  - f_equal. apply IH. lia.
Qed.

Lemma substring_length (s : string) : forall n,
  (String.length (substring 0 n s) <= n)%nat.
Proof.
  induction s as [|c s IH]; intros [|n]; cbn; try lia.
  specialize (IH n). lia.
Qed.

(** X1.  The names the constructor builds with [snprintf] into its 128-byte
    buffer: never longer than 127 characters; for a track name of at most
    108 characters they are the track name, a slash and the suffix, all
    nine different; for a track name of 127 characters or more the suffix
    is cut off altogether and the nine names are one and the same. *)
Theorem endpoint_names_in_the_buffer name :
  Forall (fun n => (String.length n <= 127)%nat) (endpoint_names name) /\
  (name_fits name ->
     endpoint_names name = List.map (fun sfx => (name ++ "/" ++ sfx)%string) suffixes /\
     NoDup (endpoint_names name)) /\
  ((127 <= String.length name)%nat ->
     endpoint_names name = repeat (substring 0 127 name) 9).
Proof.
  split; [|split].
  - unfold endpoint_names. apply Forall_map, Forall_forall. intros sfx _.
    apply substring_length.
  - intros F.
    assert (E : endpoint_names name =
                List.map (fun sfx => (name ++ "/" ++ sfx)%string) suffixes).
    { unfold endpoint_names, suffixes. cbn [List.map].
      rewrite !snprintf_fits by (assumption || (cbn; lia)). reflexivity. }
    split; [exact E|]. rewrite E.
    apply Injective_map_NoDup.
    + intros a b H. apply append_cancel in H. cbn in H. now injection H.
    + unfold suffixes.
      repeat (constructor; [cbn; intuition discriminate|]). constructor.
  - intros L. unfold endpoint_names, suffixes, snprintf. cbn [List.map repeat].
    change (128 - 1)%nat with 127%nat.
    rewrite !(substring_prefix name) by exact L. reflexivity.
Qed.

(** ** The constructor *)

(** X2.  On a device that has just joined, the constructor of a track whose
    name fits declares nine endpoints under the nine names: seven outputs
    and the two inputs input and local/recv; the five controls are single
    values, float but for the int mute, length in beats from 0 to 100,
    division in ppqn from 1 to 96, the others from 0 to 1; the four signal
    endpoints have the width and type of the track.  It returns with
    length at 1, division at 16, record, modulation and mute at 0, the loop
    map ready, and from then on [update] returns for every beat position
    whose tick fits an [int]. *)
Theorem constructor_postcondition mem name type vs n fuel :
  name_fits name -> (1 <= vs)%nat -> (n < fuel)%nat ->
  exists this dev,
    Loop_new mem fuel name (new_bus (Some n)) type vs = Some (this, dev) /\
    List.map (fun e => described (snd e)) (signals dev) =
      (let lo := cells mem "sigMin" 0 type vs in
       let hi := cells mem "sigMax" 1 type vs in
       [ (snprintf 128 name "control/record", MPR_DIR_OUT, 1%nat, MPR_FLT, None,
          [0%Q], [1%Q]);
         (snprintf 128 name "control/length", MPR_DIR_OUT, 1%nat, MPR_FLT,
          Some "beats"%string, [0%Q], [100%Q]);
         (snprintf 128 name "control/division", MPR_DIR_OUT, 1%nat, MPR_FLT,
          Some "ppqn"%string, [1%Q], [96%Q]);
         (snprintf 128 name "control/modulation", MPR_DIR_OUT, 1%nat, MPR_FLT, None,
          [0%Q], [1%Q]);
         (snprintf 128 name "control/mute", MPR_DIR_OUT, 1%nat, MPR_INT32, None,
          [0%Q], [1%Q]);
         (snprintf 128 name "input", MPR_DIR_IN, vs, type, None, lo, hi);
         (snprintf 128 name "output", MPR_DIR_OUT, vs, type, None, lo, hi);
         (snprintf 128 name "local/send", MPR_DIR_OUT, vs, type, None, lo, hi);
         (snprintf 128 name "local/recv", MPR_DIR_IN, vs, type, None, lo, hi) ]) /\
    List.map (mpr_sig_get_value dev)
      [ _sigRecord this; _sigLength this; _sigDivision this; _sigModulation this;
        _sigMute this ] =
      [ Some [0%Q]; Some [1%Q]; Some [16%Q]; Some [0%Q]; Some [0%Q] ] /\
    NoDup [ _sigRecord this; _sigLength this; _sigDivision this;
            _sigModulation this; _sigMute this; _sigIn this; _sigOut this;
            _sigLocalSend this; _sigLocalReceive this ] /\
    mpr_map_get_is_ready dev (_loopMap this) = true /\
    _type this = type /\ _vectorSize this = vs /\
    forall beats : double,
      in_int (Qtrunc (beats * 16)) = true ->
      exists this' dev' out, update this beats dev = Some (this', dev', out).
Proof.
  intros F V L. do 2 eexists.
  split; [now apply new_fresh|].
  split; [reflexivity|]. split; [reflexivity|].
  split; [repeat (constructor; [cbn; intuition discriminate|]); constructor|].
  split; [reflexivity|]. split; [reflexivity|]. split; [reflexivity|].
  intros beats R.
  set (this := first_track type vs). set (dev := Build_Bus _ _ _ _ _ _).
  assert (T : tick_of this beats dev = Some (Qtrunc (beats * 16))).
  { unfold tick_of. cbn [obind]. change (deref _) with (Some 16%Q). cbn [obind].
    rewrite tick_16. unfold double_to_int. now apply to_int_in. }
  assert (M : muted_of this dev = Some false) by reflexivity.
  destruct (Z.eq_dec (Qtrunc (beats * 16)) (_lastUpdate this)) as [E|N].
  - rewrite E in T. rewrite (update_same _ _ _ false) by assumption.
    now do 3 eexists.
  - rewrite (update_moved _ _ _ (Qtrunc (beats * 16)) false); try assumption.
    + now do 3 eexists.
    + cbn [_lastUpdate this first_track]. now rewrite Z.sub_0_r.
    + cbn. discriminate.
Qed.

Lemma constructor_postcondition_witness :
  exists this dev,
    Loop_new quiet 3 "loop" (new_bus (Some 2%nat)) MPR_FLT 1 = Some (this, dev) /\
    List.map (fun e => described (snd e)) (signals dev) =
      (let lo := cells quiet "sigMin" 0 MPR_FLT 1 in
       let hi := cells quiet "sigMax" 1 MPR_FLT 1 in
       [ (snprintf 128 "loop" "control/record", MPR_DIR_OUT, 1%nat, MPR_FLT, None,
          [0%Q], [1%Q]);
         (snprintf 128 "loop" "control/length", MPR_DIR_OUT, 1%nat, MPR_FLT,
          Some "beats"%string, [0%Q], [100%Q]);
         (snprintf 128 "loop" "control/division", MPR_DIR_OUT, 1%nat, MPR_FLT,
          Some "ppqn"%string, [1%Q], [96%Q]);
         (snprintf 128 "loop" "control/modulation", MPR_DIR_OUT, 1%nat, MPR_FLT, None,
          [0%Q], [1%Q]);
         (snprintf 128 "loop" "control/mute", MPR_DIR_OUT, 1%nat, MPR_INT32, None,
          [0%Q], [1%Q]);
         (snprintf 128 "loop" "input", MPR_DIR_IN, 1%nat, MPR_FLT, None, lo, hi);
         (snprintf 128 "loop" "output", MPR_DIR_OUT, 1%nat, MPR_FLT, None, lo, hi);
         (snprintf 128 "loop" "local/send", MPR_DIR_OUT, 1%nat, MPR_FLT, None, lo, hi);
         (snprintf 128 "loop" "local/recv", MPR_DIR_IN, 1%nat, MPR_FLT, None, lo, hi) ]) /\
    List.map (mpr_sig_get_value dev)
      [ _sigRecord this; _sigLength this; _sigDivision this; _sigModulation this;
        _sigMute this ] =
      [ Some [0%Q]; Some [1%Q]; Some [16%Q]; Some [0%Q]; Some [0%Q] ] /\
    NoDup [ _sigRecord this; _sigLength this; _sigDivision this;
            _sigModulation this; _sigMute this; _sigIn this; _sigOut this;
            _sigLocalSend this; _sigLocalReceive this ] /\
    mpr_map_get_is_ready dev (_loopMap this) = true /\
    _type this = MPR_FLT /\ _vectorSize this = 1%nat /\
    forall beats : double,
      in_int (Qtrunc (beats * 16)) = true ->
      exists this' dev' out, update this beats dev = Some (this', dev', out).
Proof.
  apply (constructor_postcondition quiet "loop" MPR_FLT 1 2 3).
  - unfold name_fits. simpl. lia.
  - lia.
  - lia.
Defined.

(** ** The loop map *)

(** The expression of the loop map renders to the string of the source
    and reads back without ambiguity. *)
Lemma loopMap_expr_renders :
  Expr.render loopMap_expr =
    "del=_%x*_%x;%y=_%x*%x+(1-_%x)*y{-del,100}+_%x*(uniform(2.0)-1)"%string /\
  forallb Expr.unambiguous_stmt loopMap_expr = true.
Proof. split; reflexivity. Qed.

(** X4.  The relation of a track, whatever its handles: local/send is the only
    source written without an underscore; with record at 1 and modulation
    at 0 the value sent to local/recv is the value of local/send, with no
    history in it; with record at 0 and modulation at 0 it is the value the
    history holds length * division samples back (at most 100). *)
Theorem relation_records_and_plays_back (this : Loop) :
  exists p,
    Expr.bind loopMap_expr (loopMap_args this) = Some p /\
    Expr.triggers p = [_sigLocalSend this] /\
    List.map snd (flat_map Expr.stmt_sources p) =
      [ _sigLength this; _sigDivision this; _sigRecord this; _sigLocalSend this;
        _sigRecord this; _sigModulation this ] /\
    flat_map Expr.stmt_dst p = [_sigLocalReceive this] /\
    forall E : Expr.env mpr_sig,
      let record := Expr.sigval E (_sigRecord this) in
      let modulation := Expr.sigval E (_sigModulation this) in
      let length := Expr.sigval E (_sigLength this) in
      let division := Expr.sigval E (_sigDivision this) in
      exists r y,
        Expr.eval E p = Some r /\
        Expr.r_out r = [(_sigLocalReceive this, y)] /\
        ((record == 1)%Q -> (modulation == 0)%Q ->
           (y == Expr.sigval E (_sigLocalSend this))%Q) /\
        ((record == 0)%Q -> (modulation == 0)%Q ->
           (y == Expr.past E (Z.to_nat (Z.min (Qtrunc (length * division)) 100)))%Q).
Proof.
  eexists. split; [apply bind_loopMap|].
  split; [reflexivity|]. split; [reflexivity|]. split; [reflexivity|].
  intros E record modulation length division.
  do 2 eexists. split; [reflexivity|]. cbn.
  fold record modulation length division.
  rewrite lookback_neg.
  split; [reflexivity|]. split; intros R M; rewrite R, M; ring.
Qed.

(** ** [update] *)

Lemma set_value_frame (dev : Bus) sig len type val :
  maps (mpr_sig_set_value dev sig len type val) = maps dev /\
  callbacks (mpr_sig_set_value dev sig len type val) = callbacks dev /\
  next_id (mpr_sig_set_value dev sig len type val) = next_id dev.
Proof.
  unfold mpr_sig_set_value. cbn.
  destruct (assoc sig (signals dev)); [|now repeat split].
  destruct val; [|now repeat split].
  destruct (Nat.eqb len 0); [now repeat split|].
  destruct (Nat.eqb len _); now repeat split.
Qed.

Lemma update_effect this beats dev this' dev' out :
  update this beats dev = Some (this', dev', out) ->
  this' = set_lastUpdate this (_lastUpdate this') /\
  tick_of this beats dev = Some (_lastUpdate this') /\
  (exists dev1,
     (dev1 = dev \/ dev1 = captured this dev) /\
     (dev' = dev1 \/ dev' = copied this dev1) /\
     (dev1 = dev <-> _lastUpdate this' = _lastUpdate this)) /\
  (forall s, s <> _sigLocalSend this -> s <> _sigOut this ->
     mpr_sig_get_value dev' s = mpr_sig_get_value dev s) /\
  maps dev' = maps dev /\ callbacks dev' = callbacks dev /\
  (List.length out <= 1)%nat.
Proof.
  intros U. rewrite update_unfold in U.
  destruct (tick_of this beats dev) as [t|]; [cbn [obind] in U|discriminate].
  destruct (t =? _lastUpdate this) eqn:E.
  - apply Z.eqb_eq in E. subst t.
    unfold gate in U. destruct (muted_of this dev) as [m|]; [|discriminate].
    cbn [obind] in U. injection U as <- <- <-.
    split; [now rewrite set_lastUpdate_same|]. split; [reflexivity|].
    split; [exists dev; split; [now left|split; [destruct m; auto|tauto]]|].
    split; [|split; [|split]].
    + intros s _ N. destruct m; [reflexivity|now apply copied_other].
    + destruct m; [reflexivity|apply set_value_frame].
    + destruct m; [reflexivity|apply set_value_frame].
    + cbn. lia.
  - apply Z.eqb_neq in E.
    destruct (int_sub t (_lastUpdate this)) as [d|]; [cbn [obind] in U|discriminate].
    unfold gate in U.
    destruct (muted_of _ _) as [m|]; [|discriminate].
    cbn [obind] in U. injection U as <- <- <-.
    split; [reflexivity|]. split; [reflexivity|].
    split.
    { exists (captured this dev). split; [now right|].
      split; [destruct m; auto|]. cbn [_lastUpdate set_lastUpdate]. split.
      - intros H. exfalso.
        assert (L : log (captured this dev) = log dev) by now rewrite H.
        rewrite captured_log in L.
        apply (f_equal (@List.length _)) in L. rewrite length_app in L.
        cbn in L. lia.
      - intros H. contradiction. }
    split; [|split; [|split]].
    + intros s N1 N2. change (copied (set_lastUpdate this t)) with (copied this).
      destruct m.
      * now apply captured_other.
      * rewrite copied_other by assumption. now apply captured_other.
    + change (copied (set_lastUpdate this t)) with (copied this).
      destruct m; unfold copied, captured;
        rewrite ?(proj1 (set_value_frame _ _ _ _ _)); reflexivity.
    + change (copied (set_lastUpdate this t)) with (copied this).
      destruct m; unfold copied, captured;
        rewrite ?(proj1 (proj2 (set_value_frame _ _ _ _ _))); reflexivity.
    + destruct (1 <? d); cbn; lia.
Qed.

(** X5.  What [update] can do, when it returns: of the object only the stored
    tick changes, and it becomes the tick derived at the call; the bus is
    only ever asked to set local/send (once, first, with the value of the
    input) and the output (once, last); every other endpoint keeps its
    value, and maps and observers are left alone; at most one line is
    printed. *)
Theorem update_touches_send_and_output_only this beats dev this' dev' out :
  update this beats dev = Some (this', dev', out) ->
  this' = set_lastUpdate this (_lastUpdate this') /\
  tick_of this beats dev = Some (_lastUpdate this') /\
  (exists dev1,
     (dev1 = dev \/ dev1 = captured this dev) /\
     (dev' = dev1 \/ dev' = copied this dev1) /\
     (dev1 = dev <-> _lastUpdate this' = _lastUpdate this)) /\
  (forall s, s <> _sigLocalSend this -> s <> _sigOut this ->
     mpr_sig_get_value dev' s = mpr_sig_get_value dev s) /\
  maps dev' = maps dev /\ callbacks dev' = callbacks dev /\
  (List.length out <= 1)%nat.
Proof. apply update_effect. Qed.

Lemma update_touches_send_and_output_only_witness :
  later_loop = set_lastUpdate demo_loop (_lastUpdate later_loop) /\
  tick_of demo_loop (dbl (1 # 5)) demo_bus = Some (_lastUpdate later_loop) /\
  (exists dev1,
     (dev1 = demo_bus \/ dev1 = captured demo_loop demo_bus) /\
     (later_bus = dev1 \/ later_bus = copied demo_loop dev1) /\
     (dev1 = demo_bus <-> _lastUpdate later_loop = _lastUpdate demo_loop)) /\
  (forall s, s <> _sigLocalSend demo_loop -> s <> _sigOut demo_loop ->
     mpr_sig_get_value later_bus s = mpr_sig_get_value demo_bus s) /\
  maps later_bus = maps demo_bus /\ callbacks later_bus = callbacks demo_bus /\
  (List.length [printf_Missed 2] <= 1)%nat.
Proof.
  apply (update_touches_send_and_output_only demo_loop (dbl (1 # 5)) demo_bus
           later_loop later_bus [printf_Missed 2]).
  exact later_built.
Defined.

(** X7.  A second call at the same beat position does nothing new: it returns,
    prints nothing, keeps the stored tick and does not capture; all it does
    is copy local/recv to the output again when the track is not muted. *)
Theorem update_twice_captures_once this beats dev this1 dev1 out1 :
  update this beats dev = Some (this1, dev1, out1) ->
  _sigDivision this <> _sigLocalSend this ->
  _sigDivision this <> _sigOut this ->
  _sigMute this <> _sigLocalSend this ->
  _sigMute this <> _sigOut this ->
  exists m dev2,
    muted_of this dev = Some m /\
    update this1 beats dev1 = Some (this1, dev2, []) /\
    calls_since dev1 dev2 = (if m then [] else [copy_out this dev1]).
Proof.
  intros U D1 D2 M1 M2.
  destruct (update_effect _ _ _ _ _ _ U)
    as [E [T [_ [V _]]]].
  assert (Vd : mpr_sig_get_value dev1 (_sigDivision this) =
               mpr_sig_get_value dev (_sigDivision this)) by now apply V.
  assert (Vm : mpr_sig_get_value dev1 (_sigMute this) =
               mpr_sig_get_value dev (_sigMute this)) by now apply V.
  assert (T1 : tick_of this1 beats dev1 = Some (_lastUpdate this1)).
  { rewrite E at 1. unfold tick_of in *. cbn [_sigDivision set_lastUpdate].
    now rewrite Vd. }
  assert (Mu : exists m, muted_of this dev = Some m).
  { destruct (muted_of this dev) as [m|] eqn:Mu; [now exists m|].
    exfalso. rewrite update_unfold in U.
    destruct (tick_of this beats dev) as [t|]; [cbn [obind] in U|discriminate].
    destruct (t =? _lastUpdate this).
    - unfold gate in U. now rewrite Mu in U.
    - destruct (int_sub _ _); [cbn [obind] in U|discriminate].
      unfold gate in U.
      change (muted_of (set_lastUpdate this t)) with (muted_of this) in U.
      now rewrite muted_captured, Mu in U. }
  destruct Mu as [m Mu]. exists m.
  assert (Mu1 : muted_of this1 dev1 = Some m).
  { rewrite E. unfold muted_of in *. cbn [_sigMute set_lastUpdate]. now rewrite Vm. }
  rewrite (update_same _ _ _ m) by assumption.
  eexists. split; [exact Mu|]. split; [reflexivity|].
  apply calls_since_app. destruct m; [now rewrite app_nil_r|].
  rewrite copied_log. rewrite E. reflexivity.
Qed.

Lemma update_twice_captures_once_witness :
  exists m dev2,
    muted_of demo_loop demo_bus = Some m /\
    update later_loop (dbl (1 # 5)) later_bus = Some (later_loop, dev2, []) /\
    calls_since later_bus dev2 = (if m then [] else [copy_out demo_loop later_bus]).
Proof.
  apply (update_twice_captures_once demo_loop (dbl (1 # 5)) demo_bus later_loop later_bus
           [printf_Missed 2]).
  - exact later_built.
  - vm_compute. discriminate.
  - vm_compute. discriminate.
  - vm_compute. discriminate.
  - vm_compute. discriminate.
Defined.

Lemma Qtrunc_zero q : Qtrunc q = 0 <-> (-1 < q /\ q < 1)%Q.
Proof.
  destruct q as [n d]. unfold Qtrunc, Qlt. cbn.
  rewrite Z.mul_1_r.
  pose proof (Z.quot_rem' n (Zpos d)) as Q.
  split.
  - intros H. rewrite H, Z.mul_0_r, Z.add_0_l in Q.
    destruct (Z.le_gt_cases 0 n) as [P|P].
    + pose proof (Z.rem_bound_pos n (Zpos d) P ltac:(lia)). lia.
    + pose proof (Z.rem_bound_pos_neg n (Zpos d) ltac:(lia) ltac:(lia)). lia.
  - intros [L U]. destruct (Z.le_gt_cases 0 n) as [P|P].
    + apply Z.quot_small. lia.
    + rewrite <- (Z.opp_involutive n), Z.quot_opp_l by lia.
      rewrite Z.quot_small by lia. reflexivity.
Qed.

Lemma Qtrunc_opp q : Qtrunc (- q) = - Qtrunc q.
Proof. destruct q as [n d]. unfold Qtrunc. cbn. apply Z.quot_opp_l. lia. Qed.

(** ** The doubles around zero and one *)

Lemma is_double_comp p q : (p == q)%Q -> is_double p = is_double q.
Proof.
  intros E. unfold is_double. rewrite (round_double_comp _ _ E).
  f_equal.
  - destruct (Qeq_bool (round_double q) q) eqn:A.
    + apply Qeq_bool_iff in A. apply Qeq_bool_iff. now rewrite E.
    + destruct (Qeq_bool (round_double q) p) eqn:B; [|reflexivity].
      apply Qeq_bool_iff in B. rewrite E in B. apply Qeq_bool_iff in B.
      congruence.
  - f_equal.
    destruct (Qle_bool (pow2 1024) (Qabs q)) eqn:A.
    + apply Qle_bool_iff in A. apply Qle_bool_iff. now rewrite E.
    + destruct (Qle_bool (pow2 1024) (Qabs p)) eqn:B; [|reflexivity].
      apply Qle_bool_iff in B. rewrite E in B. apply Qle_bool_iff in B.
      congruence.
Qed.

(** The opposite of a double is a double. *)
Lemma double_opp (b : double) : (dbl (- b) == - b)%Q.
Proof.
  assert (R : (round_double (- b) == - b)%Q)
    by now rewrite round_double_opp, double_exact.
  rewrite dbl_val; [exact R|].
  rewrite (is_double_comp _ _ R).
  pose proof (dval_ok b) as H. unfold is_double in *.
  apply andb_true_iff in H. destruct H as [H1 H2].
  apply andb_true_iff. split.
  - apply Qeq_bool_iff. now rewrite round_double_opp, double_exact.
  - destruct (Qle_bool (pow2 1024) (Qabs (- b))) eqn:A; [|reflexivity].
    apply Qle_bool_iff in A. rewrite Qabs_opp in A. apply Qle_bool_iff in A.
    now rewrite A in H2.
Qed.

Lemma round_double_lt_one q : (round_double q < 1)%Q <-> (q < below_one)%Q.
Proof.
  assert (U : (inject_Z half_u == below_one * inject_Z (Zpos denorm_min))%Q)
    by (vm_compute; reflexivity).
  assert (P : (0 < inject_Z (Zpos denorm_min))%Q) by reflexivity.
  transitivity (rnd (units q) < one_u).
  - unfold round_double, Qlt. cbn [Qnum Qden].
    rewrite Z.mul_1_r, Z.mul_1_l. reflexivity.
  - rewrite rnd_lt_one, U. unfold units. split.
    + intros H. now apply Qmult_lt_r in H.
    + intros H. now apply Qmult_lt_r.
Qed.

Lemma round_double_gt_minus_one q :
  (-1 < round_double q)%Q <-> (- below_one < q)%Q.
Proof.
  pose proof (round_double_lt_one (- q)) as H.
  rewrite round_double_opp in H. split; intros G.
  - assert (A : (- q < below_one)%Q) by (apply H; lra). lra.
  - assert (A : (- round_double q < 1)%Q) by (apply H; lra). lra.
Qed.



(** ** Several binding requests *)

Lemma callback_event mem (g : Bus) cb obj evt found :
  named g obj found ->
  cb_live mem cb ->
  exists g',
    run_callback mem g obj evt cb = Some g' /\
    (cb_waits_for mem found cb = false -> g' = g) /\
    (cb_waits_for mem found cb = true ->
       exists src dst,
         g' = connected g src dst /\ cb_link mem g obj cb = Some (link g src dst)).
Proof.
  intros N [Lc Lm]. unfold cb_waits_for.
  destruct cb as [p dst|src p]; cbn [cb_name cb_link] in *.
  - destruct (chars mem p) as [wanted|] eqn:C; [|now elim Lc].
    destruct (read_member mem dst) as [target|] eqn:R; [|now elim Lm].
    rewrite (from_event _ _ _ _ _ _ found wanted target) by assumption.
    destruct (String.eqb wanted found); eexists; (split; [reflexivity|]);
      split; try discriminate; try reflexivity.
    intros _. now do 2 eexists.
  - destruct (chars mem p) as [wanted|] eqn:C; [|now elim Lc].
    destruct (read_member mem src) as [source|] eqn:R; [|now elim Lm].
    rewrite (to_event _ _ _ _ _ _ found wanted source) by assumption.
    destruct (String.eqb wanted found); eexists; (split; [reflexivity|]);
      split; try discriminate; try reflexivity.
    intros _. now do 2 eexists.
Qed.

Lemma callbacks_event mem obj evt found cbs : forall g : Bus,
  named g obj found ->
  well_numbered g = true ->
  Forall (cb_live mem) cbs ->
  exists g' l,
    run_callbacks mem g obj evt cbs = Some g' /\
    maps g' = (maps g ++ l)%list /\
    List.map (fun e => Some (snd e)) l =
      List.map (cb_link mem g obj) (filter (cb_waits_for mem found) cbs) /\
    signals g' = signals g /\ callbacks g' = callbacks g /\
    handshake g' = handshake g.
Proof.
  induction cbs as [|cb cbs IH]; intros g N W Lv.
  - exists g, []. cbn. now rewrite app_nil_r.
  - inversion Lv as [|? ? Lcb Lcbs]; subst.
    cbn [run_callbacks filter].
    destruct (callback_event mem g cb obj evt found N Lcb) as [g1 [R [Miss Hit]]].
    rewrite R. cbn [obind].
    destruct (cb_waits_for mem found cb).
    + destruct (Hit eq_refl) as [src [dst [-> L]]].
      destruct (IH (connected g src dst)) as [g' [l [R' [M [Ls [S [C H]]]]]]].
      * unfold named in *. now rewrite connected_eq.
      * now apply connected_numbered.
      * exact Lcbs.
      * exists g', ((next_id g, link g src dst) :: l).
        rewrite connected_eq in M, S, C, H by exact W. cbn in M, S, C, H.
        split; [exact R'|]. split; [now rewrite M, <- app_assoc|].
        split; [|now repeat split].
        cbn [List.map snd]. rewrite L. f_equal. rewrite Ls.
        apply map_ext. intros [P d|s P]; cbn [cb_link]; unfold link;
          now rewrite connected_eq by exact W.
    + rewrite (Miss eq_refl). now apply IH.
Qed.



(** ** The destructor *)

(** X10.  The destructor gives back endpoints and nothing else: the observers of
    earlier binding requests stay registered.  On a track constructed on a
    device of its own the eight freed endpoints are gone, so that a later
    [update] has nothing to read the division from and is undefined. *)
Theorem destructor_frees_endpoints_only mem name type vs n fuel self p :
  name_fits name -> (1 <= vs)%nat -> (n < fuel)%nat ->
  exists this dev,
    Loop_new mem fuel name (new_bus (Some n)) type vs = Some (this, dev) /\
    (forall g : Bus, callbacks (Loop_delete this g) = callbacks g) /\
    callbacks (Loop_delete this (mapInput self dev p)) =
      [mapFrom_handler p (self, _sigIn)] /\
    List.map (mpr_sig_get_value (Loop_delete this dev))
      [ _sigRecord this; _sigLength this; _sigModulation this; _sigDivision this;
        _sigIn this; _sigOut this; _sigLocalReceive this; _sigLocalSend this ] =
      repeat None 8 /\
    forall beats, update this beats (Loop_delete this dev) = None.
Proof.
  intros F V L. do 2 eexists.
  split; [now apply new_fresh|].
  split; [intros g; reflexivity|].
  split; [reflexivity|]. split; [reflexivity|].
  intros beats. reflexivity.
Qed.

Lemma destructor_frees_endpoints_only_witness :
  exists this dev,
    Loop_new quiet 3 "loop" (new_bus (Some 2%nat)) MPR_FLT 1 = Some (this, dev) /\
    (forall g : Bus, callbacks (Loop_delete this g) = callbacks g) /\
    callbacks (Loop_delete this (mapInput 100 dev 200)) =
      [mapFrom_handler 200 (100%nat, _sigIn)] /\
    List.map (mpr_sig_get_value (Loop_delete this dev))
      [ _sigRecord this; _sigLength this; _sigModulation this; _sigDivision this;
        _sigIn this; _sigOut this; _sigLocalReceive this; _sigLocalSend this ] =
      repeat None 8 /\
    forall beats, update this beats (Loop_delete this dev) = None.
Proof.
  apply (destructor_frees_endpoints_only quiet "loop" MPR_FLT 1 2 3 100%nat 200%nat).
  - unfold name_fits. simpl. lia.
  - lia.
  - lia.
Defined.

(** ** The accessors *)

(** X11.  The signals the accessors hand out are the ones [update] works
    with.  On a new track: after a division d has been written to the
    signal of [getDivisionSignal] the next call stores the tick of the
    product with d; after a value has been written to the signal of
    [getMuteSignal] the next call writes the output exactly when that
    value is zero; a value written to the signal of [getInputSignal] is
    what the next tick change captures into local/send; and after a call
    on the new track the signal of [getOutputSignal] holds the value of
    local/recv. *)
Theorem accessors_reach_the_endpoints_of_update mem name type vs n fuel :
  name_fits name -> (1 <= vs)%nat -> (n < fuel)%nat ->
  exists this dev,
    Loop_new mem fuel name (new_bus (Some n)) type vs = Some (this, dev) /\
    (forall d (beats : double) t,
       double_to_int (round_double (beats * d)) = Some t ->
       exists this' dev' out,
         update this beats
           (mpr_sig_set_value dev (getDivisionSignal this) 1 MPR_FLT (Some [d])) =
         Some (this', dev', out) /\
         _lastUpdate this' = t) /\
    (forall m (beats : double) t,
       double_to_int (beats * 16) = Some t ->
       let dev1 :=
         mpr_sig_set_value dev (getMuteSignal this) 1 MPR_INT32 (Some [m]) in
       exists this' dev' out,
         update this beats dev1 = Some (this', dev', out) /\
         existsb (writes_to (getOutputSignal this)) (calls_since dev1 dev') =
           Qeq_bool m 0) /\
    (forall v (beats : double) t,
       List.length v = vs ->
       double_to_int (beats * 16) = Some t -> t <> 0 ->
       exists this' dev' out,
         update this beats
           (mpr_sig_set_value dev (getInputSignal this) vs type (Some v)) =
         Some (this', dev', out) /\
         mpr_sig_get_value dev' (_sigLocalSend this) = Some v) /\
    (forall beats this' dev' out,
       update this beats dev = Some (this', dev', out) ->
       mpr_sig_get_value dev' (getOutputSignal this) =
       mpr_sig_get_value dev' (_sigLocalReceive this)).
Proof.
  intros F V L. do 2 eexists.
  split; [now apply new_fresh|].
  destruct vs as [|v0]; [lia|].
  split; [|split; [|split]].
  - intros d beats t D.
    set (this := first_track type (S v0)).
    match goal with |- context [update _ _ ?b] => set (dev := b) end.
    assert (T : tick_of this beats dev = Some t) by exact D.
    assert (M : muted_of this dev = Some false) by reflexivity.
    assert (R : in_int (t - _lastUpdate this) = true).
    { cbn [_lastUpdate this first_track]. rewrite Z.sub_0_r.
      unfold double_to_int in D. apply to_int_some in D. now destruct D as [-> D]. }
    destruct (Z.eq_dec t (_lastUpdate this)) as [E|N].
    + rewrite E in T. rewrite (update_same _ _ _ false) by assumption.
      do 3 eexists. split; [reflexivity|]. now rewrite E.
    + rewrite (update_moved _ _ _ t false); try assumption.
      * do 3 eexists. split; reflexivity.
      * cbn. discriminate.
  - intros m beats t D dev1.
    set (this := first_track type (S v0)).
    assert (T : tick_of this beats dev1 = Some t).
    { unfold tick_of. change (deref _) with (Some 16%Q). cbn [obind].
      now rewrite tick_16. }
    assert (M : muted_of this dev1 = Some (negb (Qeq_bool m 0))) by reflexivity.
    assert (R : in_int (t - _lastUpdate this) = true).
    { cbn [_lastUpdate this first_track]. rewrite Z.sub_0_r.
      unfold double_to_int in D. apply to_int_some in D. now destruct D as [-> D]. }
    change (getOutputSignal this) with 6%nat.
    destruct (Z.eq_dec t (_lastUpdate this)) as [E|N].
    + rewrite E in T. rewrite (update_same _ _ _ _ T M).
      do 3 eexists. split; [reflexivity|].
      destruct (Qeq_bool m 0); cbn [negb].
      * now rewrite (calls_since_app _ _ [copy_out this dev1]) by apply copied_log.
      * now rewrite (calls_since_app _ _ []) by now rewrite app_nil_r.
    + rewrite (update_moved _ _ _ t _ T N R M) by (cbn; discriminate).
      do 3 eexists. split; [reflexivity|].
      destruct (Qeq_bool m 0); cbn [negb].
      * rewrite (calls_since_app _ _
                   [capture this dev1; copy_out this (captured this dev1)]);
          [reflexivity|].
        rewrite copied_log, captured_log, <- app_assoc. reflexivity.
      * now rewrite (calls_since_app _ _ [capture this dev1]) by apply captured_log.
  - intros v beats t Lv D N.
    cbn [getInputSignal _sigIn first_track]. unfold first_signals.
    erewrite set_value_step;
      [|reflexivity|discriminate|reflexivity|exact Lv].
    cbn [update_assoc Nat.eqb]. unfold with_value at 1. cbn [endpoint].
    match goal with |- context [update ?t _ ?b] => set (this := t); set (dev := b) end.
    assert (T : tick_of this beats dev = Some t).
    { unfold tick_of. change (deref _) with (Some 16%Q). cbn [obind].
      now rewrite tick_16. }
    assert (M : muted_of this dev = Some false) by reflexivity.
    rewrite (update_moved _ _ _ t false); try assumption.
    + do 3 eexists. split; [reflexivity|].
      unfold copied. rewrite set_value_other by (cbn; discriminate).
      unfold captured, dev. cbn [_sigLocalSend _sigIn _vectorSize _type this first_track].
      change (mpr_sig_get_value _ 5%nat) with (Some v).
      erewrite set_value_step;
        [|reflexivity|discriminate|reflexivity|exact Lv].
      reflexivity.
    + cbn [_lastUpdate this first_track]. rewrite Z.sub_0_r.
      unfold double_to_int in D. apply to_int_some in D. now destruct D as [-> D].
    + cbn. discriminate.
  - intros beats this' dev' out U.
    set (this := first_track type (S v0)) in *.
    set (dev := Build_Bus _ _ _ _ _ _) in *.
    assert (M : muted_of this dev = Some false) by reflexivity.
    assert (C : forall d : Bus,
      (exists s, assoc 6%nat (signals d) = Some s /\ sig_len s = S v0) ->
      (forall b, mpr_sig_get_value d 8%nat = Some b -> (List.length b <= S v0)%nat) ->
      mpr_sig_get_value (copied this d) 6%nat =
      mpr_sig_get_value (copied this d) 8%nat).
    { intros d [s [As W]] Fit.
      rewrite (copied_other this d 8%nat) by (cbn; discriminate).
      unfold copied, mpr_sig_set_value. cbn [_sigOut _vectorSize this first_track].
      cbn [signals logged]. rewrite As.
      destruct (mpr_sig_get_value d (_sigLocalReceive this)) as [b|] eqn:G;
        cbn [_sigLocalReceive this first_track] in G; rewrite ?G.
      - cbn [Nat.eqb]. rewrite W, Nat.eqb_refl.
        unfold mpr_sig_get_value. cbn [signals set_signals].
        rewrite assoc_update, Nat.eqb_refl, As.
        cbn [option_map obind with_value sig_value].
        now rewrite firstn_all2 by now apply Fit.
      - unfold mpr_sig_get_value at 1. cbn [signals set_signals].
        rewrite assoc_update, Nat.eqb_refl, As. reflexivity. }
    rewrite update_unfold in U.
    destruct (tick_of this beats dev) as [t|]; [cbn [obind] in U|discriminate].
    destruct (t =? _lastUpdate this).
    + unfold gate in U. rewrite M in U. cbn [obind] in U. injection U as _ <- _.
      apply C.
      * eexists. split; [reflexivity|reflexivity].
      * intros b G. injection G as <-. now rewrite length_cells.
    + destruct (int_sub _ _); [cbn [obind] in U|discriminate].
      unfold gate in U.
      change (muted_of (set_lastUpdate this t)) with (muted_of this) in U.
      rewrite muted_captured, M in U by (cbn; discriminate).
      cbn [obind] in U. injection U as _ <- _.
      change (copied (set_lastUpdate this t)) with (copied this).
      apply C.
      * unfold captured, dev, first_signals.
        cbn [_sigLocalSend _sigIn _vectorSize _type this first_track].
        change (mpr_sig_get_value _ 5%nat) with
          (Some (cells mem "sigMin" 0 type (S v0))).
        erewrite set_value_step;
          [|reflexivity|discriminate|reflexivity|apply length_cells].
        eexists. split; reflexivity.
      * intros b. rewrite captured_other by (cbn; discriminate).
        intros G. injection G as <-. now rewrite length_cells.
Qed.

Lemma accessors_reach_the_endpoints_of_update_witness :
  exists this dev,
    Loop_new quiet 3 "loop" (new_bus (Some 2%nat)) MPR_FLT 1 = Some (this, dev) /\
    (forall d (beats : double) t,
       double_to_int (round_double (beats * d)) = Some t ->
       exists this' dev' out,
         update this beats
           (mpr_sig_set_value dev (getDivisionSignal this) 1 MPR_FLT (Some [d])) =
         Some (this', dev', out) /\
         _lastUpdate this' = t) /\
    (forall m (beats : double) t,
       double_to_int (beats * 16) = Some t ->
       let dev1 :=
         mpr_sig_set_value dev (getMuteSignal this) 1 MPR_INT32 (Some [m]) in
       exists this' dev' out,
         update this beats dev1 = Some (this', dev', out) /\
         existsb (writes_to (getOutputSignal this)) (calls_since dev1 dev') =
           Qeq_bool m 0) /\
    (forall v (beats : double) t,
       List.length v = 1%nat ->
       double_to_int (beats * 16) = Some t -> t <> 0 ->
       exists this' dev' out,
         update this beats
           (mpr_sig_set_value dev (getInputSignal this) 1 MPR_FLT (Some v)) =
         Some (this', dev', out) /\
         mpr_sig_get_value dev' (_sigLocalSend this) = Some v) /\
    (forall beats this' dev' out,
       update this beats dev = Some (this', dev', out) ->
       mpr_sig_get_value dev' (getOutputSignal this) =
       mpr_sig_get_value dev' (_sigLocalReceive this)).
Proof.
  apply (accessors_reach_the_endpoints_of_update quiet "loop" MPR_FLT 1 2 3).
  - unfold name_fits. simpl. lia.
  - lia.
  - lia.
Defined.

(** X12.  Two calls of [update] on a new track, each with a tick that fits an
    [int], whose ticks lie further apart than an [int] can hold: the first
    call returns, the second has no defined result, because the
    subtraction [now - _lastUpdate] overflows. *)
Theorem far_jump_is_undefined mem name type vs n fuel (b1 b2 : double) t1 t2 :
  name_fits name -> (1 <= vs)%nat -> (n < fuel)%nat ->
  double_to_int (b1 * 16) = Some t1 ->
  double_to_int (b2 * 16) = Some t2 ->
  in_int (t2 - t1) = false ->
  exists this dev this1 dev1 out1,
    Loop_new mem fuel name (new_bus (Some n)) type vs = Some (this, dev) /\
    update this b1 dev = Some (this1, dev1, out1) /\
    _lastUpdate this1 = t1 /\
    update this1 b2 dev1 = None /\
    updates this dev [b1; b2] = None.
Proof.
  intros F V L D1 D2 R.
  pose proof D1 as I1. unfold double_to_int in I1. apply to_int_some in I1.
  pose proof D2 as I2. unfold double_to_int in I2. apply to_int_some in I2.
  destruct I1 as [_ I1], I2 as [_ I2].
  assert (N1 : t1 <> 0).
  { intros ->. rewrite Z.sub_0_r in R. unfold double_to_int in D2.
    apply to_int_some in D2. destruct D2 as [-> D2]. congruence. }
  assert (N2 : t2 <> t1).
  { intros ->. rewrite Z.sub_diag in R. discriminate. }
  do 2 eexists.
  set (this := first_track type vs). set (dev := Build_Bus 10 (first_signals mem name type vs (Some [1%Q]) (Some [16%Q]))
          [(9%nat, first_map (Some (Some O)))] (@nil callback) (Some n)
          (first_calls mem name type vs ++ last_calls n)).
  assert (U1 : update this b1 dev =
               Some (set_lastUpdate this t1, copied this (captured this dev),
                     if 1 <? t1 - 0 then [printf_Missed (t1 - 0 - 1)] else [])).
  { apply (update_moved this b1 dev t1 false).
    - unfold tick_of. change (deref _) with (Some 16%Q). cbn [obind].
      now rewrite tick_16.
    - exact N1.
    - cbn [_lastUpdate this first_track]. rewrite Z.sub_0_r.
      unfold double_to_int in D1. apply to_int_some in D1. now destruct D1 as [-> D1].
    - reflexivity.
    - cbn. discriminate. }
  assert (U2 : update (set_lastUpdate this t1) b2 (copied this (captured this dev)) = None).
  { rewrite update_unfold.
    assert (T : tick_of (set_lastUpdate this t1) b2 (copied this (captured this dev))
                = Some t2).
    { unfold tick_of. cbn [_sigDivision set_lastUpdate].
      rewrite copied_other, captured_other by (cbn; discriminate).
      change (deref _) with (Some 16%Q). cbn [obind]. now rewrite tick_16. }
    rewrite T. cbn [obind _lastUpdate set_lastUpdate].
    apply Z.eqb_neq in N2. rewrite N2.
    unfold int_sub, to_int. now rewrite R. }
  do 3 eexists.
  split; [now apply new_fresh|]. fold this dev.
  split; [exact U1|]. split; [reflexivity|]. split; [exact U2|].
  cbn [updates]. rewrite U1. cbn [obind]. now rewrite U2.
Qed.

Lemma far_jump_is_undefined_witness :
  exists this dev this1 dev1 out1,
    Loop_new quiet 3 "loop" (new_bus (Some 2%nat)) MPR_FLT 1 = Some (this, dev) /\
    update this (dbl (-134217728)) dev = Some (this1, dev1, out1) /\
    _lastUpdate this1 = -2147483648 /\
    update this1 (dbl 1) dev1 = None /\
    updates this dev [dbl (-134217728); dbl 1] = None.
Proof.
  apply (far_jump_is_undefined quiet "loop" MPR_FLT 1 2 3
           (dbl (-134217728)) (dbl 1) (-2147483648) 16).
  - unfold name_fits. simpl. lia.
  - lia.
  - lia.
  - vm_compute. reflexivity.
  - vm_compute. reflexivity.
  - vm_compute. reflexivity.
Defined.

Lemma endpoint_names_in_the_buffer_witness :
  name_fits "loop" /\
  endpoint_names "loop" =
    List.map (fun sfx => ("loop" ++ "/" ++ sfx)%string) suffixes /\
  NoDup (endpoint_names "loop").
Proof.
  assert (F : name_fits "loop") by (unfold name_fits; simpl; lia).
  split; [exact F|].
  exact (proj1 (proj2 (endpoint_names_in_the_buffer "loop")) F).
Defined.

Lemma relation_records_and_plays_back_witness :
  exists p,
    Expr.bind loopMap_expr (loopMap_args demo_loop) = Some p /\
    exists r y,
      Expr.eval still p = Some r /\
      Expr.r_out r = [(_sigLocalReceive demo_loop, y)] /\
      (y == 0)%Q.
Proof.
  destruct (relation_records_and_plays_back demo_loop) as [p [B [_ [_ [_ H]]]]].
  exists p. split; [exact B|].
  destruct (H still)
    as [r [y [E [O [_ P]]]]].
  exists r, y. split; [exact E|]. split; [exact O|].
  rewrite P; reflexivity.
Defined.

(** X13.  Each accessor hands out the signal the constructor declared under the
    accessor's name: on a new track whose name fits the buffer,
    [getInputSignal] is the signal called name/input, [getRecordSignal] the
    one called name/control/record, and so on for all seven.  The two
    internal endpoints, local/send and local/recv, are handed out by no
    accessor. *)
Theorem accessors_name_their_endpoints mem name type vs n fuel :
  name_fits name -> (1 <= vs)%nat -> (n < fuel)%nat ->
  exists this dev,
    Loop_new mem fuel name (new_bus (Some n)) type vs = Some (this, dev) /\
    List.map (mpr_obj_get_prop_as_str_NAME dev)
      [ getInputSignal this; getOutputSignal this; getModulationSignal this;
        getDivisionSignal this; getLengthSignal this; getRecordSignal this;
        getMuteSignal this ] =
    List.map (fun sfx => Some (name ++ "/" ++ sfx)%string)
      [ "input"; "output"; "control/modulation"; "control/division";
        "control/length"; "control/record"; "control/mute" ]%string /\
    forall s,
      In s [ getInputSignal this; getOutputSignal this; getModulationSignal this;
             getDivisionSignal this; getLengthSignal this; getRecordSignal this;
             getMuteSignal this ] ->
      s <> _sigLocalSend this /\ s <> _sigLocalReceive this.
Proof.
  intros F V L. do 2 eexists.
  split; [now apply new_fresh|].
  split.
  - cbn [List.map].
    rewrite <- !(snprintf_fits name) by (assumption || (cbn; lia)).
    reflexivity.
  - intros s H. cbn in H.
    repeat (destruct H as [<-|H]; [split; discriminate|]). contradiction.
Qed.

Lemma accessors_name_their_endpoints_witness :
  exists this dev,
    Loop_new quiet 3 "loop" (new_bus (Some 2%nat)) MPR_FLT 1 = Some (this, dev) /\
    List.map (mpr_obj_get_prop_as_str_NAME dev)
      [ getInputSignal this; getOutputSignal this; getModulationSignal this;
        getDivisionSignal this; getLengthSignal this; getRecordSignal this;
        getMuteSignal this ] =
    List.map (fun sfx => Some ("loop" ++ "/" ++ sfx)%string)
      [ "input"; "output"; "control/modulation"; "control/division";
        "control/length"; "control/record"; "control/mute" ]%string /\
    forall s,
      In s [ getInputSignal this; getOutputSignal this; getModulationSignal this;
             getDivisionSignal this; getLengthSignal this; getRecordSignal this;
             getMuteSignal this ] ->
      s <> _sigLocalSend this /\ s <> _sigLocalReceive this.
Proof.
  apply (accessors_name_their_endpoints quiet "loop" MPR_FLT 1 2 3).
  - unfold name_fits. simpl. lia.
  - lia.
  - lia.
Defined.
